(** * mgrt: revisions, their textual format, the ordered collection and the
      execution engine

    A shallow embedding of the package [mgrt] (the revision model of the
    migration tool) and the verification of its specification.

    Conventions of the embedding:
    - a Go [string] is a Rocq [string] (a sequence of bytes), a [rune] is an
      integer, a slice of runes is a [list rune];
    - a pointer to a [node] is a [node] value, the nil pointer being the
      constructor [nilNode]; revisions are passed by value (nothing in the
      package writes through a revision pointer once it is built);
    - a function that may panic returns an [outcome];
    - the database handle, the wall clock and the parts of the Go standard
      library the package calls are an interface ([World], [Querier],
      [Clock]) or are modelled in the modules [time], [utf8] and [strings]
      below. *)

From Stdlib Require Import ZArith List String Ascii Bool Lia.
From Stdlib Require Import Sorted Permutation DecimalString Zbitwise.
Import ListNotations.

Local Open Scope string_scope.
Local Open Scope list_scope.
Local Open Scope Z_scope.

(** ** Results of functions that may panic *)

Inductive outcome (A : Type) : Type :=
| Returns (a : A)
| Panics.
Arguments Returns {A} a.
Arguments Panics {A}.

(** ** The part of package [time] used by the package

    [time.Parse] for the one layout the package uses, [20060102150405]:
    a four-digit year, then month, day, hour, minute and second. The layout
    elements [01], [02], [04] and [05] take exactly two digits, [15] takes
    one or two; a fractional second ([.] or [,] followed by digits) after the
    seconds is accepted and ignored although the layout has none; any other
    trailing text is an error. The result is the Unix time in seconds (UTC). *)

Module time.

Definition isDigit (c : ascii) : bool :=
  (48 <=? Z.of_N (N_of_ascii c)) && (Z.of_N (N_of_ascii c) <=? 57).

Definition digit (c : ascii) : Z := Z.of_N (N_of_ascii c) - 48.

Definition commaOrPeriod (c : ascii) : bool :=
  (Ascii.eqb c ".") || (Ascii.eqb c ",").

(** [getnum s fixed]: the leading one- or two-digit number of [s]; with
    [fixed] the number must have two digits. *)
Definition getnum (s : list ascii) (fixed : bool) : option (Z * list ascii) :=
  match s with
  | c0 :: s1 =>
      if isDigit c0 then
        match s1 with
        | c1 :: s2 =>
            if isDigit c1 then Some (digit c0 * 10 + digit c1, s2)
            else if fixed then None else Some (digit c0, s1)
        | [] => if fixed then None else Some (digit c0, s1)
        end
      else None
  | [] => None
  end.

(** The layout element [2006]: exactly four digits. *)
Definition getyear (s : list ascii) : option (Z * list ascii) :=
  match s with
  | c0 :: c1 :: c2 :: c3 :: rest =>
      if isDigit c0 && isDigit c1 && isDigit c2 && isDigit c3
      then Some (((digit c0 * 10 + digit c1) * 10 + digit c2) * 10 + digit c3, rest)
      else None
  | _ => None
  end.

Fixpoint skipDigits (s : list ascii) : list ascii :=
  match s with
  | c :: s' => if isDigit c then skipDigits s' else s
  | [] => []
  end.

(** The fractional second the parser accepts after the seconds field. *)
Definition skipFraction (s : list ascii) : list ascii :=
  match s with
  | c0 :: c1 :: rest =>
      if commaOrPeriod c0 && isDigit c1 then skipDigits rest else s
  | _ => s
  end.

Definition isLeap (year : Z) : bool :=
  (year mod 4 =? 0) && (negb (year mod 100 =? 0) || (year mod 400 =? 0)).

Definition daysIn (month year : Z) : Z :=
  if (month =? 2) then (if isLeap year then 29 else 28)
  else if (month =? 4) || (month =? 6) || (month =? 9) || (month =? 11) then 30
  else 31.

(** Days from 1 January of year 0 to 1 January of [year] (proleptic
    Gregorian calendar, [0 <= year]). *)
Definition daysBeforeYear (year : Z) : Z :=
  365 * year + (year + 3) / 4 - (year + 99) / 100 + (year + 399) / 400.

Fixpoint daysBeforeMonth (n : nat) (year : Z) : Z :=
  match n with
  | O => 0
  | S k => daysBeforeMonth k year + daysIn (Z.of_nat k + 1) year
  end.

(** [Date(year, month, day, hour, min, sec, 0, UTC).Unix()] *)
Definition unixOfDate (year month day hour min sec : Z) : Z :=
  (daysBeforeYear year - daysBeforeYear 1970
   + daysBeforeMonth (Z.to_nat (month - 1)) year + (day - 1)) * 86400
  + hour * 3600 + min * 60 + sec.

(** [time.Parse("20060102150405", value)] followed by [Unix()]; [None] is
    a parse error. *)
Definition ParseUnix (value : string) : option Z :=
  match getyear (list_ascii_of_string value) with
  | None => None
  | Some (year, v1) =>
  match getnum v1 true with
  | None => None
  | Some (month, v2) =>
  if (month <=? 0) || (12 <? month) then None else
  match getnum v2 true with
  | None => None
  | Some (day, v3) =>
  match getnum v3 false with
  | None => None
  | Some (hour, v4) =>
  if (hour <? 0) || (24 <=? hour) then None else
  match getnum v4 true with
  | None => None
  | Some (min, v5) =>
  if (min <? 0) || (60 <=? min) then None else
  match getnum v5 true with
  | None => None
  | Some (sec, v6) =>
  if (sec <? 0) || (60 <=? sec) then None else
  match skipFraction v6 with
  | _ :: _ => None
  | [] =>
      if (day <? 1) || (daysIn month year <? day) then None
      else Some (unixOfDate year month day hour min sec)
  end end end end end end end.

(** *** [Time.Format] for the same layout

    What a [Time] shows in its location: its date ([Time.Date]) and its
    clock ([Time.Clock]). *)
Record Time : Type := mkTime {
  Year : Z;
  Month : Z;
  Day : Z;
  Hour : Z;
  Minute : Z;
  Second : Z
}.

(** The dates and clocks a [Time] can show. *)
Definition IsDate (t : Time) : Prop :=
  1 <= Month t <= 12
  /\ 1 <= Day t <= daysIn (Month t) (Year t)
  /\ 0 <= Hour t < 24
  /\ 0 <= Minute t < 60
  /\ 0 <= Second t < 60.

Definition digitChar (d : Z) : ascii := ascii_of_N (Z.to_N (48 + d)).

(** The decimal digits of [u], the most significant first; twenty digits
    are enough for an integer of 64 bits. *)
Fixpoint digits (fuel : nat) (u : Z) : list ascii :=
  match fuel with
  | O => []
  | S k =>
      if u <? 10 then [digitChar u]
      else digits k (u / 10) ++ [digitChar (u mod 10)]
  end.

(** [appendInt(b, x, width)]: the sign of a negative [x], then its digits
    after the zeros that fill them up to [width]. *)
Definition appendInt (x : Z) (width : nat) : list ascii :=
  let ds := digits 20 (Z.abs x) in
  (if x <? 0 then ["-"%char] else [])
  ++ repeat "0"%char (width - List.length ds) ++ ds.

(** [t.Format("20060102150405")]: the year on four digits at least, then
    month, day, hour, minute and second on two digits each. *)
Definition Format (t : Time) : string :=
  string_of_list_ascii
    (appendInt (Year t) 4 ++ appendInt (Month t) 2 ++ appendInt (Day t) 2
     ++ appendInt (Hour t) 2 ++ appendInt (Minute t) 2
     ++ appendInt (Second t) 2).

(** The fraction of a second that may follow the seconds: nothing, or a
    period or a comma and then digits, one at least. *)
Definition IsFraction (v : list ascii) : Prop :=
  v = []
  \/ exists sep d ds,
       v = sep :: d :: ds
       /\ commaOrPeriod sep = true
       /\ isDigit d = true
       /\ Forall (fun c => isDigit c = true) ds.

End time.

(** The layout of a revision ID. [validID] is the test
    [time.Parse(revisionIdFormat, id)] succeeds. *)
Definition validID (id : string) : bool :=
  match time.ParseUnix id with Some _ => true | None => false end.


(** ** Errors *)

(** The error values of the package. [DriverError] stands for any error of
    [database/sql] or of the reader: it is opaque and wraps nothing. [Errors]
    is the slice type of the same name. *)
#[warnings="-register-all"]
Inductive error : Type :=
| ErrInvalid
| ErrPerformed
| DriverError (msg : string)
| RevisionError (ID : string) (Err : error)
| Errors (errs : list error).

(** [RevisionError.Unwrap]; the other errors have no [Unwrap] method. *)
Definition Unwrap (e : error) : option error :=
  match e with
  | RevisionError _ err => Some err
  | _ => None
  end.

(** [errors.Is(err, ErrPerformed)]: [err] or an error of its [Unwrap] chain
    is the sentinel. *)
Fixpoint errors_Is_ErrPerformed (err : error) : bool :=
  match err with
  | ErrPerformed => true
  | RevisionError _ e => errors_Is_ErrPerformed e
  | _ => false
  end.

(** [Errors.err]: the nil error ([None]) for an empty slice. *)
Definition Errors_err (e : list error) : option error :=
  match e with
  | [] => None
  | _ => Some (Errors e)
  end.

(** ** Revisions *)

Record Revision : Type := mkRevision {
  ID : string;
  Author : string;
  Comment : string;
  SQL : string;
  PerformedAt : option Z   (* Unix seconds; [None] is the zero [time.Time] *)
}.

(** ** The ordered collection *)

Inductive node : Type :=
| nilNode
| mkNode (val : Z) (rev : Revision) (left right : node).

Record Collection : Type := mkCollection {
  len : Z;
  root : node
}.

(** The zero value [var c Collection]. *)
Definition emptyCollection : Collection := mkCollection 0 nilNode.

(** Go's [int] is 64 bits wide here. *)
Definition wrap_int (z : Z) : Z := (z + 2 ^ 63) mod 2 ^ 64 - 2 ^ 63.

(** [insertNode(n, val, r)]: the node written back through [n]. *)
Fixpoint insertNode (n : node) (val : Z) (r : Revision) : node :=
  match n with
  | nilNode => mkNode val r nilNode nilNode
  | mkNode nval nrev nleft nright =>
      if val <? nval then mkNode nval nrev (insertNode nleft val r) nright
      else mkNode nval nrev nleft (insertNode nright val r)
  end.

(** [node.walk] with the visitor of [Slice], which appends to [revs].
    The receiver is dereferenced at once, so a nil receiver panics. *)
Fixpoint walk (n : node) (revs : list Revision) : outcome (list Revision) :=
  match n with
  | nilNode => Panics
  | mkNode _ nrev nleft nright =>
      let after_left :=
        match nleft with
        | nilNode => Returns revs
        | mkNode _ _ _ _ => walk nleft revs
        end in
      match after_left with
      | Panics => Panics
      | Returns revs1 =>
          let revs2 := revs1 ++ [nrev] in
          match nright with
          | nilNode => Returns revs2
          | mkNode _ _ _ _ => walk nright revs2
          end
      end
  end.

(** [Collection.Put]: the collection afterwards and the error returned. *)
Definition Put (c : Collection) (r : Revision) : Collection * option error :=
  if String.eqb (ID r) "" then (c, Some ErrInvalid)
  else
    match time.ParseUnix (ID r) with
    | None => (c, Some ErrInvalid)
    | Some t =>
        (mkCollection (wrap_int (len c + 1)) (insertNode (root c) t r), None)
    end.

Definition Len (c : Collection) : Z := len c.

(** [Collection.Slice]: [make] panics for a negative capacity, then the
    tree is walked from the root. *)
Definition Slice (c : Collection) : outcome (list Revision) :=
  if len c <? 0 then Panics else walk (root c) [].

(** ** The database and the clock

    What the package needs of its surroundings: [db.QueryRow(q).Scan(&count)]
    for a query that yields one integer, [db.Exec(q)], and
    [time.Now().Unix()]. Each takes the state of the world and returns the
    state afterwards; an error of the driver is its message. *)
Class World (W : Type) : Type := {
  QueryRowScan : W -> string -> W * (string + Z);
  Exec : W -> string -> W * option string;
  NowUnix : W -> W * Z
}.

(** ** The execution engine *)

Section Engine.

Context {W : Type} `{World W}.

(** [strconv.Quote], which formats the verb [%q] of [fmt.Sprintf]. *)
Variable Quote : string -> string.

(** The verb [%d] for an [int64]. *)
Definition formatInt (z : Z) : string :=
  DecimalString.NilZero.string_of_int (Z.to_int z).

Definition countQuery (id : string) : string :=
  ("SELECT COUNT(id) FROM mgrt_revisions WHERE id = " ++ id)%string.

(** The statement [fmt.Sprintf] builds in [Perform]. *)
Definition insertQuery (r : Revision) (now : Z) : string :=
  ("INSERT INTO mgrt_revisions (id, author, comment, sql, performed_at) VALUES ("
   ++ Quote (ID r) ++ ", " ++ Quote (Author r) ++ ", " ++ Quote (Comment r)
   ++ ", " ++ ("'" ++ SQL r ++ "'") ++ ", " ++ formatInt now ++ ")")%string.

Definition RevisionPerformed (db : W) (rev : Revision) : W * option error :=
  match time.ParseUnix (ID rev) with
  | None => (db, Some ErrInvalid)
  | Some _ =>
      let q := countQuery (ID rev) in
      match QueryRowScan db q with
      | (db1, inl err) => (db1, Some (RevisionError (ID rev) (DriverError err)))
      | (db1, inr count) =>
          if 0 <? count
          then (db1, Some (RevisionError (ID rev) ErrPerformed))
          else (db1, None)
      end
  end.

Definition Perform (db : W) (r : Revision) : W * option error :=
  if String.eqb (SQL r) "" then (db, None)
  else
    match RevisionPerformed db r with
    | (db1, Some err) => (db1, Some err)
    | (db1, None) =>
        match Exec db1 (SQL r) with
        | (db2, Some err) => (db2, Some (DriverError err))
        | (db2, None) =>
            let (db3, now) := NowUnix db2 in
            let q := insertQuery r now in
            match Exec db3 q with
            | (db4, Some err) => (db4, Some (DriverError err))
            | (db4, None) => (db4, None)
            end
        end
    end.

(** The first loop of [PerformRevisions]; the error of [Put] is dropped. *)
Definition putAll (revs0 : list Revision) : Collection :=
  fold_left (fun c rev => fst (Put c rev)) revs0 emptyCollection.

(** The second loop of [PerformRevisions], over the sorted slice. *)
Fixpoint performLoop (db : W) (revs : list Revision) (errs : list error)
  : W * option error :=
  match revs with
  | [] => (db, Errors_err errs)
  | rev :: rest =>
      match Perform db rev with
      | (db1, Some err) =>
          if errors_Is_ErrPerformed err
          then performLoop db1 rest (errs ++ [err])
          else (db1, Some err)
      | (db1, None) => performLoop db1 rest errs
      end
  end.

Definition PerformRevisions (db : W) (revs0 : list Revision)
  : outcome (W * option error) :=
  let c := putAll revs0 in
  let errs := [] in
  match Slice c with
  | Panics => Panics
  | Returns revs => Returns (performLoop db revs errs)
  end.

(** *** The batch protocol in the words of the specification

    An error is or wraps [ErrPerformed]. *)
Inductive WrapsErrPerformed : error -> Prop :=
| wraps_sentinel : WrapsErrPerformed ErrPerformed
| wraps_unwrap e e' :
    Unwrap e = Some e' -> WrapsErrPerformed e' -> WrapsErrPerformed e.

(** [Batch db revs errs db' res]: performing [revs] in the order of the
    list from [db], with [errs] aggregated so far, ends in [db'] with the
    result [res]. *)
Inductive Batch : W -> list Revision -> list error -> W -> option error -> Prop :=
| batch_done db :
    (* every revision performed, nothing aggregated: success *)
    Batch db [] [] db None
| batch_aggregate db e errs :
    Batch db [] (e :: errs) db (Some (Errors (e :: errs)))
| batch_success db r rest errs db1 db' res :
    Perform db r = (db1, None) ->
    Batch db1 rest errs db' res ->
    Batch db (r :: rest) errs db' res
| batch_continue db r rest errs e db1 db' res :
    Perform db r = (db1, Some e) ->
    WrapsErrPerformed e ->
    Batch db1 rest (errs ++ [e]) db' res ->
    Batch db (r :: rest) errs db' res
| batch_abort db r rest errs e db1 :
    (* no revision of [rest] is attempted: the world is the one [r] left *)
    Perform db r = (db1, Some e) ->
    ~ WrapsErrPerformed e ->
    Batch db (r :: rest) errs db1 (Some e).

End Engine.

(** *** The order of the collection, as a list

    The Unix time a valid ID stands for. *)
Definition unixOf (r : Revision) : Z :=
  match time.ParseUnix (ID r) with Some t => t | None => 0 end.

Definition keyed : Type := (Z * Revision)%type.

(** The nodes of a tree from left to right. *)
Fixpoint inorder (n : node) : list keyed :=
  match n with
  | nilNode => []
  | mkNode nval nrev nleft nright => inorder nleft ++ (nval, nrev) :: inorder nright
  end.

(** Insertion into a sorted list, after the entries that are not greater. *)
Fixpoint insertSorted (x : keyed) (l : list keyed) : list keyed :=
  match l with
  | [] => [x]
  | y :: l' => if fst x <? fst y then x :: l else y :: insertSorted x l'
  end.

Definition validRevision (r : Revision) : bool := validID (ID r).

(** Stable insertion sort of the valid revisions by their Unix time. *)
Definition sortRevisions (revs : list Revision) : list keyed :=
  fold_left (fun acc r => insertSorted (unixOf r, r) acc)
            (filter validRevision revs) [].

Definition keyLe (x y : keyed) : Prop := fst x <= fst y.

(** ** A database in memory

    The smallest world that honours the tracking table: the IDs recorded in
    [mgrt_revisions], the other statements executed, and a clock. The
    statement [FAIL] is rejected, every other statement succeeds. *)
Module MemDB.

Record t : Type := mk {
  tracked : list string;
  executed : list string;
  clock : Z
}.

Definition dquote : ascii := ascii_of_nat 34.

Definition quote (s : string) : string :=
  String dquote (s ++ String dquote EmptyString)%string.

(** [s] without the prefix [p], when it has it. *)
Fixpoint stripPrefix (p s : string) : option string :=
  match p with
  | EmptyString => Some s
  | String a p' =>
      match s with
      | String b s' => if Ascii.eqb a b then stripPrefix p' s' else None
      | EmptyString => None
      end
  end.

Fixpoint upTo (c : ascii) (s : string) : string :=
  match s with
  | EmptyString => EmptyString
  | String a s' => if Ascii.eqb a c then EmptyString else String a (upTo c s')
  end.

Definition count (id : string) (l : list string) : Z :=
  Z.of_nat (List.length (filter (String.eqb id) l)).

Definition queryRowScan (db : t) (q : string) : t * (string + Z) :=
  match stripPrefix "SELECT COUNT(id) FROM mgrt_revisions WHERE id = " q with
  | Some id => (db, inr (count id (tracked db)))
  | None => (db, inl "unsupported query")
  end.

Definition exec (db : t) (q : string) : t * option string :=
  if String.eqb q "FAIL" then (db, Some "syntax error")
  else
    match stripPrefix
            ("INSERT INTO mgrt_revisions (id, author, comment, sql, performed_at) VALUES ("
             ++ String dquote EmptyString)%string q with
    | Some rest => (mk (upTo dquote rest :: tracked db) (executed db) (clock db), None)
    | None => (mk (tracked db) (executed db ++ [q]) (clock db), None)
    end.

Definition nowUnix (db : t) : t * Z :=
  (mk (tracked db) (executed db) (clock db + 1), clock db).

#[global] Instance world : World t := {
  QueryRowScan := queryRowScan;
  Exec := exec;
  NowUnix := nowUnix
}.

Definition empty : t := mk [] [] 1700000000.

End MemDB.

(** ** Runes and UTF-8

    The reader of [UnmarshalRevision] yields runes ([bufio.Reader.ReadRune])
    and its buffer of runes is turned back into a string. *)

Definition rune : Type := Z.

(** The value of a byte, and the rune of an ASCII character. *)
Definition byteVal (c : ascii) : Z := Z.of_N (N_of_ascii c).

Module utf8.

Definition RuneError : rune := 65533.
Definition RuneSelf : Z := 128.
Definition MaxRune : rune := 1114111.

(** The table [first] with [acceptRanges]: for a leading byte of a sequence
    of several bytes, the length of the sequence and the range the second
    byte must be in. The bytes [0x80..0xC1] and [0xF5..0xFF] lead nothing. *)
Definition lead (p0 : Z) : option (nat * Z * Z) :=
  if (194 <=? p0) && (p0 <=? 223) then Some (2%nat, 128, 191)
  else if p0 =? 224 then Some (3%nat, 160, 191)
  else if (225 <=? p0) && (p0 <=? 236) then Some (3%nat, 128, 191)
  else if p0 =? 237 then Some (3%nat, 128, 159)
  else if (238 <=? p0) && (p0 <=? 239) then Some (3%nat, 128, 191)
  else if p0 =? 240 then Some (4%nat, 144, 191)
  else if (241 <=? p0) && (p0 <=? 243) then Some (4%nat, 128, 191)
  else if p0 =? 244 then Some (4%nat, 128, 143)
  else None.

(** A continuation byte: [locb <= b <= hicb]. *)
Definition continuation (b : Z) : bool := (128 <=? b) && (b <=? 191).

(** [utf8.DecodeRune]: the first rune of [p] and its width in bytes;
    [(RuneError, 1)] for an encoding that is invalid or cut short. *)
Definition DecodeRune (p : list ascii) : rune * nat :=
  match p with
  | [] => (RuneError, 0%nat)
  | c0 :: p1 =>
      let p0 := byteVal c0 in
      if p0 <? RuneSelf then (p0, 1%nat)
      else
        match lead p0 with
        | None => (RuneError, 1%nat)
        | Some (sz, lo, hi) =>
            if (List.length p <? sz)%nat then (RuneError, 1%nat)
            else
              match p1 with
              | [] => (RuneError, 1%nat)
              | c1 :: p2 =>
                  let b1 := byteVal c1 in
                  if (b1 <? lo) || (hi <? b1) then (RuneError, 1%nat)
                  else if (sz <=? 2)%nat
                  then (Z.lor (Z.shiftl (Z.land p0 31) 6) (Z.land b1 63), 2%nat)
                  else
                    match p2 with
                    | [] => (RuneError, 1%nat)
                    | c2 :: p3 =>
                        let b2 := byteVal c2 in
                        if negb (continuation b2) then (RuneError, 1%nat)
                        else if (sz <=? 3)%nat
                        then (Z.lor (Z.lor (Z.shiftl (Z.land p0 15) 12)
                                           (Z.shiftl (Z.land b1 63) 6))
                                    (Z.land b2 63), 3%nat)
                        else
                          match p3 with
                          | [] => (RuneError, 1%nat)
                          | c3 :: _ =>
                              let b3 := byteVal c3 in
                              if negb (continuation b3) then (RuneError, 1%nat)
                              else (Z.lor (Z.lor (Z.lor
                                      (Z.shiftl (Z.land p0 7) 18)
                                      (Z.shiftl (Z.land b1 63) 12))
                                      (Z.shiftl (Z.land b2 63) 6))
                                      (Z.land b3 63), 4%nat)
                          end
                    end
              end
        end
  end.

(** The runes [ReadRune] yields one after the other; [skip] counts the
    bytes still to pass of the rune decoded last. *)
Fixpoint runesFrom (p : list ascii) (skip : nat) : list rune :=
  match p with
  | [] => []
  | _ :: p' =>
      match skip with
      | S k => runesFrom p' k
      | O => let (r, size) := DecodeRune p in r :: runesFrom p' (size - 1)
      end
  end.

Definition runes (s : string) : list rune :=
  runesFrom (list_ascii_of_string s) 0.

Definition byteOf (z : Z) : ascii := ascii_of_N (Z.to_N (z mod 256)).

(** [utf8.AppendRune]: the encoding of a rune; a rune out of range or a
    surrogate half is encoded as [RuneError]. *)
Definition EncodeRune (r : rune) : list ascii :=
  if (0 <=? r) && (r <=? 127) then [byteOf r]
  else if (0 <=? r) && (r <=? 2047)
  then [byteOf (Z.lor 192 (Z.shiftr r 6)); byteOf (Z.lor 128 (Z.land r 63))]
  else
    let r := if (r <? 0) || (MaxRune <? r) || ((55296 <=? r) && (r <=? 57343))
             then RuneError else r in
    if r <=? 65535
    then [byteOf (Z.lor 224 (Z.shiftr r 12));
          byteOf (Z.lor 128 (Z.land (Z.shiftr r 6) 63));
          byteOf (Z.lor 128 (Z.land r 63))]
    else [byteOf (Z.lor 240 (Z.shiftr r 18));
          byteOf (Z.lor 128 (Z.land (Z.shiftr r 12) 63));
          byteOf (Z.lor 128 (Z.land (Z.shiftr r 6) 63));
          byteOf (Z.lor 128 (Z.land r 63))].

(** The bytes of the conversion [string(buf)] of a slice of runes. *)
Definition encode (buf : list rune) : list ascii := flat_map EncodeRune buf.

(** The byte before the last belongs to no other rune than the last:
    [utf8.RuneStart]. *)
Definition RuneStart (b : Z) : bool := negb (continuation b).

(** [utf8.DecodeLastRune] of a sequence of bytes given in reverse (the last
    byte first): the last rune and its width. The bytes before the last are
    searched backwards, at most three of them, for the start of a rune. *)
Definition DecodeLastRuneRev (q : list ascii) : rune * nat :=
  match q with
  | [] => (RuneError, 0%nat)
  | c0 :: q1 =>
      if byteVal c0 <? RuneSelf then (byteVal c0, 1%nat)
      else
        let candidate :=
          match q1 with
          | [] => [c0]
          | c1 :: q2 =>
              if RuneStart (byteVal c1) then [c1; c0]
              else
                match q2 with
                | [] => [c1; c0]
                | c2 :: q3 =>
                    if RuneStart (byteVal c2) then [c2; c1; c0]
                    else
                      match q3 with
                      | [] => [c2; c1; c0]
                      | c3 :: q4 =>
                          if RuneStart (byteVal c3) then [c3; c2; c1; c0]
                          else
                            match q4 with
                            | [] => [c3; c2; c1; c0]
                            | c4 :: _ => [c4; c3; c2; c1; c0]
                            end
                      end
                end
          end in
        let (r, size) := DecodeRune candidate in
        if (size =? List.length candidate)%nat then (r, size)
        else (RuneError, 1%nat)
  end.

(** [utf8.ValidString]: no rune of the string decodes as the error of an
    invalid encoding, [(RuneError, 1)]. *)
Fixpoint validFrom (p : list ascii) (skip : nat) : bool :=
  match p with
  | [] => true
  | _ :: p' =>
      match skip with
      | S k => validFrom p' k
      | O =>
          let (r, size) := DecodeRune p in
          if (r =? RuneError) && (size =? 1)%nat then false
          else validFrom p' (size - 1)
      end
  end.

Definition ValidString (s : string) : bool :=
  validFrom (list_ascii_of_string s) 0.

End utf8.

(** [string(buf)] *)
Definition string_of_runes (buf : list rune) : string :=
  string_of_list_ascii (utf8.encode buf).

(** The runes of an ASCII literal of the source. *)
Definition lit (s : string) : list rune :=
  map byteVal (list_ascii_of_string s).

(** ** The part of package [strings] used by the package *)

Module strings.

(** [unicode.IsSpace] *)
Definition IsSpace (r : rune) : bool :=
  ((9 <=? r) && (r <=? 13)) || (r =? 32) || (r =? 133) || (r =? 160)
  || (r =? 5760) || ((8192 <=? r) && (r <=? 8202))
  || (r =? 8232) || (r =? 8233) || (r =? 8239) || (r =? 8287) || (r =? 12288).

(** The bytes left once the leading white space is cut. *)
Fixpoint trimLeft (p : list ascii) (skip : nat) : list ascii :=
  match p with
  | [] => []
  | _ :: p' =>
      match skip with
      | S k => trimLeft p' k
      | O =>
          let (r, size) := utf8.DecodeRune p in
          if IsSpace r then trimLeft p' (size - 1) else p
      end
  end.

(** The same from the end, on the bytes in reverse. *)
Fixpoint trimRightRev (q : list ascii) (skip : nat) : list ascii :=
  match q with
  | [] => []
  | _ :: q' =>
      match skip with
      | S k => trimRightRev q' k
      | O =>
          let (r, size) := utf8.DecodeLastRuneRev q in
          if IsSpace r then trimRightRev q' (size - 1) else q
      end
  end.

Definition trimRight (p : list ascii) : list ascii :=
  List.rev (trimRightRev (List.rev p) 0).

(** [strings.TrimSpace]: [s] without its leading and trailing white space,
    as Unicode defines it. *)
Definition TrimSpace (s : string) : string :=
  string_of_list_ascii (trimRight (trimLeft (list_ascii_of_string s) 0)).

End strings.

(** An ASCII character that is white space, and one that is not. *)
Definition asciiSpace (c : ascii) : Prop :=
  byteVal c < 128 /\ strings.IsSpace (byteVal c) = true.

Definition asciiNonSpace (c : ascii) : Prop :=
  byteVal c < 128 /\ strings.IsSpace (byteVal c) = false.

(** The characters of a valid ID. *)
Definition idChar (c : ascii) : bool :=
  time.isDigit c || time.commaOrPeriod c.

(** What may follow a digit in an ID: characters of an ID, the last of
    them a digit. *)
Definition idTail (v : list ascii) : Prop :=
  Forall (fun c => idChar c = true) v
  /\ forall c, time.isDigit c = true -> time.isDigit (last v c) = true.

(** [s] is valid UTF-8: it is the encoding of the runes read from it (an
    invalid byte is read as [RuneError], whose encoding is three other
    bytes). *)
Definition validUTF8 (s : string) : Prop :=
  string_of_runes (utf8.runes s) = s.

(** ** The textual format of a revision *)

Definition LF : string := String (ascii_of_nat 10) EmptyString.

(** [Revision.String]: the comment block header, then the SQL. *)
Definition Revision_String (r : Revision) : string :=
  (("/*" ++ LF)
   ++ ("Revision: " ++ ID r ++ LF)
   ++ ("Author:   " ++ Author r ++ LF)
   ++ (if String.eqb (Comment r) "" then "" else LF ++ Comment r ++ LF)
   ++ ("*/" ++ LF ++ LF)
   ++ SQL r)%string.

(** [bytes.IndexByte]: the index of the first [c] in [s], or -1. *)
Fixpoint IndexByte (s : string) (c : ascii) : Z :=
  match s with
  | EmptyString => -1
  | String a s' =>
      if Ascii.eqb a c then 0
      else let i := IndexByte s' c in if i <? 0 then -1 else i + 1
  end.

(** [Revision.Title] *)
Definition Title (r : Revision) : string :=
  let title := Comment r in
  let l := String.length title in
  if (72 <=? l)%nat then
    let title := substring 0 72 title in
    let title := if (72 <? l)%nat then (title ++ "...")%string else title in
    let i := IndexByte title (ascii_of_nat 10) in
    if 0 <? i then substring 0 (Z.to_nat i) title else title
  else title.

(** What [UnmarshalRevision] reads: the bytes of the stream, and the error
    the stream ends with when it is not [io.EOF]. *)
Record Reader : Type := mkReader {
  content : string;
  failure : option string
}.

(** The variables of [UnmarshalRevision]. *)
Record decoder : Type := mkDecoder {
  drev : Revision;
  buf : list rune;
  r0 : rune;
  inBlock : bool
}.

Definition star : rune := 42.
Definition slash : rune := 47.
Definition newline : rune := 10.
Definition colon : rune := 58.

(** [rev := &Revision{}], an empty [buf], the zero rune and [false]. *)
Definition initialDecoder : decoder :=
  mkDecoder (mkRevision "" "" "" "" None) [] 0 false.

Definition setID (r : Revision) (id : string) : Revision :=
  mkRevision id (Author r) (Comment r) (SQL r) (PerformedAt r).
Definition setAuthor (r : Revision) (author : string) : Revision :=
  mkRevision (ID r) author (Comment r) (SQL r) (PerformedAt r).
Definition setComment (r : Revision) (comment : string) : Revision :=
  mkRevision (ID r) (Author r) comment (SQL r) (PerformedAt r).
Definition setSQL (r : Revision) (sql : string) : Revision :=
  mkRevision (ID r) (Author r) (Comment r) sql (PerformedAt r).

(** The loop [for i, r := range buf] that looks for the first colon: its
    index, or -1. *)
Fixpoint indexColon (b : list rune) : Z :=
  match b with
  | [] => -1
  | r :: b' =>
      if r =? colon then 0
      else let i := indexColon b' in if i <? 0 then -1 else i + 1
  end.

(** The slice expression [b[lo:hi]]; [None] is the panic of an index out
    of range. (The capacity of [b] is not modelled: [hi] is at most the
    length wherever the package slices.) *)
Definition slice (b : list rune) (lo hi : Z) : option (list rune) :=
  if (lo <? 0) || (hi <? lo) || (Z.of_nat (List.length b) <? hi) then None
  else Some (firstn (Z.to_nat (hi - lo)) (skipn (Z.to_nat lo) b)).

(** Where the body of the loop goes on after the test of a line inside the
    block: to the next rune ([continue]), to the label [cont], past the
    test, or nowhere (a panic). *)
Inductive lineTest : Type :=
| Continue (d : decoder)
| GotoCont
| FallThrough
| LinePanics.

(** The body of [if r == '\n'] inside [if inBlock]. *)
Definition blockLine (d : decoder) : lineTest :=
  if r0 d =? newline then Continue (mkDecoder (drev d) [] (r0 d) (inBlock d))
  else
    let pos := indexColon (buf d) in
    if pos <? 0 then GotoCont
    else
      match slice (buf d) (pos - 6) pos with
      | None => LinePanics
      | Some s6 =>
          if String.eqb (string_of_runes s6) "Author" then
            Continue (mkDecoder
                        (setAuthor (drev d)
                           (strings.TrimSpace
                              (string_of_runes (skipn (Z.to_nat (pos + 1)) (buf d)))))
                        [] (r0 d) (inBlock d))
          else
            match slice (buf d) (pos - 8) pos with
            | None => LinePanics
            | Some s8 =>
                if String.eqb (string_of_runes s8) "Revision" then
                  Continue (mkDecoder
                              (setID (drev d)
                                 (strings.TrimSpace
                                    (string_of_runes
                                       (skipn (Z.to_nat (pos + 1)) (buf d)))))
                              [] (r0 d) (inBlock d))
                else FallThrough
            end
      end.

(** The label [cont]: [buf = append(buf, r); r0 = r]. *)
Definition appendRune (d : decoder) (r : rune) : decoder :=
  mkDecoder (drev d) (buf d ++ [r]) r (inBlock d).

(** The end of the block: [buf] becomes the comment. *)
Definition closeBlock (d : decoder) : decoder :=
  mkDecoder (setComment (drev d) (strings.TrimSpace (string_of_runes (buf d))))
            [] (r0 d) false.

(** The end of the stream: the error of the reader, or [buf] becomes the
    SQL and the loop is left. *)
Definition endOfStream (fail : option string) (d : decoder)
  : outcome (decoder + error) :=
  match fail with
  | Some e => Returns (inr (DriverError e))
  | None =>
      Returns (inl (mkDecoder
                      (setSQL (drev d) (strings.TrimSpace (string_of_runes (buf d))))
                      (buf d) (r0 d) (inBlock d)))
  end.

(** The loop of [UnmarshalRevision] over the runes that are left to read:
    the variables when the loop is left, or the error returned from inside
    it. *)
Fixpoint readRunes (fail : option string) (d : decoder) (rs : list rune)
  : outcome (decoder + error) :=
  match rs with
  | [] => endOfStream fail d
  | r :: rest =>
      if (r =? star) && (r0 d =? slash)
      then readRunes fail (mkDecoder (drev d) (buf d) (r0 d) true) rest
      else if (r =? slash) && (r0 d =? star)
      then readRunes fail (closeBlock d) rest
      else
        match (if inBlock d && (r =? newline) then blockLine d else FallThrough) with
        | LinePanics => Panics
        | Continue d' => readRunes fail d' rest
        | GotoCont => readRunes fail (appendRune d r) rest
        | FallThrough =>
            if r =? star then
              match rest with
              | [] =>
                  (* the peek fails; after [continue] so does the next read *)
                  match fail with
                  | Some e => Returns (inr (DriverError e))
                  | None => endOfStream fail d
                  end
              | peek :: rest' =>
                  if peek =? slash
                  then (* UnreadRune *)
                       readRunes fail (mkDecoder (drev d) (buf d) r (inBlock d)) rest
                  else (* the rune peeked at is not read again *)
                       readRunes fail (appendRune d r) rest'
              end
            else readRunes fail (appendRune d r) rest
        end
  end.

(** [UnmarshalRevision]: the revision ([inl]) or the error ([inr]) it
    returns, or a panic. *)
Definition UnmarshalRevision (r : Reader) : outcome (Revision + error) :=
  match readRunes (failure r) initialDecoder (utf8.runes (content r)) with
  | Panics => Panics
  | Returns (inr err) => Returns (inr err)
  | Returns (inl d) =>
      match time.ParseUnix (ID (drev d)) with
      | None => Returns (inr ErrInvalid)
      | Some _ => Returns (inl (drev d))
      end
  end.

(** *** The loop, rune by rune

    The body of the loop for a rune other than the star: it reads no
    further rune, so the loop over a run of such runes is a fold. *)
Definition plainStep (d : decoder) (r : rune) : outcome decoder :=
  if (r =? slash) && (r0 d =? star) then Returns (closeBlock d)
  else
    match (if inBlock d && (r =? newline) then blockLine d else FallThrough) with
    | LinePanics => Panics
    | Continue d' => Returns d'
    | GotoCont | FallThrough => Returns (appendRune d r)
    end.

Fixpoint feed (d : decoder) (rs : list rune) : outcome decoder :=
  match rs with
  | [] => Returns d
  | r :: rest =>
      match plainStep d r with
      | Panics => Panics
      | Returns d' => feed d' rest
      end
  end.

(** The variables after a run of runes that are all appended. *)
Definition appendRunes (d : decoder) (rs : list rune) : decoder :=
  mkDecoder (drev d) (buf d ++ rs) (last rs (r0 d)) (inBlock d).

(** The test of a line inside the block goes past a buffer [b]: [b] holds
    no colon, or the six runes before its first colon are not [Author] and
    the eight before it are not [Revision] (and there are eight). *)
Definition colonIgnored (b : list rune) : bool :=
  let pos := indexColon b in
  (pos <? 0)
  || match slice b (pos - 6) pos, slice b (pos - 8) pos with
     | Some s6, Some s8 =>
         negb (String.eqb (string_of_runes s6) "Author")
         && negb (String.eqb (string_of_runes s8) "Revision")
     | _, _ => false
     end.

(** No two line feeds in a row. *)
Fixpoint noBlankLine (prev : rune) (rs : list rune) : Prop :=
  match rs with
  | [] => True
  | r :: rest => ~ (prev = newline /\ r = newline) /\ noBlankLine r rest
  end.

(** The revisions whose textual form is read back as it was written.
    - The ID is valid.
    - The author is valid UTF-8 on one line, has no white space around it
      and holds no star; it does not end with a slash when there is no
      comment (the closing of the block follows it at once).
    - The comment is valid UTF-8 and holds no star; its first colon, if it
      has one, comes after seven runes or more, of which the last six are
      not [Author] and the last eight not [Revision]; when the comment is
      not empty it is one paragraph: it neither begins nor ends with a line
      feed and holds no blank line.
    - The SQL is valid UTF-8 and holds no star. *)
Record plainRevision (r : Revision) : Prop := {
  plain_ID : validID (ID r) = true;
  plain_Author_utf8 : validUTF8 (Author r);
  plain_Author_trimmed : strings.TrimSpace (Author r) = Author r;
  plain_Author_star : ~ In star (utf8.runes (Author r));
  plain_Author_line : ~ In newline (utf8.runes (Author r));
  plain_Author_slash :
    Comment r = "" -> last (utf8.runes (Author r)) 0 <> slash;
  plain_Comment_utf8 : validUTF8 (Comment r);
  plain_Comment_star : ~ In star (utf8.runes (Comment r));
  plain_Comment_colon :
    colonIgnored (newline :: utf8.runes (Comment r)) = true;
  plain_Comment_paragraph :
    Comment r <> "" ->
    noBlankLine newline (utf8.runes (Comment r) ++ [newline]);
  plain_SQL_utf8 : validUTF8 (SQL r);
  plain_SQL_star : ~ In star (utf8.runes (SQL r))
}.

(** A stream that holds [s] and ends with [io.EOF]. *)
Definition readerOf (s : string) : Reader := mkReader s None.

(** ** Sample revisions, for the scenarios of the specification *)
Module Sample.

Definition january : Revision :=
  mkRevision "20240101000000" "a" "first" "CREATE TABLE a(id INT);" None.
Definition february : Revision :=
  mkRevision "20240202000000" "b" "second" "CREATE TABLE b(id INT);" None.
Definition march : Revision :=
  mkRevision "20240303120000" "c" "third" "CREATE TABLE c(id INT);" None.
Definition failing : Revision :=
  mkRevision "20240315000000" "f" "rejected by the database" "FAIL" None.
Definition april : Revision :=
  mkRevision "20240404000000" "d" "fourth" "CREATE TABLE d(id INT);" None.
Definition bogus : Revision :=
  mkRevision "bogus" "x" "" "DROP TABLE a;" None.
Definition unnamed : Revision :=
  mkRevision "" "x" "" "DROP TABLE b;" None.
Definition noop : Revision :=
  mkRevision "20240101000000" "a" "nothing to do" "" None.

(** The revision of the first scenario of the specification. *)
Definition documented : Revision :=
  mkRevision "20240115093000" "A <a@x>" "hi" "CREATE TABLE t(id INT);" None.

(** A comment of two paragraphs. *)
Definition twoParagraphs : Revision :=
  mkRevision "20240115093000" "bob" ("a" ++ LF ++ LF ++ "b")%string
             "SELECT 1" None.

(** A comment of two lines, shorter than 72 bytes. *)
Definition twoLines : Revision :=
  mkRevision "20240115093000" "bob" ("hello" ++ LF ++ "world")%string
             "SELECT 1" None.

(** A comment of 80 bytes whose first line has ten. *)
Definition longComment : Revision :=
  mkRevision "20240115093000" "bob"
    ("Add tables" ++ LF
     ++ "123456789012345678901234567890123456789012345678901234567890123456789")%string
    "SELECT 1" None.

(** A comment with a colon far enough from its beginning. *)
Definition withColon : Revision :=
  mkRevision "20240115093000" "bob" "This adds: a table" "SELECT 1" None.

(** A block whose first line has its colon after one letter. *)
Definition shortKey : string := ("/*" ++ LF ++ "A:" ++ LF)%string.



(** The database once [january] has been performed against the empty one. *)
Definition afterJanuary : MemDB.t :=
  MemDB.mk ["20240101000000"] ["CREATE TABLE a(id INT);"] 1700000001.

End Sample.

(** ** What the collection keeps

    The order of a search tree: the values of the left subtree are smaller
    than the value of the node, those of the right subtree are not. *)
Fixpoint searchTree (n : node) : Prop :=
  match n with
  | nilNode => True
  | mkNode nval _ nleft nright =>
      Forall (fun x => fst x < nval) (inorder nleft)
      /\ Forall (fun x => nval <= fst x) (inorder nright)
      /\ searchTree nleft /\ searchTree nright
  end.

(** A collection as [Put] leaves it: its tree is a search tree, the value
    of each node is the Unix time of the ID of its revision, and [len] is
    the number of the nodes. *)
Definition wellFormed (c : Collection) : Prop :=
  searchTree (root c)
  /\ Forall (fun x => fst x = unixOf (snd x)) (inorder (root c))
  /\ len c = Z.of_nat (List.length (inorder (root c))).

(** The revisions of a list whose ID stands for the Unix time [t]. *)
Definition atTime (t : Z) (r : Revision) : bool :=
  validRevision r && (unixOf r =? t).

(** ** The text of an error

    The method [Error] of each error of the package: the two sentinels
    ([errors.New]), [RevisionError.Error] and [Errors.Error], which writes
    each error of the slice followed by a line feed. The text of an error of
    the driver is its message. *)
Fixpoint Error (e : error) : string :=
  match e with
  | ErrInvalid => "revision id invalid"
  | ErrPerformed => "revision performed"
  | DriverError msg => msg
  | RevisionError id err => ("revision error " ++ id ++ ": " ++ Error err)%string
  | Errors errs =>
      (fix each (l : list error) : string :=
         match l with
         | [] => ""
         | err :: l' => ((Error err ++ LF) ++ each l')%string
         end) errs
  end.

(** A revision that [Perform] does not skip: its SQL is not empty. *)
Definition hasSQL (r : Revision) : bool := negb (String.eqb (SQL r) "").

(** ** The calls made to the database

    A call of one of the three operations of the world, with its answer. *)
Inductive call : Type :=
| QueryRowScanCall (q : string) (answer : string + Z)
| ExecCall (q : string) (answer : option string)
| NowUnixCall (answer : Z).

(** A world that keeps, beside the state of another, the log of the calls
    made to it: each operation is the one of the world underneath. *)
Module Logged.

Section Logged.

Context {W : Type} `{World W}.

Definition queryRowScan (db : W * list call) (q : string)
  : (W * list call) * (string + Z) :=
  let (db1, a) := QueryRowScan (fst db) q in
  ((db1, snd db ++ [QueryRowScanCall q a]), a).

Definition exec (db : W * list call) (q : string)
  : (W * list call) * option string :=
  let (db1, a) := Exec (fst db) q in
  ((db1, snd db ++ [ExecCall q a]), a).

Definition nowUnix (db : W * list call) : (W * list call) * Z :=
  let (db1, a) := NowUnix (fst db) in
  ((db1, snd db ++ [NowUnixCall a]), a).

End Logged.

End Logged.

#[global] Instance logged_world {W : Type} `{World W} : World (W * list call) := {
  QueryRowScan := Logged.queryRowScan;
  Exec := Logged.exec;
  NowUnix := Logged.nowUnix
}.

Section Calls.

Variable Quote : string -> string.

(** The calls of a [Perform] that executes and records its revision: the
    COUNT query, answered with no row counted, the SQL, the clock, and the
    INSERT, both statements accepted. *)
Definition performedCalls (r : Revision) (n now : Z) : list call :=
  [QueryRowScanCall (countQuery (ID r)) (inr n);
   ExecCall (SQL r) None;
   NowUnixCall now;
   ExecCall (insertQuery Quote r now) None].

(** The calls of one [Perform] and the result they end with. *)
Inductive PerformCalls (r : Revision) : list call -> option error -> Prop :=
| calls_no_SQL :
    SQL r = "" -> PerformCalls r [] None
| calls_invalid_ID :
    SQL r <> "" -> validID (ID r) = false ->
    PerformCalls r [] (Some ErrInvalid)
| calls_query_failed msg :
    SQL r <> "" -> validID (ID r) = true ->
    PerformCalls r [QueryRowScanCall (countQuery (ID r)) (inl msg)]
                 (Some (RevisionError (ID r) (DriverError msg)))
| calls_already_performed n :
    SQL r <> "" -> validID (ID r) = true -> 0 < n ->
    PerformCalls r [QueryRowScanCall (countQuery (ID r)) (inr n)]
                 (Some (RevisionError (ID r) ErrPerformed))
| calls_SQL_failed n msg :
    SQL r <> "" -> validID (ID r) = true -> n <= 0 ->
    PerformCalls r [QueryRowScanCall (countQuery (ID r)) (inr n);
                    ExecCall (SQL r) (Some msg)]
                 (Some (DriverError msg))
| calls_insert_failed n now msg :
    SQL r <> "" -> validID (ID r) = true -> n <= 0 ->
    PerformCalls r [QueryRowScanCall (countQuery (ID r)) (inr n);
                    ExecCall (SQL r) None;
                    NowUnixCall now;
                    ExecCall (insertQuery Quote r now) (Some msg)]
                 (Some (DriverError msg))
| calls_performed n now :
    SQL r <> "" -> validID (ID r) = true -> n <= 0 ->
    PerformCalls r (performedCalls r n now) None.

End Calls.

(** A revision whose ID, author and comment have no white space around
    them and that has not been performed. *)
Definition trimmedRevision (rev : Revision) : Prop :=
  strings.TrimSpace (ID rev) = ID rev
  /\ strings.TrimSpace (Author rev) = Author rev
  /\ strings.TrimSpace (Comment rev) = Comment rev
  /\ PerformedAt rev = None.

(** ** New revisions

    The wall clock: [time.Now()], as the date and the clock it shows. *)
Class Clock (W : Type) : Type := {
  Now : W -> W * time.Time
}.

(** [NewRevision]: the ID is the time of the call in the layout of the
    IDs; no SQL yet. *)
Definition NewRevision {W : Type} `{Clock W} (w : W) (author comment : string)
  : W * Revision :=
  let (w1, t) := Now w in
  (w1, mkRevision (time.Format t) author comment "" None).

(** A clock that has stopped: it shows the time that is its state. *)
#[global] Instance stopped_clock : Clock time.Time := {
  Now := fun t => (t, t)
}.

(** ** The revisions performed

    A row of [mgrt_revisions] as [GetRevisions] scans it: id, author,
    comment, sql, and the seconds of performed_at. *)
Definition row : Type := (string * string * string * string * Z)%type.

(** The result set of [db.Query]: for each row in turn, what [rows.Scan]
    yields (the row, or an error); and the error the iteration ends with,
    if it does ([rows.Err]). *)
Record Rows : Type := mkRows {
  scans : list (string + row);
  rowsErr : option string
}.

Class Querier (W : Type) : Type := {
  Query : W -> string -> W * (string + Rows)
}.

(** The revision made of a row: [PerformedAt] is [time.Unix(sec, 0)]. *)
Definition revisionOfRow (x : row) : Revision :=
  let '(id, author, comment, sql, sec) := x in
  mkRevision id author comment sql (Some sec).

(** The loop [for rows.Next()] of [GetRevisions], then the test of
    [rows.Err()]. *)
Fixpoint scanRows (l : list (string + row)) (final : option string)
                  (revs : list Revision) : list Revision + error :=
  match l with
  | [] =>
      match final with
      | Some err => inr (DriverError err)
      | None => inl revs
      end
  | inl err :: _ => inr (DriverError err)
  | inr x :: rest => scanRows rest final (revs ++ [revisionOfRow x])
  end.

Section Performed.

Context {W : Type} `{World W} `{Querier W}.

(** [GetRevisions]: the revisions or the error it returns, and the world
    afterwards. The count sizes the slice only; [make] panics when it is
    negative (as in [Slice], the memory asked for is taken to be there). *)
Definition GetRevisions (db : W) : outcome (W * (list Revision + error)) :=
  match QueryRowScan db "SELECT COUNT(id) FROM mgrt_revisions" with
  | (db1, inl err) => Returns (db1, inr (DriverError err))
  | (db1, inr count) =>
      if count <? 0 then Panics
      else
        match Query db1 "SELECT id, author, comment, sql, performed_at FROM mgrt_revisions ORDER BY performed_at DESC" with
        | (db2, inl err) => Returns (db2, inr (DriverError err))
        | (db2, inr rows) =>
            Returns (db2, scanRows (scans rows) (rowsErr rows) [])
        end
  end.

End Performed.

(** The rune that is written for [r]: [r] itself, or [RuneError] for a
    rune out of range or a surrogate half. *)
Definition writtenRune (r : rune) : rune :=
  if (r <? 0) || (utf8.MaxRune <? r) || ((55296 <=? r) && (r <=? 57343))
  then utf8.RuneError else r.

(** ** Tactics

    Two runes that differ; a literal is not empty; a rune is not in a
    literal. *)
Ltac rune_neq := let H := fresh in intros H; cbv in H; discriminate H.

Ltac lit_nonempty := cbn [lit list_ascii_of_string map app]; discriminate.

Ltac not_in_lit :=
  let H := fresh in
  intros H; cbv in H;
  repeat (destruct H as [H|H]; [discriminate H|]); exact H.


(** * Verification *)

Example parse_reference_time : time.ParseUnix "20060102150405" = Some 1136214245.
Proof. reflexivity. Qed.

Example parse_epoch : time.ParseUnix "19700101000000" = Some 0.
Proof. reflexivity. Qed.

Example parse_leap_day :
  time.ParseUnix "20240229120000" = Some 1709208000
  /\ time.ParseUnix "20230229120000" = None.
Proof. split; reflexivity. Qed.

Example parse_fraction : time.ParseUnix "20060102150405.25" = Some 1136214245.
Proof. reflexivity. Qed.

Example parse_rejects_iso : time.ParseUnix "2006-01-02T15:04:05" = None.
Proof. reflexivity. Qed.

(** ** The ordered collection *)

Lemma Put_invalid c r :
  validRevision r = false -> Put c r = (c, Some ErrInvalid).
Proof.
  unfold validRevision, validID, Put. intros Hv.
  destruct (String.eqb (ID r) ""); [reflexivity|].
  destruct (time.ParseUnix (ID r)); [discriminate|reflexivity].
Qed.

Lemma Put_valid c r :
  validRevision r = true ->
  Put c r = (mkCollection (wrap_int (len c + 1))
                          (insertNode (root c) (unixOf r) r), None).
Proof.
  unfold validRevision, validID, Put, unixOf. intros Hv.
  destruct (String.eqb (ID r) "") eqn:He.
  - apply String.eqb_eq in He. rewrite He in Hv. discriminate.
  - destruct (time.ParseUnix (ID r)); [reflexivity|discriminate].
Qed.

Lemma insertNode_not_nil n v r : insertNode n v r <> nilNode.
Proof. destruct n; simpl; [|destruct (v <? val)]; discriminate. Qed.

Lemma walk_inorder n :
  forall revs, n <> nilNode ->
  walk n revs = Returns (revs ++ map snd (inorder n)).
Proof.
  induction n as [|v r l IHl rt IHr]; intros revs Hn; [congruence|].
  cbn [walk inorder].
  assert (Hl : match l with
               | nilNode => Returns revs
               | mkNode _ _ _ _ => walk l revs
               end = Returns (revs ++ map snd (inorder l))).
  { destruct l; [simpl; now rewrite app_nil_r|]. apply IHl. discriminate. }
  rewrite Hl.
  rewrite map_app. cbn [map snd].
  destruct rt.
  - simpl. now rewrite <- app_assoc.
  - rewrite IHr by discriminate.
    f_equal. rewrite <- !app_assoc. reflexivity.
Qed.

Lemma insertSorted_app_left x l y l' :
  fst x < fst y ->
  insertSorted x (l ++ y :: l') = insertSorted x l ++ y :: l'.
Proof.
  intros Hlt. induction l as [|a l IH]; simpl.
  - apply Z.ltb_lt in Hlt. now rewrite Hlt.
  - destruct (fst x <? fst a); [reflexivity|]. now rewrite IH.
Qed.

Lemma insertSorted_app_right x l l' :
  Forall (fun a => fst a <= fst x) l ->
  insertSorted x (l ++ l') = l ++ insertSorted x l'.
Proof.
  induction 1 as [|a l Ha _ IH]; simpl; [reflexivity|].
  apply Z.ltb_ge in Ha. now rewrite Ha, IH.
Qed.

Lemma insertSorted_perm x l : Permutation (x :: l) (insertSorted x l).
Proof.
  induction l as [|a l IH]; simpl; [reflexivity|].
  destruct (fst x <? fst a); [reflexivity|].
  rewrite perm_swap. now constructor.
Qed.

Lemma insertSorted_sorted x l :
  StronglySorted keyLe l -> StronglySorted keyLe (insertSorted x l).
Proof.
  induction 1 as [|a l Hs IH Ha]; simpl.
  - repeat constructor.
  - destruct (fst x <? fst a) eqn:Hlt.
    + apply Z.ltb_lt in Hlt. constructor; [now constructor|].
      constructor; [unfold keyLe; lia|].
      eapply Forall_impl; [|exact Ha]. unfold keyLe. intros; lia.
    + apply Z.ltb_ge in Hlt. constructor; [exact IH|].
      eapply Permutation_Forall; [apply insertSorted_perm|].
      constructor; [exact Hlt|exact Ha].
Qed.

Lemma sorted_app_inv (l : list keyed) y l' :
  StronglySorted keyLe (l ++ y :: l') ->
  StronglySorted keyLe l /\ StronglySorted keyLe l'
  /\ Forall (fun a => fst a <= fst y) l.
Proof.
  induction l as [|a l IH]; simpl; intros Hs.
  - inversion Hs; subst. repeat split; [constructor|assumption|constructor].
  - inversion Hs as [|? ? Hs' Ha]; subst.
    destruct (IH Hs') as (H1 & H2 & H3).
    repeat split; [|assumption|].
    + constructor; [assumption|].
      apply Forall_app in Ha. tauto.
    + constructor; [|assumption].
      apply Forall_app in Ha. destruct Ha as [_ Ha].
      inversion Ha; subst. assumption.
Qed.

(** Insertion into the tree is insertion into the sorted list of its nodes. *)
Lemma inorder_insertNode n v r :
  StronglySorted keyLe (inorder n) ->
  inorder (insertNode n v r) = insertSorted (v, r) (inorder n).
Proof.
  induction n as [|nv nr l IHl rt IHr]; intros Hs; [reflexivity|].
  cbn [insertNode inorder] in *.
  destruct (sorted_app_inv _ _ _ Hs) as (Hl & Hr & Hle).
  destruct (v <? nv) eqn:Hlt; cbn [inorder].
  - rewrite IHl by assumption.
    rewrite insertSorted_app_left; [reflexivity|].
    apply Z.ltb_lt in Hlt. exact Hlt.
  - apply Z.ltb_ge in Hlt.
    rewrite IHr by assumption.
    change (inorder l ++ (nv, nr) :: inorder rt)
      with (inorder l ++ [(nv, nr)] ++ inorder rt).
    rewrite app_assoc, insertSorted_app_right; [now rewrite <- app_assoc|].
    apply Forall_app. split.
    + eapply Forall_impl; [|exact Hle]. simpl. intros; lia.
    + constructor; [exact Hlt|constructor].
Qed.

Lemma putAll_from revs :
  forall c, StronglySorted keyLe (inorder (root c)) ->
  let c' := fold_left (fun c rev => fst (Put c rev)) revs c in
  inorder (root c')
  = fold_left (fun acc r => insertSorted (unixOf r, r) acc)
              (filter validRevision revs) (inorder (root c))
  /\ StronglySorted keyLe (inorder (root c')).
Proof.
  induction revs as [|r revs IH]; intros c Hs; cbn [fold_left filter].
  - split; [reflexivity|assumption].
  - destruct (validRevision r) eqn:Hv.
    + rewrite (Put_valid _ _ Hv). cbn [fst fold_left].
      pose proof (inorder_insertNode (root c) (unixOf r) r Hs) as Hi.
      specialize (IH (mkCollection (wrap_int (len c + 1))
                                   (insertNode (root c) (unixOf r) r))).
      cbn [root] in IH. rewrite Hi in IH.
      apply IH. now apply insertSorted_sorted.
    + rewrite (Put_invalid _ _ Hv). cbn [fst]. now apply IH.
Qed.

Lemma inorder_putAll revs :
  inorder (root (putAll revs)) = sortRevisions revs.
Proof.
  unfold putAll, sortRevisions.
  apply (putAll_from revs emptyCollection). constructor.
Qed.

Lemma fold_insertSorted_perm (l : list Revision) :
  forall acc,
  Permutation (fold_left (fun acc r => insertSorted (unixOf r, r) acc) l acc)
              (acc ++ map (fun r => (unixOf r, r)) l).
Proof.
  induction l as [|r l IH]; intros acc; cbn [fold_left map].
  - now rewrite app_nil_r.
  - rewrite IH. rewrite <- insertSorted_perm.
    change ((unixOf r, r) :: acc) with ([(unixOf r, r)] ++ acc).
    rewrite <- Permutation_middle. reflexivity.
Qed.

Lemma fold_insertSorted_sorted (l : list Revision) :
  forall acc, StronglySorted keyLe acc ->
  StronglySorted keyLe
    (fold_left (fun acc r => insertSorted (unixOf r, r) acc) l acc).
Proof.
  induction l as [|r l IH]; intros acc Hs; cbn [fold_left]; [assumption|].
  apply IH. now apply insertSorted_sorted.
Qed.

Lemma fold_insertSorted_key (l : list Revision) :
  forall acc, Forall (fun x => fst x = unixOf (snd x)) acc ->
  Forall (fun x => fst x = unixOf (snd x))
    (fold_left (fun acc r => insertSorted (unixOf r, r) acc) l acc).
Proof.
  intros acc Hacc.
  eapply Permutation_Forall; [symmetry; apply fold_insertSorted_perm|].
  apply Forall_app. split; [assumption|].
  apply Forall_forall. intros x Hx. apply in_map_iff in Hx.
  destruct Hx as (r & <- & _). reflexivity.
Qed.

Lemma sortRevisions_perm revs :
  Permutation (map snd (sortRevisions revs)) (filter validRevision revs).
Proof.
  unfold sortRevisions.
  rewrite (fold_insertSorted_perm (filter validRevision revs) []).
  cbn [app]. rewrite map_map. cbn [snd]. now rewrite map_id.
Qed.

Lemma sortRevisions_sorted revs : StronglySorted keyLe (sortRevisions revs).
Proof. apply fold_insertSorted_sorted. constructor. Qed.

Lemma sortRevisions_key revs :
  Forall (fun x => fst x = unixOf (snd x)) (sortRevisions revs).
Proof. apply fold_insertSorted_key. constructor. Qed.

Lemma Slice_inorder c :
  0 <= len c ->
  Slice c = match inorder (root c) with
            | [] => Panics
            | _ :: _ => Returns (map snd (inorder (root c)))
            end.
Proof.
  intros Hlen. unfold Slice. apply Z.ltb_ge in Hlen. rewrite Hlen.
  destruct (root c) as [|v r l rt] eqn:Hroot; [reflexivity|].
  rewrite walk_inorder by discriminate. cbn [app inorder].
  destruct (inorder l); reflexivity.
Qed.

Lemma len_putAll_from revs :
  forall c, 0 <= len c ->
  len c + Z.of_nat (List.length (filter validRevision revs)) < 2 ^ 63 ->
  len (fold_left (fun c rev => fst (Put c rev)) revs c)
  = len c + Z.of_nat (List.length (filter validRevision revs)).
Proof.
  change (2 ^ 63) with 9223372036854775808.
  induction revs as [|r revs IH]; intros c H0 Hb; cbn [fold_left filter] in *.
  - simpl. lia.
  - destruct (validRevision r) eqn:Hv.
    + rewrite (Put_valid _ _ Hv). cbn [fst].
      cbn [List.length] in Hb. rewrite Nat2Z.inj_succ in Hb.
      assert (Hw : wrap_int (len c + 1) = len c + 1).
      { unfold wrap_int.
        change (2 ^ 63) with 9223372036854775808.
        change (2 ^ 64) with 18446744073709551616.
        rewrite Z.mod_small; lia. }
      cbn [List.length]. rewrite Nat2Z.inj_succ.
      rewrite IH; cbn [len]; rewrite Hw; lia.
    + rewrite (Put_invalid _ _ Hv). cbn [fst]. now apply IH.
Qed.

Lemma len_putAll revs :
  Z.of_nat (List.length revs) < 2 ^ 63 ->
  len (putAll revs) = Z.of_nat (List.length (filter validRevision revs)).
Proof.
  intros Hb. unfold putAll.
  pose proof (filter_length_le validRevision revs) as Hle.
  rewrite len_putAll_from; cbn [len emptyCollection]; lia.
Qed.

(** The slice of a collection built by [Put] is the stable sort of the
    revisions [Put] accepted, and [Slice] panics when there is none. *)
Lemma Slice_putAll revs :
  Z.of_nat (List.length revs) < 2 ^ 63 ->
  Slice (putAll revs)
  = match filter validRevision revs with
    | [] => Panics
    | _ :: _ => Returns (map snd (sortRevisions revs))
    end.
Proof.
  intros Hb.
  rewrite Slice_inorder by (rewrite len_putAll by exact Hb; lia).
  rewrite inorder_putAll.
  pose proof (Permutation_length (sortRevisions_perm revs)) as Hlen.
  rewrite length_map in Hlen.
  destruct (sortRevisions revs), (filter validRevision revs);
    try reflexivity; discriminate.
Qed.

(** Revisions in ascending order of the Unix time of their IDs. *)
Lemma sorted_by_unix revs :
  StronglySorted (fun a b => unixOf a <= unixOf b)
                 (map snd (sortRevisions revs)).
Proof.
  pose proof (sortRevisions_sorted revs) as Hs.
  pose proof (sortRevisions_key revs) as Hk.
  induction Hs as [|x l Hs IH Hx]; cbn [map]; [constructor|].
  inversion Hk as [|? ? Hkx Hkl]; subst.
  constructor; [now apply IH|].
  apply Forall_forall. intros b Hb. apply in_map_iff in Hb.
  destruct Hb as (y & <- & Hy).
  rewrite Forall_forall in Hx, Hkl.
  specialize (Hx y Hy). specialize (Hkl y Hy). unfold keyLe in Hx. lia.
Qed.


Lemma putAll_filter_from revs :
  forall c,
  fold_left (fun c rev => fst (Put c rev)) revs c
  = fold_left (fun c rev => fst (Put c rev)) (filter validRevision revs) c.
Proof.
  induction revs as [|r revs IH]; intros c; cbn [filter fold_left]; [reflexivity|].
  destruct (validRevision r) eqn:Hv; cbn [fold_left].
  - apply IH.
  - rewrite (Put_invalid _ _ Hv). cbn [fst]. apply IH.
Qed.

Lemma filter_valid_nil revs :
  Forall (fun r => validRevision r = false) revs ->
  filter validRevision revs = [].
Proof.
  induction 1 as [|r revs Hr _ IH]; cbn [filter]; [reflexivity|].
  now rewrite Hr.
Qed.

(** ** The execution engine *)

Section EngineFacts.

Context {W : Type} `{World W}.
Variable Quote : string -> string.

Lemma errors_Is_ErrPerformed_spec e :
  errors_Is_ErrPerformed e = true <-> WrapsErrPerformed e.
Proof.
  split.
  - induction e; simpl; intros He; try discriminate.
    + constructor.
    + eapply wraps_unwrap; [reflexivity|]. auto.
  - induction 1 as [|e e' Hu _ IH]; [reflexivity|].
    destruct e; simpl in Hu; try discriminate.
    injection Hu as ->. exact IH.
Qed.

Lemma performLoop_Batch revs :
  forall db errs,
  Batch Quote db revs errs
        (fst (performLoop Quote db revs errs))
        (snd (performLoop Quote db revs errs)).
Proof.
  induction revs as [|r rest IH]; intros db errs; cbn [performLoop].
  - destruct errs; simpl; constructor.
  - destruct (Perform Quote db r) as [db1 [e|]] eqn:Hp.
    + destruct (errors_Is_ErrPerformed e) eqn:He.
      * eapply batch_continue; [exact Hp| |apply IH].
        now apply errors_Is_ErrPerformed_spec.
      * cbn [fst snd]. eapply batch_abort; [exact Hp|].
        intros Hw. apply errors_Is_ErrPerformed_spec in Hw. congruence.
    + eapply batch_success; [exact Hp|apply IH].
Qed.

(** The protocol leaves no choice: a batch has one result. *)
Lemma Batch_deterministic db revs errs db1 res1 db2 res2 :
  Batch Quote db revs errs db1 res1 ->
  Batch Quote db revs errs db2 res2 ->
  db1 = db2 /\ res1 = res2.
Proof.
  intros Hb1. revert db2 res2.
  induction Hb1 as [d|d e0 errs0|d r rest errs0 d1 d' res Hp _ IH
                   |d r rest errs0 e0 d1 d' res Hp Hw _ IH
                   |d r rest errs0 e0 d1 Hp Hn];
    intros db2 res2 Hb2; inversion Hb2; subst;
    repeat match goal with
    | Ha : Perform _ _ _ = _, Hb : Perform _ _ _ = _ |- _ =>
        rewrite Ha in Hb; inversion Hb; subst; clear Hb
    end;
    try (split; reflexivity); try contradiction; try (now apply IH).
Qed.

End EngineFacts.

Section EngineClaims.

Context {W : Type} `{World W}.
Variable Quote : string -> string.

(** C6. A revision with empty SQL is a no-op: [Perform] returns nil at once
    and the world (the database with its tracking table, and the clock) is
    the one it was given, whatever the ID is and whether or not it is
    recorded. *)
Theorem Perform_empty_SQL_is_noop
  (db : W) (id author comment : string) (performedAt : option Z) :
  Perform Quote db (mkRevision id author comment "" performedAt) = (db, None).
Proof. unfold Perform. cbn [SQL]. reflexivity. Qed.

(** C1, as amended. For a revision with non-empty SQL, against a database
    in which a successful INSERT into the tracking table makes the COUNT
    for that ID positive: when [Perform] returns nil, the next [Perform]
    against the resulting database returns a [RevisionError] whose [Unwrap]
    is [ErrPerformed]; the world it leaves is the one the COUNT query left,
    so neither the SQL nor the INSERT was executed again. *)
Theorem Perform_twice_ErrPerformed (db db1 : W) (r : Revision) :
  SQL r <> "" ->
  (forall d now d',
      Exec d (insertQuery Quote r now) = (d', None) ->
      exists n, snd (QueryRowScan d' (countQuery (ID r))) = inr n /\ 0 < n) ->
  Perform Quote db r = (db1, None) ->
  Perform Quote db1 r
  = (fst (QueryRowScan db1 (countQuery (ID r))),
     Some (RevisionError (ID r) ErrPerformed))
  /\ Unwrap (RevisionError (ID r) ErrPerformed) = Some ErrPerformed.
Proof.
  intros Hsql Hrec Hp. split; [|reflexivity].
  apply String.eqb_neq in Hsql.
  unfold Perform in *. rewrite Hsql in *.
  unfold RevisionPerformed in *.
  destruct (time.ParseUnix (ID r)) as [t|]; [|discriminate].
  destruct (QueryRowScan db (countQuery (ID r))) as [d1 [err|count]];
    [discriminate|].
  destruct (0 <? count); [discriminate|].
  destruct (Exec d1 (SQL r)) as [d2 [err|]]; [discriminate|].
  destruct (NowUnix d2) as [d3 now].
  destruct (Exec d3 (insertQuery Quote r now)) as [d4 [err|]] eqn:Hins;
    [discriminate|].
  injection Hp as ->.
  destruct (Hrec _ _ _ Hins) as (n & Hq & Hn).
  destruct (QueryRowScan db1 (countQuery (ID r))) as [d5 res].
  cbn [snd fst] in *. subst res.
  apply Z.ltb_lt in Hn. now rewrite Hn.
Qed.

(** X2, what holds of C3. For every list of revisions (of fewer than 2^63,
    as in every slice) of which [Put] accepts at least one: [PerformRevisions] iterates over the accepted revisions in ascending
    order of the Unix time of their IDs, and its result is the one of the
    batch protocol: an error that is or wraps [ErrPerformed] is appended to
    the aggregate and the iteration continues, any other error is returned
    as it is from the world its revision left, and an empty aggregate is
    returned as nil. *)
Theorem PerformRevisions_batch (db : W) (revs0 : list Revision) :
  Z.of_nat (List.length revs0) < 2 ^ 63 ->
  (exists r, In r revs0 /\ validRevision r = true) ->
  exists revs db' res,
    Slice (putAll revs0) = Returns revs
    /\ Permutation revs (filter validRevision revs0)
    /\ StronglySorted (fun a b => unixOf a <= unixOf b) revs
    /\ PerformRevisions Quote db revs0 = Returns (db', res)
    /\ Batch Quote db revs [] db' res.
Proof.
  intros Hb (r & Hin & Hv).
  pose proof (Slice_putAll revs0 Hb) as Hs.
  assert (Hne : filter validRevision revs0 <> []).
  { intros Hnil. assert (Hf : In r (filter validRevision revs0))
      by (apply filter_In; auto).
    rewrite Hnil in Hf. contradiction. }
  destruct (filter validRevision revs0) as [|x l] eqn:Hf; [congruence|].
  exists (map snd (sortRevisions revs0)).
  exists (fst (performLoop Quote db (map snd (sortRevisions revs0)) [])).
  exists (snd (performLoop Quote db (map snd (sortRevisions revs0)) [])).
  repeat split.
  - exact Hs.
  - rewrite <- Hf. apply sortRevisions_perm.
  - apply sorted_by_unix.
  - unfold PerformRevisions. rewrite Hs. now rewrite <- surjective_pairing.
  - apply performLoop_Batch.
Qed.

(** C9. [Slice] on an empty collection panics (the nil root is
    dereferenced), so [PerformRevisions] panics when it is given no
    revision, and when every revision it is given has an empty or
    unparseable ID. *)
Theorem PerformRevisions_panics_without_valid_revision
  (db : W) (revs0 : list Revision) :
  Forall (fun r => validRevision r = false) revs0 ->
  Slice emptyCollection = Panics
  /\ PerformRevisions Quote db [] = Panics
  /\ PerformRevisions Quote db revs0 = Panics.
Proof.
  intros Hall. repeat split; try reflexivity.
  unfold PerformRevisions, putAll.
  rewrite (putAll_filter_from revs0 emptyCollection), (filter_valid_nil _ Hall).
  reflexivity.
Qed.

(** C10. [PerformRevisions] drops the error of [Put]: for a revision whose
    ID is empty or does not parse, [Put] returns [ErrInvalid] and leaves the
    collection as it was, and the outcome of the batch (result and world) is
    the one of the batch without these revisions. *)
Theorem PerformRevisions_drops_invalid (db : W) (revs0 : list Revision) :
  PerformRevisions Quote db revs0
  = PerformRevisions Quote db (filter validRevision revs0)
  /\ Forall (fun r => forall c, Put c r = (c, Some ErrInvalid))
            (filter (fun r => negb (validRevision r)) revs0).
Proof.
  split.
  - unfold PerformRevisions, putAll.
    now rewrite (putAll_filter_from revs0 emptyCollection).
  - apply Forall_forall. intros r Hr c. apply filter_In in Hr.
    destruct Hr as [_ Hr]. apply Put_invalid.
    now destruct (validRevision r).
Qed.

End EngineClaims.

(** C4, at its failing input. With no [Put] at all the collection is the
    empty one: [Len] is 0 and [Slice] panics instead of returning the empty
    slice. *)
Theorem Slice_without_Put_panics :
  Len (putAll []) = 0 /\ Slice (putAll []) = Panics.
Proof. split; reflexivity. Qed.

(** X1, what holds of C4. For a non-empty list of valid revisions the
    collection does what it is for: [Slice] returns them all in ascending order of the Unix time of
    their IDs, revisions of equal time in the order of their insertion, and
    [Len] is their number. *)
Theorem Slice_sorted_Len (revs : list Revision) :
  revs <> [] ->
  Forall (fun r => validRevision r = true) revs ->
  Z.of_nat (List.length revs) < 2 ^ 63 ->
  exists l,
    Slice (putAll revs) = Returns l
    /\ Permutation l revs
    /\ StronglySorted (fun a b => unixOf a <= unixOf b) l
    /\ Len (putAll revs) = Z.of_nat (List.length revs).
Proof.
  intros Hne Hall Hlen.
  assert (Hf : filter validRevision revs = revs).
  { clear Hne Hlen. induction Hall as [|r revs Hr _ IH]; cbn [filter];
      [reflexivity|]. now rewrite Hr, IH. }
  exists (map snd (sortRevisions revs)). repeat split.
  - rewrite Slice_putAll, Hf by exact Hlen.
    destruct revs; [congruence|reflexivity].
  - rewrite <- Hf at 2. apply sortRevisions_perm.
  - apply sorted_by_unix.
  - unfold Len. rewrite len_putAll, Hf by exact Hlen. reflexivity.
Qed.

(** *** The scenarios of the specification, in the database in memory *)

Example scenario_idempotence :
  Perform MemDB.quote MemDB.empty Sample.january = (Sample.afterJanuary, None)
  /\ Perform MemDB.quote Sample.afterJanuary Sample.january
     = (Sample.afterJanuary,
        Some (RevisionError "20240101000000" ErrPerformed)).
Proof. split; reflexivity. Qed.

Example scenario_batch_with_one_performed :
  PerformRevisions MemDB.quote Sample.afterJanuary
                   [Sample.february; Sample.january]
  = Returns
      (MemDB.mk ["20240202000000"; "20240101000000"]
                ["CREATE TABLE a(id INT);"; "CREATE TABLE b(id INT);"]
                1700000002,
       Some (Errors [RevisionError "20240101000000" ErrPerformed])).
Proof. reflexivity. Qed.

Example scenario_abort :
  PerformRevisions MemDB.quote MemDB.empty
                   [Sample.april; Sample.failing; Sample.january]
  = Returns
      (MemDB.mk ["20240101000000"] ["CREATE TABLE a(id INT);"] 1700000001,
       Some (DriverError "syntax error")).
Proof. reflexivity. Qed.

Example scenario_ordering :
  Slice (putAll [Sample.march; Sample.january; Sample.february])
  = Returns [Sample.january; Sample.february; Sample.march].
Proof. reflexivity. Qed.

Example scenario_invalid_ID_rejected :
  Put (putAll [Sample.march]) Sample.bogus
  = (putAll [Sample.march], Some ErrInvalid).
Proof. reflexivity. Qed.

(** C1 as stated fails on a revision with empty SQL: the first [Perform]
    returns nil, and so does the second. *)
Lemma Perform_twice_empty_SQL :
  validID (ID Sample.noop) = true
  /\ Perform MemDB.quote MemDB.empty Sample.noop = (MemDB.empty, None)
  /\ Perform MemDB.quote
       (fst (Perform MemDB.quote MemDB.empty Sample.noop)) Sample.noop
     = (MemDB.empty, None).
Proof. repeat split; reflexivity. Qed.

Lemma Perform_twice_ErrPerformed_witness :
  Perform MemDB.quote Sample.afterJanuary Sample.january
  = (fst (QueryRowScan Sample.afterJanuary (countQuery (ID Sample.january))),
     Some (RevisionError (ID Sample.january) ErrPerformed))
  /\ Unwrap (RevisionError (ID Sample.january) ErrPerformed) = Some ErrPerformed.
Proof.
  apply (Perform_twice_ErrPerformed MemDB.quote MemDB.empty).
  - discriminate.
  - intros d now d' Hex. cbn in Hex. injection Hex as <-.
    eexists. split; [reflexivity|]. cbn. lia.
  - reflexivity.
Defined.

Lemma PerformRevisions_batch_witness :
  exists revs db' res,
    Slice (putAll [Sample.april; Sample.bogus; Sample.february; Sample.january])
    = Returns revs
    /\ Permutation revs
         (filter validRevision
                 [Sample.april; Sample.bogus; Sample.february; Sample.january])
    /\ StronglySorted (fun a b => unixOf a <= unixOf b) revs
    /\ PerformRevisions MemDB.quote Sample.afterJanuary
         [Sample.april; Sample.bogus; Sample.february; Sample.january]
       = Returns (db', res)
    /\ Batch MemDB.quote Sample.afterJanuary revs [] db' res.
Proof.
  apply (PerformRevisions_batch MemDB.quote).
  - reflexivity.
  - exists Sample.april. split; [left; reflexivity|reflexivity].
Defined.

Lemma PerformRevisions_panics_witness :
  Slice emptyCollection = Panics
  /\ PerformRevisions MemDB.quote MemDB.empty [] = Panics
  /\ PerformRevisions MemDB.quote MemDB.empty [Sample.bogus; Sample.unnamed]
     = Panics.
Proof.
  apply (PerformRevisions_panics_without_valid_revision MemDB.quote).
  repeat constructor.
Defined.

Lemma Slice_sorted_Len_witness :
  exists l,
    Slice (putAll [Sample.march; Sample.january; Sample.february]) = Returns l
    /\ Permutation l [Sample.march; Sample.january; Sample.february]
    /\ StronglySorted (fun a b => unixOf a <= unixOf b) l
    /\ Len (putAll [Sample.march; Sample.january; Sample.february]) = 3.
Proof.
  apply (Slice_sorted_Len [Sample.march; Sample.january; Sample.february]).
  - discriminate.
  - repeat constructor.
  - reflexivity.
Defined.

(** ** The decoder *)

Lemma readRunes_plain fail d r rest :
  r <> star ->
  readRunes fail d (r :: rest)
  = match plainStep d r with
    | Panics => Panics
    | Returns d' => readRunes fail d' rest
    end.
Proof.
  intros Hr. apply Z.eqb_neq in Hr.
  cbn [readRunes]. unfold plainStep. rewrite Hr. cbn [andb].
  destruct ((r =? slash) && (r0 d =? star)); [reflexivity|].
  destruct (if inBlock d && (r =? newline) then blockLine d else FallThrough);
    reflexivity.
Qed.

Lemma readRunes_feed fail rs :
  forall d rest,
  ~ In star rs ->
  readRunes fail d (rs ++ rest)
  = match feed d rs with
    | Panics => Panics
    | Returns d' => readRunes fail d' rest
    end.
Proof.
  induction rs as [|r rs IH]; intros d rest Hs; [reflexivity|].
  cbn [app feed]. rewrite readRunes_plain by (intros ->; apply Hs; now left).
  destruct (plainStep d r) as [d'|]; [|reflexivity].
  apply IH. intros Hin. apply Hs. now right.
Qed.

(** The opening of a block. *)
Lemma readRunes_open fail d rest :
  r0 d = slash ->
  readRunes fail d (star :: rest)
  = readRunes fail (mkDecoder (drev d) (buf d) (r0 d) true) rest.
Proof. intros Hr. cbn [readRunes]. rewrite Hr. reflexivity. Qed.

(** The end of a block: the star is not appended, the buffer becomes the
    comment. *)
Lemma readRunes_close fail d rest :
  r0 d <> slash ->
  readRunes fail d (star :: slash :: rest)
  = readRunes fail
      (mkDecoder (setComment (drev d) (strings.TrimSpace (string_of_runes (buf d))))
                 [] star false) rest.
Proof.
  intros Hr. apply Z.eqb_neq in Hr.
  cbn [readRunes]. rewrite Hr.
  change (star =? star) with true. change (star =? slash) with false.
  change (star =? newline) with false. change (slash =? slash) with true.
  change (slash =? star) with false. change (slash =? newline) with false.
  rewrite !andb_false_r. cbn [andb r0]. reflexivity.
Qed.

Lemma last_cons_default {A : Type} (r : A) rs x : last (r :: rs) x = last rs r.
Proof.
  revert r x. induction rs as [|a rs IH]; intros r x; [reflexivity|].
  change (last (r :: a :: rs) x) with (last (a :: rs) x).
  rewrite (IH a x). symmetry. apply IH.
Qed.

Lemma appendRunes_cons d r rs :
  appendRunes (appendRune d r) rs = appendRunes d (r :: rs).
Proof.
  unfold appendRunes, appendRune. cbn [drev buf r0 inBlock].
  rewrite <- app_assoc, last_cons_default. reflexivity.
Qed.

Lemma plainStep_append d r :
  r0 d <> star \/ r <> slash ->
  inBlock d = false \/ r <> newline ->
  plainStep d r = Returns (appendRune d r).
Proof.
  intros Hs Hn. unfold plainStep.
  assert (H1 : (r =? slash) && (r0 d =? star) = false).
  { apply andb_false_iff. destruct Hs as [Hs|Hs]; [right|left];
      now apply Z.eqb_neq. }
  rewrite H1.
  destruct Hn as [Hb|Hn].
  - rewrite Hb. reflexivity.
  - apply Z.eqb_neq in Hn. rewrite Hn, andb_false_r. reflexivity.
Qed.

Lemma indexColon_none b : ~ In colon b -> indexColon b = -1.
Proof.
  induction b as [|r b IH]; intros Hn; [reflexivity|].
  cbn [indexColon].
  destruct (r =? colon) eqn:Hr.
  - apply Z.eqb_eq in Hr. exfalso. apply Hn. now left.
  - rewrite IH by (intros Hin; apply Hn; now right). reflexivity.
Qed.

Lemma indexColon_first b b' :
  ~ In colon b -> indexColon (b ++ colon :: b') = Z.of_nat (List.length b).
Proof.
  induction b as [|r b IH]; intros Hn.
  - reflexivity.
  - cbn [app indexColon List.length].
    destruct (r =? colon) eqn:Hr.
    + apply Z.eqb_eq in Hr. exfalso. apply Hn. now left.
    + rewrite IH by (intros Hin; apply Hn; now right).
      destruct (Z.of_nat (List.length b) <? 0) eqn:Hlt; [lia|lia].
Qed.

Lemma plainStep_newline_nocolon d :
  inBlock d = true ->
  r0 d <> star -> r0 d <> newline -> ~ In colon (buf d) ->
  plainStep d newline = Returns (appendRune d newline).
Proof.
  intros Hb Hs Hn Hc. unfold plainStep.
  apply Z.eqb_neq in Hs. rewrite Hs, andb_false_r.
  rewrite Hb. change (newline =? newline) with true. cbn [andb].
  unfold blockLine. apply Z.eqb_neq in Hn. rewrite Hn.
  rewrite (indexColon_none _ Hc). reflexivity.
Qed.

(** Outside a block, and inside one as long as no line ends, every rune
    other than the star is appended to the buffer. *)
Lemma feed_append rs :
  forall d,
  r0 d <> star -> ~ In star rs ->
  inBlock d = false \/ ~ In newline rs ->
  feed d rs = Returns (appendRunes d rs).
Proof.
  induction rs as [|r rs IH]; intros d Hs Hstar Hn.
  - unfold appendRunes. cbn [feed last]. rewrite app_nil_r. now destruct d.
  - cbn [feed]. rewrite plainStep_append.
    + rewrite <- appendRunes_cons. apply IH.
      * cbn [appendRune r0]. intros ->. apply Hstar. now left.
      * intros Hin. apply Hstar. now right.
      * destruct Hn as [Hb|Hn]; [left; exact Hb|].
        right. intros Hin. apply Hn. now right.
    + left. exact Hs.
    + destruct Hn as [Hb|Hn]; [left; exact Hb|].
      right. intros ->. apply Hn. now left.
Qed.

Lemma indexColon_range b : -1 <= indexColon b < Z.of_nat (List.length b).
Proof.
  induction b as [|r b IH]; cbn [indexColon List.length]; [lia|].
  destruct (r =? colon); [lia|].
  destruct (indexColon b <? 0) eqn:Hlt; lia.
Qed.

Lemma indexColon_app b x :
  indexColon b = -1 \/ indexColon (b ++ x) = indexColon b.
Proof.
  induction b as [|r b IH]; cbn [indexColon app]; [now left|].
  destruct (r =? colon); [now right|].
  pose proof (indexColon_range b) as Hr.
  destruct IH as [IH|IH].
  - left. rewrite IH. reflexivity.
  - right. rewrite IH. reflexivity.
Qed.

Lemma slice_app b x lo hi :
  hi <= Z.of_nat (List.length b) ->
  slice (b ++ x) lo hi = slice b lo hi.
Proof.
  intros Hhi. unfold slice. rewrite length_app.
  destruct (lo <? 0) eqn:Hlo; [reflexivity|].
  destruct (hi <? lo) eqn:Hhl; [reflexivity|]. cbn [orb].
  assert (H1 : (Z.of_nat (List.length b + List.length x) <? hi) = false)
    by (apply Z.ltb_ge; lia).
  assert (H2 : (Z.of_nat (List.length b) <? hi) = false)
    by (apply Z.ltb_ge; lia).
  rewrite H1, H2. f_equal.
  rewrite skipn_app, firstn_app.
  replace (Z.to_nat (hi - lo) - List.length (skipn (Z.to_nat lo) b))%nat
    with 0%nat by (rewrite length_skipn; lia).
  cbn [firstn]. now rewrite app_nil_r.
Qed.

(** A line feed inside the block is appended when the test of the line goes
    past the buffer, now and however the buffer grows. *)
Lemma plainStep_newline_ignored d x :
  inBlock d = true ->
  r0 d <> star -> r0 d <> newline ->
  colonIgnored (buf d ++ x) = true ->
  plainStep d newline = Returns (appendRune d newline).
Proof.
  intros Hb Hs Hn Hc. unfold plainStep.
  apply Z.eqb_neq in Hs. rewrite Hs, andb_false_r.
  rewrite Hb. change (newline =? newline) with true. cbn [andb].
  unfold blockLine. apply Z.eqb_neq in Hn. rewrite Hn.
  destruct (indexColon (buf d) <? 0) eqn:Hpos; [reflexivity|].
  apply Z.ltb_ge in Hpos.
  pose proof (indexColon_range (buf d)) as Hr.
  destruct (indexColon_app (buf d) x) as [Hi|Hi]; [lia|].
  unfold colonIgnored in Hc. rewrite Hi in Hc.
  rewrite !slice_app in Hc by lia.
  assert (Hlt : (indexColon (buf d) <? 0) = false) by lia.
  rewrite Hlt in Hc. cbn [orb] in Hc.
  destruct (slice (buf d) (indexColon (buf d) - 6) (indexColon (buf d)));
    [|discriminate].
  destruct (slice (buf d) (indexColon (buf d) - 8) (indexColon (buf d)));
    [|discriminate].
  apply andb_prop in Hc. destruct Hc as [H6 H8].
  apply negb_true_iff in H6, H8. rewrite H6, H8. reflexivity.
Qed.

Lemma colonIgnored_app b x :
  ~ In colon x -> colonIgnored b = true -> colonIgnored (b ++ x) = true.
Proof.
  intros Hx Hc. unfold colonIgnored in *.
  pose proof (indexColon_range b) as Hr.
  destruct (indexColon_app b x) as [Hi|Hi].
  - assert (Hn : indexColon (b ++ x) = -1).
    { clear Hc Hr. induction b as [|r b IH]; cbn [app].
      - now apply indexColon_none.
      - cbn [indexColon] in *. destruct (r =? colon); [discriminate|].
        pose proof (indexColon_range b) as Hr.
        destruct (indexColon b <? 0) eqn:Hlt; [|lia].
        rewrite IH by lia. reflexivity. }
    rewrite Hn. reflexivity.
  - rewrite Hi, !slice_app by lia. exact Hc.
Qed.

(** Inside a block, the lines of a paragraph without blank line are
    appended to the buffer, line feeds included, when the test of a line
    goes past the buffer. *)
Lemma feed_paragraph rs :
  forall d,
  inBlock d = true ->
  r0 d <> star -> ~ In star rs ->
  colonIgnored (buf d ++ rs) = true ->
  noBlankLine (r0 d) rs ->
  feed d rs = Returns (appendRunes d rs).
Proof.
  induction rs as [|r rs IH]; intros d Hb Hs Hstar Hc Hbl.
  - unfold appendRunes. cbn [feed last]. rewrite app_nil_r. now destruct d.
  - cbn [feed]. destruct Hbl as [Hnn Hbl].
    assert (Hstep : plainStep d r = Returns (appendRune d r)).
    { destruct (Z.eq_dec r newline) as [->|Hr].
      - apply (plainStep_newline_ignored d (newline :: rs)); try assumption.
        intros H0. apply Hnn. now split.
      - apply plainStep_append; [now left|now right]. }
    rewrite Hstep, <- appendRunes_cons. apply IH.
    + exact Hb.
    + cbn [appendRune r0]. intros ->. apply Hstar. now left.
    + intros Hin. apply Hstar. now right.
    + cbn [appendRune buf]. rewrite <- app_assoc. exact Hc.
    + exact Hbl.
Qed.



(** ** UTF-8 *)

Lemma lead_spec p0 sz lo hi :
  utf8.lead p0 = Some (sz, lo, hi) ->
  (sz = 2 \/ sz = 3 \/ sz = 4)%nat /\ 128 <= lo /\ 128 <= p0.
Proof.
  unfold utf8.lead.
  repeat match goal with
  | |- context [if ?b then _ else _] => destruct b eqn:?
  end; intros [= <- <- <-]; repeat split; auto; lia.
Qed.

Lemma DecodeRune_ascii c p :
  byteVal c < 128 -> utf8.DecodeRune (c :: p) = (byteVal c, 1%nat).
Proof.
  intros Hc. unfold utf8.DecodeRune, utf8.RuneSelf.
  apply Z.ltb_lt in Hc. now rewrite Hc.
Qed.

Lemma DecodeRune_size c p :
  (1 <= snd (utf8.DecodeRune (c :: p)) <= S (List.length p))%nat.
Proof.
  unfold utf8.DecodeRune.
  destruct (byteVal c <? utf8.RuneSelf); [simpl; lia|].
  destruct (utf8.lead (byteVal c)) as [[[sz lo] hi]|]; [|simpl; lia].
  destruct (List.length (c :: p) <? sz)%nat; [simpl; lia|].
  destruct p as [|c1 p]; [simpl; lia|].
  destruct ((byteVal c1 <? lo) || (hi <? byteVal c1)); [simpl; lia|].
  destruct (sz <=? 2)%nat; [simpl; lia|].
  destruct p as [|c2 p]; [simpl; lia|].
  destruct (negb (utf8.continuation (byteVal c2))); [simpl; lia|].
  destruct (sz <=? 3)%nat; [simpl; lia|].
  destruct p as [|c3 p]; [simpl; lia|].
  destruct (negb (utf8.continuation (byteVal c3))); simpl; lia.
Qed.

Lemma continuation_ascii a : byteVal a < 128 -> utf8.continuation (byteVal a) = false.
Proof. intros Ha. unfold utf8.continuation. apply andb_false_iff. left. lia. Qed.

(** An ASCII byte ends the rune before it: what follows that byte does not
    change how the bytes before it decode. *)
Lemma DecodeRune_app_ascii c p a t :
  byteVal a < 128 ->
  utf8.DecodeRune ((c :: p) ++ a :: t) = utf8.DecodeRune (c :: p).
Proof.
  intros Ha. pose proof (continuation_ascii a Ha) as Hca.
  unfold utf8.DecodeRune. cbn [app].
  destruct (byteVal c <? utf8.RuneSelf); [reflexivity|].
  destruct (utf8.lead (byteVal c)) as [[[sz lo] hi]|] eqn:Hl; [|reflexivity].
  destruct (lead_spec _ _ _ _ Hl) as (Hsz & Hlo & _).
  assert (Hb1 : (byteVal a <? lo) || (hi <? byteVal a) = true)
    by (apply orb_true_iff; left; lia).
  destruct Hsz as [->|[->| ->]];
    destruct p as [|c1 [|c2 [|c3 p]]];
    cbn [app List.length Nat.ltb Nat.leb];
    rewrite ?Hca, ?Hb1; cbn [negb];
    repeat match goal with
    | |- context [if ?b then _ else _] => destruct b
    end; reflexivity.
Qed.

Lemma runesFrom_app_ascii a t :
  byteVal a < 128 ->
  forall s skip, (skip <= List.length s)%nat ->
  utf8.runesFrom (s ++ a :: t) skip
  = utf8.runesFrom s skip ++ byteVal a :: utf8.runesFrom t 0.
Proof.
  intros Ha. induction s as [|c s IH]; intros skip Hskip.
  - cbn [List.length] in Hskip. assert (skip = 0%nat) as -> by lia.
    cbn [app utf8.runesFrom]. rewrite DecodeRune_ascii by exact Ha.
    reflexivity.
  - destruct skip as [|k].
    + change ((c :: s) ++ a :: t) with (c :: (s ++ a :: t)).
      cbn [utf8.runesFrom].
      change (c :: (s ++ a :: t)) with ((c :: s) ++ a :: t).
      rewrite DecodeRune_app_ascii by exact Ha.
      pose proof (DecodeRune_size c s) as Hsz.
      destruct (utf8.DecodeRune (c :: s)) as [r size]. cbn [snd] in Hsz.
      cbn [app]. f_equal. apply IH. lia.
    + cbn [app utf8.runesFrom]. apply IH. cbn [List.length] in Hskip. lia.
Qed.

Lemma list_ascii_of_string_app s t :
  list_ascii_of_string (s ++ t)
  = list_ascii_of_string s ++ list_ascii_of_string t.
Proof. induction s as [|c s IH]; cbn; [reflexivity|now rewrite IH]. Qed.

(** The runes of a string that goes on with an ASCII character. *)
Lemma runes_app_ascii s a t :
  byteVal a < 128 ->
  utf8.runes (s ++ String a t) = utf8.runes s ++ byteVal a :: utf8.runes t.
Proof.
  intros Ha. unfold utf8.runes.
  rewrite list_ascii_of_string_app. cbn [list_ascii_of_string].
  apply runesFrom_app_ascii; [exact Ha|lia].
Qed.

Lemma runes_ascii_cons a t :
  byteVal a < 128 ->
  utf8.runes (String a t) = byteVal a :: utf8.runes t.
Proof. intros Ha. apply (runes_app_ascii "" a t Ha). Qed.

Lemma runes_app_nil s : utf8.runes (s ++ "") = utf8.runes s.
Proof.
  unfold utf8.runes. rewrite list_ascii_of_string_app. cbn.
  now rewrite app_nil_r.
Qed.

Lemma byteVal_range c : 0 <= byteVal c < 256.
Proof.
  unfold byteVal. pose proof (N_ascii_bounded c) as Hb. lia.
Qed.

Lemma byteOf_byteVal c : utf8.byteOf (byteVal c) = c.
Proof.
  unfold utf8.byteOf. pose proof (byteVal_range c) as Hr.
  rewrite Z.mod_small by lia. unfold byteVal.
  rewrite N2Z.id. apply ascii_N_embedding.
Qed.

Lemma EncodeRune_ascii c :
  byteVal c < 128 -> utf8.EncodeRune (byteVal c) = [c].
Proof.
  intros Hc. pose proof (byteVal_range c) as Hr. unfold utf8.EncodeRune.
  assert (H1 : (0 <=? byteVal c) && (byteVal c <=? 127) = true)
    by (apply andb_true_iff; split; lia).
  rewrite H1, byteOf_byteVal. reflexivity.
Qed.

Lemma string_of_list_ascii_app l1 l2 :
  string_of_list_ascii (l1 ++ l2)
  = (string_of_list_ascii l1 ++ string_of_list_ascii l2)%string.
Proof. induction l1 as [|c l1 IH]; cbn; [reflexivity|now rewrite IH]. Qed.

Lemma string_of_runes_app rs1 rs2 :
  string_of_runes (rs1 ++ rs2)
  = (string_of_runes rs1 ++ string_of_runes rs2)%string.
Proof.
  unfold string_of_runes, utf8.encode.
  now rewrite flat_map_app, string_of_list_ascii_app.
Qed.

Lemma string_of_runes_ascii_cons c rs :
  byteVal c < 128 ->
  string_of_runes (byteVal c :: rs) = String c (string_of_runes rs).
Proof.
  intros Hc. unfold string_of_runes, utf8.encode. cbn [flat_map].
  rewrite EncodeRune_ascii by exact Hc. reflexivity.
Qed.

Lemma string_of_runes_lit s :
  Forall (fun c => byteVal c < 128) (list_ascii_of_string s) ->
  string_of_runes (lit s) = s.
Proof.
  unfold lit. induction s as [|c s IH]; cbn [list_ascii_of_string map];
    intros Hall; [reflexivity|].
  inversion Hall; subst.
  rewrite string_of_runes_ascii_cons by assumption. now rewrite IH.
Qed.

Lemma runes_lit s :
  Forall (fun c => byteVal c < 128) (list_ascii_of_string s) ->
  utf8.runes s = lit s.
Proof.
  unfold lit. induction s as [|c s IH]; cbn [list_ascii_of_string map];
    intros Hall; [reflexivity|].
  inversion Hall; subst.
  rewrite runes_ascii_cons by assumption. now rewrite IH.
Qed.

(** A string of ASCII characters is valid UTF-8. *)
Lemma validUTF8_ascii s :
  Forall (fun c => byteVal c < 128) (list_ascii_of_string s) -> validUTF8 s.
Proof.
  intros Hall. unfold validUTF8.
  rewrite runes_lit by exact Hall. now apply string_of_runes_lit.
Qed.

(** ** White space *)

Lemma trimLeft_space a p :
  asciiSpace a -> strings.trimLeft (a :: p) 0 = strings.trimLeft p 0.
Proof.
  intros [Ha Hs]. cbn [strings.trimLeft].
  rewrite DecodeRune_ascii by exact Ha. now rewrite Hs.
Qed.

Lemma trimLeft_nonspace c p :
  asciiNonSpace c -> strings.trimLeft (c :: p) 0 = c :: p.
Proof.
  intros [Hc Hs]. cbn [strings.trimLeft].
  rewrite DecodeRune_ascii by exact Hc. now rewrite Hs.
Qed.

Lemma trimLeft_app_space a :
  asciiSpace a ->
  forall p skip, (skip <= List.length p)%nat ->
  strings.trimLeft (p ++ [a]) skip
  = match strings.trimLeft p skip with
    | [] => []
    | c :: l => (c :: l) ++ [a]
    end.
Proof.
  intros Hsp. pose proof Hsp as [Ha Hs].
  induction p as [|c p IH]; intros skip Hskip.
  - cbn [List.length] in Hskip. assert (skip = 0%nat) as -> by lia.
    cbn [app]. rewrite trimLeft_space by exact Hsp. reflexivity.
  - destruct skip as [|k].
    + change ((c :: p) ++ [a]) with (c :: (p ++ [a])).
      cbn [strings.trimLeft].
      change (c :: (p ++ [a])) with ((c :: p) ++ [a]).
      rewrite DecodeRune_app_ascii by exact Ha.
      pose proof (DecodeRune_size c p) as Hsz.
      destruct (utf8.DecodeRune (c :: p)) as [r size]. cbn [snd] in Hsz.
      destruct (strings.IsSpace r); [|reflexivity].
      cbn [app]. apply IH. lia.
    + cbn [app strings.trimLeft]. apply IH. cbn [List.length] in Hskip. lia.
Qed.

Lemma trimRight_app_space a p :
  asciiSpace a -> strings.trimRight (p ++ [a]) = strings.trimRight p.
Proof.
  intros [Ha Hs]. unfold strings.trimRight.
  rewrite rev_app_distr. cbn [List.rev app strings.trimRightRev].
  unfold utf8.DecodeLastRuneRev, utf8.RuneSelf.
  apply Z.ltb_lt in Ha. rewrite Ha, Hs. reflexivity.
Qed.

Lemma trimRight_app_nonspace c p :
  asciiNonSpace c -> strings.trimRight (p ++ [c]) = p ++ [c].
Proof.
  intros [Hc Hs]. unfold strings.trimRight.
  rewrite rev_app_distr. cbn [List.rev app strings.trimRightRev].
  unfold utf8.DecodeLastRuneRev, utf8.RuneSelf.
  apply Z.ltb_lt in Hc. rewrite Hc, Hs.
  cbn [List.rev]. now rewrite rev_involutive.
Qed.

Lemma TrimSpace_cons_space a s :
  asciiSpace a -> strings.TrimSpace (String a s) = strings.TrimSpace s.
Proof.
  intros Ha. unfold strings.TrimSpace. cbn [list_ascii_of_string].
  now rewrite trimLeft_space.
Qed.

Lemma TrimSpace_app_space a s :
  asciiSpace a ->
  strings.TrimSpace (s ++ String a "") = strings.TrimSpace s.
Proof.
  intros Ha. unfold strings.TrimSpace.
  rewrite list_ascii_of_string_app. cbn [list_ascii_of_string].
  rewrite (trimLeft_app_space a Ha) by lia.
  destruct (strings.trimLeft (list_ascii_of_string s) 0) as [|c l];
    [reflexivity|].
  now rewrite trimRight_app_space.
Qed.

(** A string that begins and ends with ASCII characters that are not white
    space is left as it is. *)
Lemma TrimSpace_fixed c l :
  asciiNonSpace c ->
  asciiNonSpace (last l c) ->
  strings.TrimSpace (string_of_list_ascii (c :: l)) = string_of_list_ascii (c :: l).
Proof.
  intros Hc Hl. unfold strings.TrimSpace.
  rewrite list_ascii_of_string_of_list_ascii.
  rewrite trimLeft_nonspace by exact Hc.
  destruct (exists_last (l := c :: l)) as (l' & x & Heq); [discriminate|].
  assert (Hx : x = last l c).
  { rewrite <- (last_cons_default c l c), Heq. symmetry. apply last_last. }
  rewrite Heq, trimRight_app_nonspace; [reflexivity|]. now rewrite Hx.
Qed.

(** ** The shape of a valid ID *)

Lemma skipDigits_nil v : time.skipDigits v = [] -> Forall (fun c => time.isDigit c = true) v.
Proof.
  induction v as [|c v IH]; cbn [time.skipDigits]; intros Hs; [constructor|].
  destruct (time.isDigit c) eqn:Hc; [|discriminate].
  constructor; auto.
Qed.

Lemma idTail_nil : idTail [].
Proof. split; [constructor|auto]. Qed.

Lemma idTail_digit c v :
  time.isDigit c = true -> idTail v -> idTail (c :: v).
Proof.
  intros Hc [Hall Hlast]. split.
  - constructor; [|exact Hall]. unfold idChar. now rewrite Hc.
  - intros x _. rewrite last_cons_default. now apply Hlast.
Qed.

Lemma skipFraction_nil v : time.skipFraction v = [] -> idTail v.
Proof.
  unfold time.skipFraction.
  destruct v as [|c0 [|c1 rest]]; try discriminate; [intros _; apply idTail_nil|].
  destruct (time.commaOrPeriod c0 && time.isDigit c1) eqn:Hc; [|discriminate].
  apply andb_prop in Hc. destruct Hc as [Hc0 Hc1].
  intros Hs. apply skipDigits_nil in Hs.
  assert (Hrest : idTail rest).
  { clear -Hs. induction Hs as [|c rest Hc _ IH];
      [apply idTail_nil|now apply idTail_digit]. }
  destruct (idTail_digit c1 rest Hc1 Hrest) as [Hall Hlast].
  split.
  - constructor; [|exact Hall]. unfold idChar. rewrite Hc0. apply orb_true_r.
  - intros x _. rewrite last_cons_default. rewrite last_cons_default.
    destruct Hrest as [_ Hr]. now apply Hr.
Qed.

Lemma getnum_idTail v fixed n rest :
  time.getnum v fixed = Some (n, rest) ->
  idTail rest ->
  idTail v /\ exists c l, v = c :: l /\ time.isDigit c = true.
Proof.
  unfold time.getnum.
  destruct v as [|c0 s1]; [discriminate|].
  destruct (time.isDigit c0) eqn:H0; [|discriminate].
  intros Hg Ht.
  assert (Hgoal : idTail s1 -> idTail (c0 :: s1)
                               /\ exists c l, c0 :: s1 = c :: l /\ time.isDigit c = true).
  { intros Hs1. split; [now apply idTail_digit|eauto]. }
  destruct s1 as [|c1 s2].
  - apply Hgoal, idTail_nil.
  - destruct (time.isDigit c1) eqn:H1.
    + injection Hg as _ <-. apply Hgoal. now apply idTail_digit.
    + destruct fixed; [discriminate|]. injection Hg as _ <-. now apply Hgoal.
Qed.

(** A valid ID is made of digits, periods and commas, and begins and ends
    with a digit. *)
Lemma ParseUnix_shape s t :
  time.ParseUnix s = Some t ->
  exists c l,
    list_ascii_of_string s = c :: l
    /\ Forall (fun c => idChar c = true) (c :: l)
    /\ time.isDigit c = true
    /\ time.isDigit (last l c) = true.
Proof.
  unfold time.ParseUnix.
  destruct (time.getyear (list_ascii_of_string s)) as [[year v1]|] eqn:Hy;
    [|discriminate].
  destruct (time.getnum v1 true) as [[month v2]|] eqn:H1; [|discriminate].
  destruct ((month <=? 0) || (12 <? month)); [discriminate|].
  destruct (time.getnum v2 true) as [[day v3]|] eqn:H2; [|discriminate].
  destruct (time.getnum v3 false) as [[hour v4]|] eqn:H3; [|discriminate].
  destruct ((hour <? 0) || (24 <=? hour)); [discriminate|].
  destruct (time.getnum v4 true) as [[min v5]|] eqn:H4; [|discriminate].
  destruct ((min <? 0) || (60 <=? min)); [discriminate|].
  destruct (time.getnum v5 true) as [[sec v6]|] eqn:H5; [|discriminate].
  destruct ((sec <? 0) || (60 <=? sec)); [discriminate|].
  destruct (time.skipFraction v6) eqn:H6; [|discriminate].
  intros _.
  apply skipFraction_nil in H6.
  destruct (getnum_idTail _ _ _ _ H5 H6) as [T5 _].
  destruct (getnum_idTail _ _ _ _ H4 T5) as [T4 _].
  destruct (getnum_idTail _ _ _ _ H3 T4) as [T3 _].
  destruct (getnum_idTail _ _ _ _ H2 T3) as [T2 _].
  destruct (getnum_idTail _ _ _ _ H1 T2) as [T1 _].
  unfold time.getyear in Hy.
  destruct (list_ascii_of_string s) as [|c0 [|c1 [|c2 [|c3 rest]]]];
    try discriminate.
  destruct (time.isDigit c0 && time.isDigit c1 && time.isDigit c2
            && time.isDigit c3) eqn:Hd; [|discriminate].
  injection Hy as _ <-.
  apply andb_prop in Hd. destruct Hd as [Hd Hd3].
  apply andb_prop in Hd. destruct Hd as [Hd Hd2].
  apply andb_prop in Hd. destruct Hd as [Hd0 Hd1].
  pose proof (idTail_digit c1 _ Hd1
               (idTail_digit c2 _ Hd2 (idTail_digit c3 _ Hd3 T1))) as Tl.
  exists c0, (c1 :: c2 :: c3 :: rest). repeat split.
  - constructor; [unfold idChar; now rewrite Hd0|]. apply Tl.
  - exact Hd0.
  - destruct Tl as [_ Hl]. now apply Hl.
Qed.

Lemma idChar_facts c :
  idChar c = true ->
  asciiNonSpace c
  /\ byteVal c <> star /\ byteVal c <> slash
  /\ byteVal c <> newline /\ byteVal c <> colon.
Proof.
  unfold idChar, time.isDigit, time.commaOrPeriod, asciiNonSpace,
    strings.IsSpace, byteVal, star, slash, newline, colon.
  intros Hc. apply orb_prop in Hc. destruct Hc as [Hc|Hc].
  - apply andb_prop in Hc. destruct Hc as [H1 H2].
    repeat split; lia.
  - apply orb_prop in Hc.
    destruct Hc as [Hc|Hc]; apply Ascii.eqb_eq in Hc; subst c;
      repeat split; try reflexivity; cbn; lia.
Qed.

(** ** The lines of the block *)

Lemma skipn_length_app {A : Type} (a b : list A) : skipn (List.length a) (a ++ b) = b.
Proof. induction a as [|x a IH]; [reflexivity|exact IH]. Qed.

Lemma firstn_length_app {A : Type} (a b : list A) : firstn (List.length a) (a ++ b) = a.
Proof. induction a as [|x a IH]; cbn; [now destruct b|now rewrite IH]. Qed.

Lemma slice_middle pre m x :
  slice (pre ++ m ++ x) (Z.of_nat (List.length pre))
        (Z.of_nat (List.length pre) + Z.of_nat (List.length m))
  = Some m.
Proof.
  unfold slice. rewrite !length_app.
  assert (Hc : (Z.of_nat (List.length pre) <? 0)
               || (Z.of_nat (List.length pre) + Z.of_nat (List.length m)
                   <? Z.of_nat (List.length pre))
               || (Z.of_nat (List.length pre + (List.length m + List.length x))
                   <? Z.of_nat (List.length pre) + Z.of_nat (List.length m))
               = false).
  { rewrite !orb_false_iff, !Z.ltb_ge. lia. }
  rewrite Hc. f_equal.
  rewrite Nat2Z.id.
  replace (Z.to_nat (Z.of_nat (List.length pre) + Z.of_nat (List.length m)
                     - Z.of_nat (List.length pre)))
    with (List.length m) by lia.
  now rewrite skipn_length_app, firstn_length_app.
Qed.

(** A line [Author:x] inside the block sets the author. *)
Lemma blockLine_Author d pre x :
  buf d = pre ++ lit "Author" ++ colon :: x ->
  ~ In colon pre ->
  r0 d <> newline ->
  blockLine d
  = Continue (mkDecoder
                (setAuthor (drev d) (strings.TrimSpace (string_of_runes x)))
                [] (r0 d) (inBlock d)).
Proof.
  intros Hbuf Hpre Hr. unfold blockLine.
  apply Z.eqb_neq in Hr. rewrite Hr, Hbuf.
  assert (Hpos : indexColon (pre ++ lit "Author" ++ colon :: x)
                 = Z.of_nat (List.length pre) + 6).
  { rewrite app_assoc, indexColon_first.
    - rewrite length_app. cbn [lit list_ascii_of_string map List.length]. lia.
    - intros Hin. apply in_app_or in Hin. destruct Hin as [Hin|Hin];
        [contradiction|].
      cbn in Hin. unfold colon in Hin. intuition discriminate. }
  rewrite Hpos.
  assert (Hlt : (Z.of_nat (List.length pre) + 6 <? 0) = false) by lia.
  rewrite Hlt.
  replace (Z.of_nat (List.length pre) + 6 - 6) with (Z.of_nat (List.length pre))
    by lia.
  change 6 with (Z.of_nat (List.length (lit "Author"))) at 1.
  rewrite (slice_middle pre (lit "Author") (colon :: x)).
  change (String.eqb (string_of_runes (lit "Author")) "Author") with true.
  cbv iota. repeat f_equal.
  replace (Z.to_nat (Z.of_nat (List.length pre) + 6 + 1))
    with (List.length (pre ++ lit "Author" ++ [colon]))
    by (rewrite !length_app; cbn [List.length lit list_ascii_of_string map]; lia).
  replace (pre ++ lit "Author" ++ colon :: x)
    with ((pre ++ lit "Author" ++ [colon]) ++ x)
    by (now rewrite <- !app_assoc).
  apply skipn_length_app.
Qed.

(** A line [Revision:x] inside the block sets the ID. *)
Lemma blockLine_Revision d pre x :
  buf d = pre ++ lit "Revision" ++ colon :: x ->
  ~ In colon pre ->
  r0 d <> newline ->
  blockLine d
  = Continue (mkDecoder
                (setID (drev d) (strings.TrimSpace (string_of_runes x)))
                [] (r0 d) (inBlock d)).
Proof.
  intros Hbuf Hpre Hr. unfold blockLine.
  apply Z.eqb_neq in Hr. rewrite Hr, Hbuf.
  assert (Hpos : indexColon (pre ++ lit "Revision" ++ colon :: x)
                 = Z.of_nat (List.length pre) + 8).
  { rewrite app_assoc, indexColon_first.
    - rewrite length_app. cbn [lit list_ascii_of_string map List.length]. lia.
    - intros Hin. apply in_app_or in Hin. destruct Hin as [Hin|Hin];
        [contradiction|].
      cbn in Hin. unfold colon in Hin. intuition discriminate. }
  rewrite Hpos.
  assert (Hlt : (Z.of_nat (List.length pre) + 8 <? 0) = false) by lia.
  rewrite Hlt.
  assert (H6 : slice (pre ++ lit "Revision" ++ colon :: x)
                     (Z.of_nat (List.length pre) + 8 - 6)
                     (Z.of_nat (List.length pre) + 8)
               = Some (lit "vision")).
  { replace (pre ++ lit "Revision" ++ colon :: x)
      with ((pre ++ lit "Re") ++ lit "vision" ++ colon :: x)
      by (now rewrite <- app_assoc).
    replace (Z.of_nat (List.length pre) + 8 - 6)
      with (Z.of_nat (List.length (pre ++ lit "Re")))
      by (rewrite length_app; cbn [List.length lit list_ascii_of_string map]; lia).
    replace (Z.of_nat (List.length pre) + 8)
      with (Z.of_nat (List.length (pre ++ lit "Re"))
            + Z.of_nat (List.length (lit "vision")))
      by (rewrite length_app; cbn [List.length lit list_ascii_of_string map]; lia).
    apply slice_middle. }
  rewrite H6.
  change (String.eqb (string_of_runes (lit "vision")) "Author") with false.
  cbv iota.
  assert (H8 : slice (pre ++ lit "Revision" ++ colon :: x)
                     (Z.of_nat (List.length pre) + 8 - 8)
                     (Z.of_nat (List.length pre) + 8)
               = Some (lit "Revision")).
  { replace (Z.of_nat (List.length pre) + 8 - 8)
      with (Z.of_nat (List.length pre)) by lia.
    apply (slice_middle pre (lit "Revision") (colon :: x)). }
  rewrite H8.
  change (String.eqb (string_of_runes (lit "Revision")) "Revision") with true.
  cbv iota. repeat f_equal.
  replace (Z.to_nat (Z.of_nat (List.length pre) + 8 + 1))
    with (List.length (pre ++ lit "Revision" ++ [colon]))
    by (rewrite !length_app; cbn [List.length lit list_ascii_of_string map]; lia).
  replace (pre ++ lit "Revision" ++ colon :: x)
    with ((pre ++ lit "Revision" ++ [colon]) ++ x)
    by (now rewrite <- !app_assoc).
  apply skipn_length_app.
Qed.

(** ** The text after the block *)

Lemma last_In_or_default {A : Type} (l : list A) x :
  last l x = x \/ In (last l x) l.
Proof.
  revert x. induction l as [|a l IH]; intros x; [now left|].
  right. rewrite last_cons_default.
  destruct (IH a) as [->|Hin]; [now left|now right].
Qed.

Lemma last_neq (l : list rune) x v :
  x <> v -> ~ In v l -> last l x <> v.
Proof.
  intros Hx Hv. destruct (last_In_or_default l x) as [->|Hin]; [exact Hx|].
  intros Heq. apply Hv. now rewrite <- Heq.
Qed.

(** Outside a block, a text without star that is read to the end of the
    stream is appended to the buffer, which becomes the SQL. *)
Lemma readRunes_tail fail d rs :
  inBlock d = false ->
  ~ In star rs ->
  r0 d <> star \/ hd_error rs <> Some slash ->
  readRunes fail d rs = endOfStream fail (appendRunes d rs).
Proof.
  intros Hb Hstar Hr.
  destruct rs as [|r rs].
  - unfold appendRunes. cbn [readRunes last]. rewrite app_nil_r. now destruct d.
  - rewrite readRunes_plain by (intros ->; apply Hstar; now left).
    rewrite plainStep_append.
    + rewrite <- (app_nil_r rs), readRunes_feed
        by (intros Hin; apply Hstar; now right).
      rewrite feed_append.
      * rewrite appendRunes_cons, app_nil_r. reflexivity.
      * cbn [appendRune r0]. intros ->. apply Hstar. now left.
      * intros Hin. apply Hstar. now right.
      * left. exact Hb.
    + destruct Hr as [Hr|Hr]; [now left|right].
      intros ->. now apply Hr.
    + now left.
Qed.



(** ** The round trip *)

Lemma append_assoc (a b c : string) : ((a ++ b) ++ c = a ++ (b ++ c))%string.
Proof. induction a as [|x a IH]; cbn; [reflexivity|now rewrite IH]. Qed.

Lemma runes_Revision_String r :
  utf8.runes (Revision_String r)
  = lit "/*" ++ newline :: lit "Revision: " ++ utf8.runes (ID r)
    ++ newline :: lit "Author:   " ++ utf8.runes (Author r)
    ++ newline
       :: (if String.eqb (Comment r) "" then []
           else newline :: utf8.runes (Comment r) ++ [newline])
    ++ star :: slash :: newline :: newline :: utf8.runes (SQL r).
Proof.
  unfold Revision_String, LF.
  destruct (String.eqb (Comment r) "");
    rewrite ?append_assoc; cbn [append];
    repeat first [ rewrite runes_ascii_cons by (cbn; lia)
                 | rewrite runes_app_ascii by (cbn; lia) ];
    cbn [lit list_ascii_of_string map app]; rewrite <- ?app_assoc;
    reflexivity.
Qed.

Lemma validID_shape id :
  validID id = true ->
  exists c l,
    list_ascii_of_string id = c :: l
    /\ utf8.runes id = map byteVal (c :: l)
    /\ string_of_runes (utf8.runes id) = id
    /\ strings.TrimSpace id = id
    /\ (forall x, In x (map byteVal (c :: l)) ->
          x <> star /\ x <> slash /\ x <> newline /\ x <> colon).
Proof.
  unfold validID. destruct (time.ParseUnix id) as [t|] eqn:Hp; [|discriminate].
  intros _. destruct (ParseUnix_shape _ _ Hp) as (c & l & Hid & Hall & Hc & Hl).
  assert (Hascii : Forall (fun c => byteVal c < 128) (list_ascii_of_string id)).
  { rewrite Hid. eapply Forall_impl; [|exact Hall].
    intros a Ha. now destruct (idChar_facts a Ha) as [[? _] _]. }
  exists c, l. split; [exact Hid|].
  assert (Hr : utf8.runes id = map byteVal (c :: l)).
  { rewrite runes_lit by exact Hascii. unfold lit. now rewrite Hid. }
  split; [exact Hr|]. split.
  { rewrite runes_lit by exact Hascii. now apply string_of_runes_lit. }
  split.
  { rewrite <- (string_of_list_ascii_of_string id), Hid.
    apply TrimSpace_fixed.
    - apply idChar_facts. unfold idChar. now rewrite Hc.
    - apply idChar_facts. unfold idChar. now rewrite Hl. }
  intros x Hx. apply in_map_iff in Hx. destruct Hx as (a & <- & Ha).
  rewrite Forall_forall in Hall.
  destruct (idChar_facts a (Hall a Ha)) as (_ & H1 & H2 & H3 & H4). auto.
Qed.

Lemma plainStep_line d d' :
  inBlock d = true ->
  r0 d <> star ->
  blockLine d = Continue d' ->
  plainStep d newline = Returns d'.
Proof.
  intros Hb Hs Hl. unfold plainStep.
  apply Z.eqb_neq in Hs. rewrite Hs, andb_false_r, Hb.
  change (newline =? newline) with true. cbn [andb]. now rewrite Hl.
Qed.

Lemma last_nonempty_neq (a : rune) rs x v :
  ~ In v (a :: rs) -> last (a :: rs) x <> v.
Proof.
  intros Hv. rewrite last_cons_default. apply last_neq.
  - intros ->. apply Hv. now left.
  - intros Hin. apply Hv. now right.
Qed.

Lemma last_neq_nonempty (l : list rune) x v :
  l <> [] -> ~ In v l -> last l x <> v.
Proof.
  destruct l as [|a l]; [congruence|]. intros _. apply last_nonempty_neq.
Qed.

Lemma last_app_default {A : Type} (l1 l2 : list A) x :
  last (l1 ++ l2) x = last l2 (last l1 x).
Proof.
  revert x. induction l1 as [|a l1 IH]; intros x; [reflexivity|].
  change ((a :: l1) ++ l2) with (a :: (l1 ++ l2)).
  now rewrite !last_cons_default, IH.
Qed.

(** C2, as amended. The textual form of a plain revision is read back as
    the revision it was written from: the same ID and author, and the
    comment and the SQL without the white space around them. *)
Theorem UnmarshalRevision_String_roundtrip (r : Revision) :
  plainRevision r ->
  UnmarshalRevision (readerOf (Revision_String r))
  = Returns (inl (mkRevision (ID r) (Author r)
                             (strings.TrimSpace (Comment r))
                             (strings.TrimSpace (SQL r)) None)).
Proof.
  intros [HID HAu HAt HAs HAl HAsl HCu HCs HCc HCp HSu HSs].
  destruct (validID_shape _ HID) as (c & l & Hbytes & HrID & HIDu & HIDt & HIDch).
  rewrite <- HrID in HIDch. clear HrID Hbytes c l.
  unfold UnmarshalRevision, readerOf. cbn [content failure].
  rewrite runes_Revision_String.
  change (lit "/*") with [slash; star]. cbn [app].
  (* the opening of the block *)
  rewrite readRunes_plain by rune_neq.
  rewrite plainStep_append; [|left; rune_neq|now left].
  rewrite readRunes_open by reflexivity.
  rewrite readRunes_plain by rune_neq.
  rewrite plainStep_newline_nocolon; [|reflexivity|rune_neq|rune_neq|not_in_lit].
  cbn [appendRune drev buf r0 inBlock initialDecoder app].
  (* the line of the ID *)
  rewrite (app_assoc (lit "Revision: ") (utf8.runes (ID r))).
  assert (HlineID : forall v, v = star \/ v = newline ->
                    ~ In v (lit "Revision: " ++ utf8.runes (ID r))).
  { intros v Hv Hin. apply in_app_or in Hin. destruct Hin as [Hin|Hin].
    - destruct Hv as [-> | ->]; revert Hin; not_in_lit.
    - destruct (HIDch _ Hin) as (H1 & _ & H3 & _).
      destruct Hv as [-> | ->]; congruence. }
  rewrite readRunes_feed by (apply HlineID; now left).
  rewrite feed_append; [|rune_neq|apply HlineID; now left|right; apply HlineID; now right].
  cbn [appendRunes appendRune drev buf r0 inBlock app].
  assert (HlastID : forall x v, v = star \/ v = newline ->
            last (lit "Revision: " ++ utf8.runes (ID r)) x <> v).
  { intros x v Hv. apply last_neq_nonempty; [lit_nonempty|now apply HlineID]. }
  rewrite readRunes_plain by rune_neq.
  erewrite plainStep_line;
    [ | reflexivity
      | cbn [r0]; apply HlastID; now left
      | apply (blockLine_Revision _ [slash; newline] (32 :: utf8.runes (ID r)));
        [reflexivity|not_in_lit|cbn [r0]; apply HlastID; now right] ].
  cbn [drev buf r0 inBlock setID ID Author Comment SQL PerformedAt].
  (* the line of the author *)
  rewrite (app_assoc (lit "Author:   ") (utf8.runes (Author r))).
  assert (HlineAu : forall v, v = star \/ v = newline ->
                    ~ In v (lit "Author:   " ++ utf8.runes (Author r))).
  { intros v Hv Hin. apply in_app_or in Hin. destruct Hin as [Hin|Hin].
    - destruct Hv as [-> | ->]; revert Hin; not_in_lit.
    - destruct Hv as [-> | ->]; contradiction. }
  rewrite readRunes_feed by (apply HlineAu; now left).
  rewrite feed_append;
    [ | cbn [r0]; apply HlastID; now left
      | apply HlineAu; now left
      | right; apply HlineAu; now right ].
  cbn [appendRunes appendRune drev buf r0 inBlock app].
  assert (HlastAu : forall x v, v = star \/ v = newline ->
            last (lit "Author:   " ++ utf8.runes (Author r)) x <> v).
  { intros x v Hv. apply last_neq_nonempty; [lit_nonempty|now apply HlineAu]. }
  rewrite readRunes_plain by rune_neq.
  erewrite plainStep_line;
    [ | reflexivity
      | cbn [r0]; apply HlastAu; now left
      | apply (blockLine_Author _ [] (lit "   " ++ utf8.runes (Author r)));
        [reflexivity|intros []|cbn [r0]; apply HlastAu; now right] ].
  cbn [appendRunes drev buf r0 inBlock setID setAuthor
       ID Author Comment SQL PerformedAt].
  (* what the two lines set *)
  assert (Hsp : asciiSpace " ") by (split; [cbn; lia|reflexivity]).
  assert (Hnl : asciiSpace (ascii_of_nat 10)) by (split; [cbn; lia|reflexivity]).
  assert (EID : strings.TrimSpace (string_of_runes (32 :: utf8.runes (ID r)))
                = ID r).
  { change 32 with (byteVal " ").
    rewrite string_of_runes_ascii_cons by (cbn; lia).
    now rewrite HIDu, TrimSpace_cons_space. }
  assert (EAu : strings.TrimSpace
                  (string_of_runes (lit "   " ++ utf8.runes (Author r)))
                = Author r).
  { rewrite string_of_runes_app, HAu.
    change (string_of_runes (lit "   ")) with "   ". cbn [append].
    now rewrite !TrimSpace_cons_space. }
  rewrite EID, EAu.
  assert (ESQL : strings.TrimSpace
                   (string_of_runes
                      (newline :: newline :: utf8.runes (SQL r)))
                 = strings.TrimSpace (SQL r)).
  { change newline with (byteVal (ascii_of_nat 10)).
    rewrite !string_of_runes_ascii_cons by (cbn; lia).
    now rewrite HSu, !TrimSpace_cons_space. }
  assert (HtailSQL : ~ In star (newline :: newline :: utf8.runes (SQL r))).
  { intros [H0|[H0|H0]]; [discriminate H0|discriminate H0|contradiction]. }
  unfold validID in HID.
  destruct (String.eqb (Comment r) "") eqn:HC; cbn [app].
  - (* no comment: the block is closed after the author *)
    apply String.eqb_eq in HC.
    rewrite readRunes_close.
    2:{ cbn [r0]. rewrite last_app_default.
        change (last (lit "Author:   ") _) with 32.
        specialize (HAsl HC). destruct (utf8.runes (Author r)) as [|a rs].
        - rune_neq.
        - rewrite last_cons_default in *. exact HAsl. }
    rewrite readRunes_tail; [|reflexivity|exact HtailSQL|right; rune_neq].
    unfold endOfStream, appendRunes, appendRune,
      setSQL, setComment, setAuthor, setID.
    cbn [drev buf r0 inBlock app ID Author Comment SQL PerformedAt].
    destruct (time.ParseUnix (ID r)); [|discriminate].
    rewrite ESQL, HC. reflexivity.
  - (* a comment of one paragraph *)
    apply String.eqb_neq in HC. specialize (HCp HC).
    rewrite readRunes_plain by rune_neq.
    rewrite plainStep_newline_nocolon;
      [ | reflexivity
        | cbn [r0]; apply HlastAu; now left
        | cbn [r0]; apply HlastAu; now right
        | intros [] ].
    cbn [appendRune drev buf r0 inBlock app].
    assert (HCstar : ~ In star (utf8.runes (Comment r) ++ [newline])).
    { intros Hin. apply in_app_or in Hin.
      destruct Hin as [Hin|[H0|[]]]; [contradiction|discriminate H0]. }
    rewrite readRunes_feed by exact HCstar.
    rewrite feed_paragraph;
      [ | reflexivity | rune_neq | exact HCstar | | exact HCp ].
    2:{ unfold appendRune; cbn [buf app].
        apply (colonIgnored_app (newline :: utf8.runes (Comment r)) [newline]);
          [|exact HCc].
        intros [H0|[]]. discriminate H0. }
    rewrite readRunes_close
      by (unfold appendRunes; cbn [r0]; rewrite last_last; rune_neq).
    rewrite readRunes_tail; [|reflexivity|exact HtailSQL|right; rune_neq].
    unfold endOfStream, appendRunes, appendRune,
      setSQL, setComment, setAuthor, setID.
    cbn [drev buf r0 inBlock app ID Author Comment SQL PerformedAt].
    destruct (time.ParseUnix (ID r)); [|discriminate].
    rewrite ESQL.
    assert (EC : strings.TrimSpace
                   (string_of_runes
                      (newline :: utf8.runes (Comment r) ++ [newline]))
                 = strings.TrimSpace (Comment r)).
    { change newline with (byteVal (ascii_of_nat 10)).
      rewrite string_of_runes_ascii_cons by (cbn; lia).
      rewrite string_of_runes_app, HCu.
      rewrite string_of_runes_ascii_cons by (cbn; lia).
      change (string_of_runes []) with "".
      now rewrite TrimSpace_cons_space, TrimSpace_app_space. }
    rewrite EC. reflexivity.
Qed.

(** *** The scenarios of the specification *)

Example scenario_roundtrip :
  UnmarshalRevision (readerOf (Revision_String Sample.documented))
  = Returns (inl Sample.documented).
Proof. reflexivity. Qed.

Example roundtrip_with_colon :
  colonIgnored (newline :: utf8.runes (Comment Sample.withColon)) = true
  /\ UnmarshalRevision (readerOf (Revision_String Sample.withColon))
     = Returns (inl Sample.withColon).
Proof. split; reflexivity. Qed.

Example scenario_title_72 :
  let c := "123456789012345678901234567890123456789012345678901234567890123456789012" in
  Title (mkRevision "" "" c "" None) = c
  /\ Title (mkRevision "" "" (c ++ "3") "" None) = (c ++ "...")%string.
Proof. split; reflexivity. Qed.

(** C5, at its failing input. The look-back of six runes from a colon that
    comes third in the buffer is out of range: the decoder panics. *)
Theorem UnmarshalRevision_panics_on_short_key :
  UnmarshalRevision (readerOf Sample.shortKey) = Panics.
Proof. reflexivity. Qed.

(** C7, at its failing input. A comment shorter than 72 bytes is returned
    whole, its second line included: the cut at the line feed is made only
    inside the test for the length. *)
Theorem Title_of_short_comment_keeps_all_lines :
  IndexByte (Comment Sample.twoLines) (ascii_of_nat 10) = 5
  /\ Title Sample.twoLines = ("hello" ++ LF ++ "world")%string.
Proof. split; reflexivity. Qed.

(** C2 as stated fails on a comment of two paragraphs: a blank line empties
    the buffer, so only the last paragraph is read back. *)
Lemma roundtrip_loses_first_paragraph :
  validID (ID Sample.twoParagraphs) = true
  /\ strings.TrimSpace (Comment Sample.twoParagraphs)
     = ("a" ++ LF ++ LF ++ "b")%string
  /\ UnmarshalRevision (readerOf (Revision_String Sample.twoParagraphs))
     = Returns (inl (mkRevision "20240115093000" "bob" "b" "SELECT 1" None)).
Proof. repeat split; reflexivity. Qed.

Lemma UnmarshalRevision_String_roundtrip_witness :
  UnmarshalRevision (readerOf (Revision_String Sample.documented))
  = Returns (inl (mkRevision (ID Sample.documented) (Author Sample.documented)
                             (strings.TrimSpace (Comment Sample.documented))
                             (strings.TrimSpace (SQL Sample.documented)) None)).
Proof.
  apply (UnmarshalRevision_String_roundtrip Sample.documented).
  constructor; try reflexivity; try not_in_lit.
  - intros H. discriminate H.
  - intros _. cbv. repeat split; intros [H1 H2]; discriminate.
Defined.



(** ** The title *)

Lemma substring_length_le n s : (String.length (substring 0 n s) <= n)%nat.
Proof.
  revert s. induction n as [|n IH]; intros s.
  - destruct s; simpl; lia.
  - destruct s as [|c s]; simpl; [lia|]. specialize (IH s). lia.
Qed.

Lemma length_append s t :
  String.length (s ++ t) = (String.length s + String.length t)%nat.
Proof. induction s as [|c s IH]; simpl; [reflexivity|now rewrite IH]. Qed.

Lemma IndexByte_range s c : -1 <= IndexByte s c < Z.of_nat (String.length s).
Proof.
  induction s as [|a s IH]; cbn [IndexByte String.length]; [lia|].
  destruct (Ascii.eqb a c); [lia|].
  destruct (IndexByte s c <? 0) eqn:Hlt; lia.
Qed.

Lemma IndexByte_substring s c n :
  0 <= IndexByte s c < Z.of_nat n ->
  IndexByte (substring 0 n s) c = IndexByte s c.
Proof.
  revert n. induction s as [|a s IH]; intros n; cbn [IndexByte]; [lia|].
  destruct n as [|n]; [destruct (Ascii.eqb a c), (IndexByte s c <? 0); lia|].
  cbn [substring IndexByte].
  destruct (Ascii.eqb a c); [reflexivity|].
  destruct (IndexByte s c <? 0) eqn:Hlt; [lia|].
  intros Hr. rewrite IH by lia. now rewrite Hlt.
Qed.

Lemma IndexByte_append s t c :
  0 <= IndexByte s c -> IndexByte (s ++ t) c = IndexByte s c.
Proof.
  induction s as [|a s IH]; cbn [IndexByte append]; [lia|].
  destruct (Ascii.eqb a c); [reflexivity|].
  destruct (IndexByte s c <? 0) eqn:Hlt; [lia|].
  intros _. rewrite IH by lia. now rewrite Hlt.
Qed.

Lemma substring_substring i n s :
  (i <= n)%nat -> substring 0 i (substring 0 n s) = substring 0 i s.
Proof.
  revert n s. induction i as [|i IH]; intros n s Hle.
  - destruct (substring 0 n s), s; reflexivity.
  - destruct n as [|n]; [lia|]. destruct s as [|a s]; [reflexivity|].
    cbn [substring]. rewrite IH by lia. reflexivity.
Qed.

Lemma substring_append i s t :
  (i <= String.length s)%nat -> substring 0 i (s ++ t) = substring 0 i s.
Proof.
  revert s. induction i as [|i IH]; intros s Hle.
  - destruct s; cbn; [now destruct t|reflexivity].
  - destruct s as [|a s]; cbn [String.length] in Hle; [lia|].
    cbn [append substring]. rewrite IH by lia. reflexivity.
Qed.

Lemma substring_length n s :
  (n <= String.length s)%nat -> String.length (substring 0 n s) = n.
Proof.
  revert s. induction n as [|n IH]; intros s Hle.
  - now destruct s.
  - destruct s as [|a s]; cbn [String.length] in Hle; [lia|].
    cbn [substring String.length]. rewrite IH by lia. reflexivity.
Qed.

(** X3, what holds of C7. The title is at most 72 bytes and the three of
    the ellipsis. *)
Theorem Title_length (r : Revision) : (String.length (Title r) <= 75)%nat.
Proof.
  unfold Title.
  destruct (72 <=? String.length (Comment r))%nat eqn:Hl.
  - set (t := if (72 <? String.length (Comment r))%nat
              then (substring 0 72 (Comment r) ++ "...")%string
              else substring 0 72 (Comment r)).
    assert (Ht : (String.length t <= 75)%nat).
    { unfold t. pose proof (substring_length_le 72 (Comment r)).
      destruct (72 <? String.length (Comment r))%nat;
        [rewrite length_append; simpl; lia|lia]. }
    destruct (0 <? IndexByte t (ascii_of_nat 10)); [|exact Ht].
    pose proof (substring_length_le
                  (Z.to_nat (IndexByte t (ascii_of_nat 10))) t).
    pose proof (IndexByte_range t (ascii_of_nat 10)). lia.
  - apply Nat.leb_gt in Hl. lia.
Qed.

(** X4, what holds of C7. A comment of 72 bytes or more whose first line
    feed is at [i], with [0 < i < 72], has its first [i] bytes for title. *)
Theorem Title_first_line_of_long_comment (r : Revision) (i : Z) :
  (72 <= String.length (Comment r))%nat ->
  IndexByte (Comment r) (ascii_of_nat 10) = i ->
  0 < i < 72 ->
  Title r = substring 0 (Z.to_nat i) (Comment r).
Proof.
  intros Hlen Hi Hr. unfold Title.
  apply Nat.leb_le in Hlen. rewrite Hlen. apply Nat.leb_le in Hlen.
  assert (H72 : IndexByte (substring 0 72 (Comment r)) (ascii_of_nat 10) = i).
  { rewrite IndexByte_substring; [exact Hi|]. rewrite Hi. lia. }
  pose proof (substring_length 72 (Comment r) Hlen) as Hl72.
  destruct (72 <? String.length (Comment r))%nat.
  - rewrite IndexByte_append by (rewrite H72; lia). rewrite H72.
    assert (Hpos : (0 <? i) = true) by lia. rewrite Hpos.
    rewrite substring_append by (rewrite Hl72; lia).
    apply substring_substring. lia.
  - rewrite H72.
    assert (Hpos : (0 <? i) = true) by lia. rewrite Hpos.
    apply substring_substring. lia.
Qed.

Lemma Title_first_line_of_long_comment_witness :
  Title Sample.longComment = "Add tables".
Proof.
  apply (Title_first_line_of_long_comment Sample.longComment 10).
  - cbn. lia.
  - reflexivity.
  - lia.
Defined.

(** ** More of the specification *)

(** C3, at its failing input. With no revision at all [PerformRevisions]
    panics in [Slice], before its loop: the empty aggregate is not returned
    as nil. *)
Theorem PerformRevisions_of_no_revision_panics :
  PerformRevisions MemDB.quote MemDB.empty [] = Panics.
Proof. reflexivity. Qed.

(** X5. An ID that [UnmarshalRevision] accepts parses under the layout. *)
Theorem UnmarshalRevision_accepts_valid_ID (rd : Reader) (rev : Revision) :
  UnmarshalRevision rd = Returns (inl rev) -> validID (ID rev) = true.
Proof.
  unfold UnmarshalRevision, validID.
  destruct (readRunes (failure rd) initialDecoder (utf8.runes (content rd)))
    as [[d|err]|]; try discriminate.
  destruct (time.ParseUnix (ID (drev d))) eqn:Hp; [|discriminate].
  intros [= <-]. now rewrite Hp.
Qed.

Lemma UnmarshalRevision_accepts_valid_ID_witness :
  validID (ID Sample.documented) = true.
Proof.
  apply (UnmarshalRevision_accepts_valid_ID
           (readerOf (Revision_String Sample.documented))).
  reflexivity.
Defined.

(** X6. [Put] rejects a revision whose ID is empty or does not parse: it
    returns [ErrInvalid], and the collection, its length included, is the
    one it was. *)
Theorem Put_rejects_invalid_ID (c : Collection) (r : Revision) :
  validID (ID r) = false ->
  Put c r = (c, Some ErrInvalid) /\ Len (fst (Put c r)) = Len c.
Proof.
  intros Hv. rewrite (Put_invalid c r Hv). split; reflexivity.
Qed.

Lemma Put_rejects_invalid_ID_witness :
  Put (putAll [Sample.march]) Sample.bogus
  = (putAll [Sample.march], Some ErrInvalid)
  /\ Len (fst (Put (putAll [Sample.march]) Sample.bogus))
     = Len (putAll [Sample.march]).
Proof.
  apply (Put_rejects_invalid_ID (putAll [Sample.march]) Sample.bogus).
  reflexivity.
Defined.

(** ** Valid UTF-8 *)

Lemma land_pow2_small x y n :
  0 <= n -> 0 <= y < 2 ^ n -> x mod 2 ^ n = 0 -> Z.land x y = 0.
Proof.
  intros Hn Hy Hx. apply Z.bits_inj'. intros m Hm.
  rewrite Z.land_spec, Z.bits_0.
  destruct (Z.lt_ge_cases m n) as [Hlt|Hge].
  - assert (Hxm : x = (x / 2 ^ n) * 2 ^ n).
    { pose proof (Z.div_mod x (2 ^ n)) as Hd.
      assert (2 ^ n <> 0) by (apply Z.pow_nonzero; lia). lia. }
    rewrite Hxm, Z.mul_pow2_bits_low by exact Hlt. reflexivity.
  - assert (Hym : Z.testbit y m = false).
    { destruct (Z.eq_dec y 0) as [->|Hy0]; [apply Z.bits_0|].
      apply Z.bits_above_log2; [lia|].
      assert (Z.log2 y < n) by (apply Z.log2_lt_pow2; lia). lia. }
    rewrite Hym. apply Bool.andb_false_r.
Qed.

Lemma lor_add_disjoint x y n :
  0 <= n -> 0 <= y < 2 ^ n -> x mod 2 ^ n = 0 -> Z.lor x y = x + y.
Proof.
  intros Hn Hy Hx.
  pose proof (Z.add_lor_land x y) as H.
  rewrite (land_pow2_small x y n Hn Hy Hx) in H. lia.
Qed.

Lemma land_mask x n : 0 <= n -> Z.land x (2 ^ n - 1) = x mod 2 ^ n.
Proof.
  intros Hn. rewrite <- Z.land_ones by exact Hn.
  f_equal. rewrite Z.ones_equiv. lia.
Qed.

Lemma land_63 x : Z.land x 63 = x mod 64.
Proof. exact (land_mask x 6 ltac:(lia)). Qed.
Lemma land_31 x : Z.land x 31 = x mod 32.
Proof. exact (land_mask x 5 ltac:(lia)). Qed.
Lemma land_15 x : Z.land x 15 = x mod 16.
Proof. exact (land_mask x 4 ltac:(lia)). Qed.
Lemma land_7 x : Z.land x 7 = x mod 8.
Proof. exact (land_mask x 3 ltac:(lia)). Qed.

Lemma decode2_arith p0 b1 :
  Z.lor (Z.shiftl (Z.land p0 31) 6) (Z.land b1 63)
  = (p0 mod 32) * 64 + b1 mod 64.
Proof.
  rewrite land_31, land_63.
  rewrite Z.shiftl_mul_pow2 by lia.
  change (2 ^ 5) with 32. change (2 ^ 6) with 64.
  apply (lor_add_disjoint _ _ 6); [lia| |].
  - change (2 ^ 6) with 64. apply Z.mod_pos_bound. lia.
  - change (2 ^ 6) with 64. apply Z.mod_mul. lia.
Qed.

Lemma decode3_arith p0 b1 b2 :
  Z.lor (Z.lor (Z.shiftl (Z.land p0 15) 12) (Z.shiftl (Z.land b1 63) 6))
        (Z.land b2 63)
  = ((p0 mod 16) * 64 + b1 mod 64) * 64 + b2 mod 64.
Proof.
  rewrite land_15, !land_63.
  rewrite !Z.shiftl_mul_pow2 by lia.
  change (2 ^ 6) with 64. change (2 ^ 12) with 4096.
  pose proof (Z.mod_pos_bound b1 64 ltac:(lia)).
  pose proof (Z.mod_pos_bound b2 64 ltac:(lia)).
  rewrite (lor_add_disjoint (p0 mod 16 * 4096) (b1 mod 64 * 64) 12);
    [| lia | change (2 ^ 12) with 4096; lia
     | change (2 ^ 12) with 4096; apply Z.mod_mul; lia].
  replace (p0 mod 16 * 4096 + b1 mod 64 * 64)
    with ((p0 mod 16 * 64 + b1 mod 64) * 64) by lia.
  apply (lor_add_disjoint _ _ 6); [lia | exact H0 | apply Z.mod_mul; lia].
Qed.

Lemma decode4_arith p0 b1 b2 b3 :
  Z.lor (Z.lor (Z.lor (Z.shiftl (Z.land p0 7) 18)
                      (Z.shiftl (Z.land b1 63) 12))
               (Z.shiftl (Z.land b2 63) 6))
        (Z.land b3 63)
  = (((p0 mod 8) * 64 + b1 mod 64) * 64 + b2 mod 64) * 64 + b3 mod 64.
Proof.
  rewrite land_7, !land_63.
  rewrite !Z.shiftl_mul_pow2 by lia.
  change (2 ^ 6) with 64. change (2 ^ 12) with 4096.
  change (2 ^ 18) with 262144.
  pose proof (Z.mod_pos_bound b1 64 ltac:(lia)).
  pose proof (Z.mod_pos_bound b2 64 ltac:(lia)).
  pose proof (Z.mod_pos_bound b3 64 ltac:(lia)).
  rewrite (lor_add_disjoint (p0 mod 8 * 262144) (b1 mod 64 * 4096) 18);
    [| lia | change (2 ^ 18) with 262144; lia
     | change (2 ^ 18) with 262144; apply Z.mod_mul; lia].
  replace (p0 mod 8 * 262144 + b1 mod 64 * 4096)
    with ((p0 mod 8 * 64 + b1 mod 64) * 4096) by lia.
  rewrite (lor_add_disjoint ((p0 mod 8 * 64 + b1 mod 64) * 4096)
                            (b2 mod 64 * 64) 12);
    [| lia | change (2 ^ 12) with 4096; lia
     | change (2 ^ 12) with 4096; apply Z.mod_mul; lia].
  replace ((p0 mod 8 * 64 + b1 mod 64) * 4096 + b2 mod 64 * 64)
    with (((p0 mod 8 * 64 + b1 mod 64) * 64 + b2 mod 64) * 64) by lia.
  apply (lor_add_disjoint _ _ 6); [lia | exact H1 | apply Z.mod_mul; lia].
Qed.

(** The byte [t | x] of an encoding: the tag [t] above the [n] bits of [x]. *)
Lemma tag_arith t x n :
  0 <= n -> 0 <= x < 2 ^ n -> t mod 2 ^ n = 0 -> Z.lor t x = t + x.
Proof. intros. now apply (lor_add_disjoint t x n). Qed.

Ltac zdm := Z.div_mod_to_equations; lia.

Lemma byte_tag t x n :
  0 <= n -> 0 <= x < 2 ^ n -> t mod 2 ^ n = 0 -> Z.lor t x = t + x.
Proof. intros. now apply (lor_add_disjoint t x n). Qed.

Lemma cont_byte x : Z.lor 128 (Z.land x 63) = 128 + x mod 64.
Proof.
  rewrite land_63. apply (byte_tag 128 _ 7); [lia| |reflexivity].
  change (2 ^ 7) with 128. zdm.
Qed.

Lemma EncodeRune_2 c0 c1 :
  194 <= byteVal c0 <= 223 -> 128 <= byteVal c1 <= 191 ->
  utf8.EncodeRune ((byteVal c0 mod 32) * 64 + byteVal c1 mod 64) = [c0; c1].
Proof.
  intros H0 H1. unfold utf8.EncodeRune.
  set (r := (byteVal c0 mod 32) * 64 + byteVal c1 mod 64).
  assert (Hr : r = (byteVal c0 - 192) * 64 + (byteVal c1 - 128)) by (unfold r; zdm).
  assert (T1 : (0 <=? r) && (r <=? 127) = false) by lia.
  assert (T2 : (0 <=? r) && (r <=? 2047) = true) by lia.
  rewrite T1, T2, cont_byte, Z.shiftr_div_pow2 by lia.
  change (2 ^ 6) with 64.
  rewrite (byte_tag 192 (r / 64) 6); [|lia|change (2 ^ 6) with 64; zdm|reflexivity].
  replace (192 + r / 64) with (byteVal c0) by zdm.
  replace (128 + r mod 64) with (byteVal c1) by zdm.
  now rewrite !byteOf_byteVal.
Qed.

Lemma EncodeRune_3 c0 c1 c2 :
  224 <= byteVal c0 <= 239 ->
  128 <= byteVal c1 <= 191 ->
  (byteVal c0 = 224 -> 160 <= byteVal c1) ->
  (byteVal c0 = 237 -> byteVal c1 <= 159) ->
  128 <= byteVal c2 <= 191 ->
  utf8.EncodeRune (((byteVal c0 mod 16) * 64 + byteVal c1 mod 64) * 64
                   + byteVal c2 mod 64)
  = [c0; c1; c2].
Proof.
  intros H0 H1 Hlo Hhi H2. unfold utf8.EncodeRune, utf8.MaxRune, utf8.RuneError.
  set (r := ((byteVal c0 mod 16) * 64 + byteVal c1 mod 64) * 64
            + byteVal c2 mod 64).
  assert (Hr : r = ((byteVal c0 - 224) * 64 + (byteVal c1 - 128)) * 64
                   + (byteVal c2 - 128)) by (unfold r; zdm).
  assert (T1 : (0 <=? r) && (r <=? 127) = false) by lia.
  assert (T2 : (0 <=? r) && (r <=? 2047) = false) by lia.
  assert (T3 : (r <? 0) || (1114111 <? r) || ((55296 <=? r) && (r <=? 57343))
               = false) by lia.
  assert (T4 : (r <=? 65535) = true) by lia.
  rewrite T1, T2, T3, T4, !cont_byte, !Z.shiftr_div_pow2 by lia.
  change (2 ^ 6) with 64. change (2 ^ 12) with 4096.
  rewrite (byte_tag 224 (r / 4096) 5);
    [|lia|change (2 ^ 5) with 32; zdm|reflexivity].
  replace (224 + r / 4096) with (byteVal c0) by zdm.
  replace (128 + (r / 64) mod 64) with (byteVal c1) by zdm.
  replace (128 + r mod 64) with (byteVal c2) by zdm.
  now rewrite !byteOf_byteVal.
Qed.

Lemma EncodeRune_4 c0 c1 c2 c3 :
  240 <= byteVal c0 <= 244 ->
  128 <= byteVal c1 <= 191 ->
  (byteVal c0 = 240 -> 144 <= byteVal c1) ->
  (byteVal c0 = 244 -> byteVal c1 <= 143) ->
  128 <= byteVal c2 <= 191 ->
  128 <= byteVal c3 <= 191 ->
  utf8.EncodeRune ((((byteVal c0 mod 8) * 64 + byteVal c1 mod 64) * 64
                    + byteVal c2 mod 64) * 64 + byteVal c3 mod 64)
  = [c0; c1; c2; c3].
Proof.
  intros H0 H1 Hlo Hhi H2 H3.
  unfold utf8.EncodeRune, utf8.MaxRune, utf8.RuneError.
  set (r := (((byteVal c0 mod 8) * 64 + byteVal c1 mod 64) * 64
             + byteVal c2 mod 64) * 64 + byteVal c3 mod 64).
  assert (Hr : r = (((byteVal c0 - 240) * 64 + (byteVal c1 - 128)) * 64
                    + (byteVal c2 - 128)) * 64 + (byteVal c3 - 128))
    by (unfold r; zdm).
  assert (T1 : (0 <=? r) && (r <=? 127) = false) by lia.
  assert (T2 : (0 <=? r) && (r <=? 2047) = false) by lia.
  assert (T3 : (r <? 0) || (1114111 <? r) || ((55296 <=? r) && (r <=? 57343))
               = false) by lia.
  assert (T4 : (r <=? 65535) = false) by lia.
  rewrite T1, T2, T3, T4, !cont_byte, !Z.shiftr_div_pow2 by lia.
  change (2 ^ 6) with 64. change (2 ^ 12) with 4096.
  change (2 ^ 18) with 262144.
  rewrite (byte_tag 240 (r / 262144) 4);
    [|lia|change (2 ^ 4) with 16; zdm|reflexivity].
  replace (240 + r / 262144) with (byteVal c0) by zdm.
  replace (128 + (r / 4096) mod 64) with (byteVal c1) by zdm.
  replace (128 + (r / 64) mod 64) with (byteVal c2) by zdm.
  replace (128 + r mod 64) with (byteVal c3) by zdm.
  now rewrite !byteOf_byteVal.
Qed.

Lemma lead_cases p0 sz lo hi :
  utf8.lead p0 = Some (sz, lo, hi) ->
  (sz = 2%nat /\ 194 <= p0 <= 223 /\ lo = 128 /\ hi = 191)
  \/ (sz = 3%nat /\ 224 <= p0 <= 239 /\ 128 <= lo /\ hi <= 191
      /\ (p0 = 224 -> lo = 160) /\ (p0 = 237 -> hi = 159))
  \/ (sz = 4%nat /\ 240 <= p0 <= 244 /\ 128 <= lo /\ hi <= 191
      /\ (p0 = 240 -> lo = 144) /\ (p0 = 244 -> hi = 143)).
Proof.
  unfold utf8.lead.
  repeat match goal with
  | |- context [if ?b then _ else _] => destruct b eqn:?
  end; intros [= <- <- <-];
    first [ left; repeat split; lia
          | right; left; repeat split; lia
          | right; right; repeat split; lia ].
Qed.

Lemma continuation_range b :
  negb (utf8.continuation b) = false -> 128 <= b <= 191.
Proof. unfold utf8.continuation. lia. Qed.

(** A rune that is decoded without error is encoded as the bytes it was
    decoded from. *)
Lemma DecodeRune_encode c p :
  (fst (utf8.DecodeRune (c :: p)) =? utf8.RuneError)
  && (snd (utf8.DecodeRune (c :: p)) =? 1)%nat = false ->
  utf8.EncodeRune (fst (utf8.DecodeRune (c :: p)))
  = firstn (snd (utf8.DecodeRune (c :: p))) (c :: p).
Proof.
  unfold utf8.DecodeRune, utf8.RuneSelf.
  destruct (byteVal c <? 128) eqn:Hc.
  { intros _. cbn [fst snd firstn]. apply EncodeRune_ascii. lia. }
  destruct (utf8.lead (byteVal c)) as [[[sz lo] hi]|] eqn:Hl;
    [|cbn; discriminate].
  destruct (List.length (c :: p) <? sz)%nat; [cbn; discriminate|].
  destruct p as [|c1 p]; [cbn; discriminate|].
  destruct ((byteVal c1 <? lo) || (hi <? byteVal c1)) eqn:H1; [cbn; discriminate|].
  apply lead_cases in Hl.
  destruct Hl as [(-> & H0 & -> & ->)
                 |[(-> & H0 & Hlo & Hhi & Ha & Hb)
                  |(-> & H0 & Hlo & Hhi & Ha & Hb)]];
    cbn [Nat.leb].
  - intros _. cbn [fst snd firstn]. rewrite decode2_arith.
    apply EncodeRune_2; lia.
  - destruct p as [|c2 p]; [cbn; discriminate|].
    destruct (negb (utf8.continuation (byteVal c2))) eqn:H2; [cbn; discriminate|].
    apply continuation_range in H2.
    intros _. cbn [fst snd firstn]. rewrite decode3_arith.
    apply EncodeRune_3; lia.
  - destruct p as [|c2 p]; [cbn; discriminate|].
    destruct (negb (utf8.continuation (byteVal c2))) eqn:H2; [cbn; discriminate|].
    apply continuation_range in H2.
    destruct p as [|c3 p]; [cbn; discriminate|].
    destruct (negb (utf8.continuation (byteVal c3))) eqn:H3; [cbn; discriminate|].
    apply continuation_range in H3.
    intros _. cbn [fst snd firstn]. rewrite decode4_arith.
    apply EncodeRune_4; lia.
Qed.

Lemma validFrom_encode p :
  forall skip, (skip <= List.length p)%nat ->
  utf8.validFrom p skip = true ->
  utf8.encode (utf8.runesFrom p skip) = skipn skip p.
Proof.
  induction p as [|c p IH]; intros skip Hskip Hv.
  - now destruct skip.
  - destruct skip as [|k].
    + cbn [utf8.validFrom utf8.runesFrom skipn] in *.
      pose proof (DecodeRune_size c p) as Hsz.
      pose proof (DecodeRune_encode c p) as He.
      destruct (utf8.DecodeRune (c :: p)) as [r size].
      cbn [fst snd] in *.
      destruct ((r =? utf8.RuneError) && (size =? 1)%nat); [discriminate|].
      unfold utf8.encode in *. cbn [flat_map].
      rewrite He by reflexivity. rewrite IH by (lia || exact Hv).
      destruct size as [|n]; [lia|].
      cbn [firstn Nat.sub]. rewrite Nat.sub_0_r.
      cbn [app]. f_equal. apply firstn_skipn.
    + cbn [utf8.validFrom utf8.runesFrom skipn] in *.
      cbn [List.length] in Hskip. apply IH; [lia|exact Hv].
Qed.

(** A string that [utf8.ValidString] accepts is the encoding of its runes. *)
Lemma ValidString_validUTF8 s : utf8.ValidString s = true -> validUTF8 s.
Proof.
  unfold utf8.ValidString, validUTF8, string_of_runes, utf8.runes. intros Hv.
  rewrite (validFrom_encode _ 0%nat) by (lia || exact Hv).
  cbn [skipn]. apply string_of_list_ascii_of_string.
Qed.

(** The two bytes of U+00E9 are valid and are read as one rune; a lone
    continuation byte is not valid. *)
Example ValidString_two_bytes :
  let s := String (ascii_of_nat 195) (String (ascii_of_nat 169) EmptyString) in
  utf8.ValidString s = true /\ utf8.runes s = [233].
Proof. split; reflexivity. Qed.

Example ValidString_rejects_continuation :
  utf8.ValidString (String (ascii_of_nat 169) EmptyString) = false.
Proof. reflexivity. Qed.

(** ** The collection as a search tree *)

Lemma Forall_inorder_insertNode (P : keyed -> Prop) n v r :
  P (v, r) -> Forall P (inorder n) -> Forall P (inorder (insertNode n v r)).
Proof.
  intros Hx. induction n as [|nv nr l IHl rt IHr]; intros Hn;
    cbn [insertNode inorder] in *.
  - constructor; [exact Hx|constructor].
  - apply Forall_app in Hn. destruct Hn as [Hl Hr].
    inversion Hr as [|? ? Hnv Hrt]; subst.
    destruct (v <? nv); cbn [inorder]; apply Forall_app; split; auto.
Qed.

Lemma length_inorder_insertNode n v r :
  List.length (inorder (insertNode n v r)) = S (List.length (inorder n)).
Proof.
  induction n as [|nv nr l IHl rt IHr]; cbn [insertNode inorder];
    [reflexivity|].
  destruct (v <? nv); cbn [inorder];
    rewrite !length_app; cbn [List.length]; rewrite ?IHl, ?IHr; lia.
Qed.

Lemma searchTree_insertNode n v r :
  searchTree n -> searchTree (insertNode n v r).
Proof.
  induction n as [|nv nr l IHl rt IHr]; cbn [insertNode searchTree].
  - intros _. cbn [inorder]. repeat split; constructor.
  - intros (Hl & Hr & Sl & Sr).
    destruct (v <? nv) eqn:Hlt; cbn [searchTree]; repeat split; auto.
    + apply Forall_inorder_insertNode; [|exact Hl].
      apply Z.ltb_lt in Hlt. exact Hlt.
    + apply Forall_inorder_insertNode; [|exact Hr].
      apply Z.ltb_ge in Hlt. exact Hlt.
Qed.

Lemma sorted_app_intro (l : list keyed) y l' :
  StronglySorted keyLe l -> StronglySorted keyLe l' ->
  Forall (fun a => fst a <= fst y) l -> Forall (fun a => fst y <= fst a) l' ->
  StronglySorted keyLe (l ++ y :: l').
Proof.
  intros Hl Hl' Hle Hge. induction Hl as [|a l Hs IH Ha]; cbn [app].
  - constructor; [exact Hl'|exact Hge].
  - inversion Hle as [|? ? Hay Hle']; subst.
    constructor; [now apply IH|].
    apply Forall_app. split; [exact Ha|].
    constructor; [exact Hay|].
    eapply Forall_impl; [|exact Hge]. unfold keyLe. intros; lia.
Qed.

Lemma searchTree_sorted n : searchTree n -> StronglySorted keyLe (inorder n).
Proof.
  induction n as [|nv nr l IHl rt IHr]; cbn [searchTree inorder].
  - intros _. constructor.
  - intros (Hl & Hr & Sl & Sr). apply sorted_app_intro; auto.
    eapply Forall_impl; [|exact Hl]. cbn [fst]. intros; lia.
Qed.

(** X7. [Put] keeps a collection well formed: the tree stays a search tree
    whose values are the Unix times of the IDs, and [len] stays the number
    of its nodes, as long as it does not overflow. *)
Theorem Put_keeps_wellFormed (c : Collection) (r : Revision) :
  len c < 2 ^ 63 - 1 ->
  wellFormed c ->
  wellFormed (fst (Put c r)).
Proof.
  intros Hlen (Hs & Hk & Hn).
  destruct (validRevision r) eqn:Hv.
  - rewrite (Put_valid _ _ Hv). cbn [fst]. unfold wellFormed. cbn [root len].
    repeat split.
    + now apply searchTree_insertNode.
    + now apply Forall_inorder_insertNode.
    + rewrite length_inorder_insertNode, Nat2Z.inj_succ, <- Hn.
      unfold wrap_int.
      change (2 ^ 63) with 9223372036854775808 in *.
      change (2 ^ 64) with 18446744073709551616.
      rewrite Z.mod_small; lia.
  - rewrite (Put_invalid _ _ Hv). cbn [fst]. repeat split; assumption.
Qed.

Lemma Put_keeps_wellFormed_witness :
  wellFormed (fst (Put (putAll [Sample.march; Sample.january]) Sample.february)).
Proof.
  apply (Put_keeps_wellFormed (putAll [Sample.march; Sample.january])
                              Sample.february).
  - reflexivity.
  - cbv [wellFormed]. repeat split; cbn; repeat constructor; cbn; lia.
Defined.

(** ** The order of revisions of equal time *)

Lemma filter_key_insertSorted t x l :
  StronglySorted keyLe l ->
  filter (fun y : keyed => fst y =? t) (insertSorted x l)
  = if fst x =? t
    then filter (fun y : keyed => fst y =? t) l ++ [x]
    else filter (fun y : keyed => fst y =? t) l.
Proof.
  induction 1 as [|a l Hs IH Ha]; cbn [insertSorted filter].
  - destruct (fst x =? t); reflexivity.
  - destruct (fst x <? fst a) eqn:Hlt.
    + apply Z.ltb_lt in Hlt. cbn [filter].
      destruct (fst x =? t) eqn:Hx; [|reflexivity].
      apply Z.eqb_eq in Hx.
      assert (Ha' : (fst a =? t) = false) by (apply Z.eqb_neq; lia).
      rewrite Ha'.
      assert (Hnil : filter (fun y : keyed => fst y =? t) l = []).
      { clear IH Hs. induction l as [|b l IHl]; [reflexivity|].
        inversion Ha as [|? ? Hab Hal]; subst. cbn [filter].
        unfold keyLe in Hab.
        assert (Hb : (fst b =? fst x) = false) by (apply Z.eqb_neq; lia).
        rewrite Hb. now apply IHl. }
      now rewrite Hnil.
    + cbn [filter]. rewrite IH.
      destruct (fst a =? t), (fst x =? t); reflexivity.
Qed.

Lemma filter_key_fold t (l : list Revision) :
  forall acc, StronglySorted keyLe acc ->
  filter (fun y : keyed => fst y =? t)
         (fold_left (fun acc r => insertSorted (unixOf r, r) acc) l acc)
  = filter (fun y : keyed => fst y =? t) acc
    ++ map (fun r => (unixOf r, r)) (filter (fun r => unixOf r =? t) l).
Proof.
  induction l as [|r l IH]; intros acc Hs; cbn [fold_left filter map].
  - now rewrite app_nil_r.
  - rewrite IH by now apply insertSorted_sorted.
    rewrite filter_key_insertSorted by exact Hs. cbn [fst].
    destruct (unixOf r =? t); cbn [map]; [|reflexivity].
    now rewrite <- app_assoc.
Qed.

Lemma filter_map_snd_key t (l : list keyed) :
  Forall (fun x => fst x = unixOf (snd x)) l ->
  filter (fun r => unixOf r =? t) (map snd l)
  = map snd (filter (fun y : keyed => fst y =? t) l).
Proof.
  induction 1 as [|x l Hx _ IH]; cbn [map filter]; [reflexivity|].
  rewrite <- Hx. destruct (fst x =? t); cbn [map]; now rewrite IH.
Qed.

Lemma filter_atTime t revs :
  filter (fun r => unixOf r =? t) (filter validRevision revs)
  = filter (atTime t) revs.
Proof.
  induction revs as [|r revs IH]; cbn [filter]; [reflexivity|].
  unfold atTime at 1.
  destruct (validRevision r); cbn [filter andb]; [|exact IH].
  destruct (unixOf r =? t); now rewrite IH.
Qed.

(** X8. The order of [Slice] is stable: the revisions whose IDs stand for
    the same Unix time (IDs that differ in their fraction of a second only,
    or the same revision put twice) come out in the order they were put. *)
Theorem Slice_keeps_order_of_equal_times (revs : list Revision) (t : Z) :
  Z.of_nat (List.length revs) < 2 ^ 63 ->
  (exists r, In r revs /\ validRevision r = true) ->
  exists l,
    Slice (putAll revs) = Returns l
    /\ filter (fun r => unixOf r =? t) l = filter (atTime t) revs.
Proof.
  intros Hb (r & Hin & Hv).
  exists (map snd (sortRevisions revs)). split.
  - rewrite Slice_putAll by exact Hb.
    destruct (filter validRevision revs) eqn:Hf; [|reflexivity].
    assert (Hf' : In r (filter validRevision revs)) by (apply filter_In; auto).
    rewrite Hf in Hf'. contradiction.
  - rewrite filter_map_snd_key by apply sortRevisions_key.
    unfold sortRevisions. rewrite filter_key_fold by constructor.
    cbn [filter app]. rewrite map_map. cbn [snd]. rewrite map_id.
    apply filter_atTime.
Qed.

Lemma Slice_keeps_order_of_equal_times_witness :
  exists l,
    Slice (putAll [Sample.february; Sample.january; Sample.noop]) = Returns l
    /\ filter (fun r => unixOf r =? 1704067200) l
       = filter (atTime 1704067200)
                [Sample.february; Sample.january; Sample.noop].
Proof.
  apply (Slice_keeps_order_of_equal_times
           [Sample.february; Sample.january; Sample.noop] 1704067200).
  - reflexivity.
  - exists Sample.january. split; [right; left; reflexivity|reflexivity].
Defined.

Lemma insertSorted_split x l :
  StronglySorted keyLe l ->
  exists l1 l2,
    l = l1 ++ l2 /\ insertSorted x l = l1 ++ x :: l2
    /\ Forall (fun a => fst a <= fst x) l1
    /\ Forall (fun a => fst x < fst a) l2.
Proof.
  induction 1 as [|a l Hs IH Ha]; cbn [insertSorted].
  - exists [], []. repeat split; constructor.
  - destruct (fst x <? fst a) eqn:Hlt.
    + apply Z.ltb_lt in Hlt. exists [], (a :: l). repeat split.
      * constructor.
      * constructor; [exact Hlt|].
        eapply Forall_impl; [|exact Ha]. unfold keyLe. intros; lia.
    + apply Z.ltb_ge in Hlt.
      destruct IH as (l1 & l2 & -> & -> & H1 & H2).
      exists (a :: l1), l2. repeat split; auto.
Qed.

(** X9. [Put] on a well-formed collection inserts the revision after the
    revisions that are not later than it and before those that are: the
    slice afterwards is the sequence of the revisions before, with the new
    one at that place. *)
Theorem Put_inserts_by_time (c : Collection) (r : Revision) :
  len c < 2 ^ 63 - 1 ->
  wellFormed c ->
  validID (ID r) = true ->
  exists l1 l2,
    map snd (inorder (root c)) = l1 ++ l2
    /\ Forall (fun a => unixOf a <= unixOf r) l1
    /\ Forall (fun a => unixOf r < unixOf a) l2
    /\ Put c r = (fst (Put c r), None)
    /\ Slice (fst (Put c r)) = Returns (l1 ++ r :: l2).
Proof.
  intros Hlen (Hs & Hk & Hn) Hv.
  rewrite (Put_valid c r Hv). cbn [fst].
  pose proof (searchTree_sorted _ Hs) as Hsorted.
  destruct (insertSorted_split (unixOf r, r) _ Hsorted)
    as (k1 & k2 & Hl & Hins & H1 & H2).
  exists (map snd k1), (map snd k2).
  rewrite Hl in Hk. apply Forall_app in Hk. destruct Hk as [Hk1 Hk2].
  repeat split.
  - now rewrite Hl, map_app.
  - apply Forall_forall. intros a Ha. apply in_map_iff in Ha.
    destruct Ha as (y & <- & Hy). rewrite Forall_forall in H1, Hk1.
    rewrite <- (Hk1 y Hy). exact (H1 y Hy).
  - apply Forall_forall. intros a Ha. apply in_map_iff in Ha.
    destruct Ha as (y & <- & Hy). rewrite Forall_forall in H2, Hk2.
    rewrite <- (Hk2 y Hy). exact (H2 y Hy).
  - rewrite Slice_inorder.
    + cbn [root]. rewrite inorder_insertNode by exact Hsorted.
      rewrite Hins.
      replace (map snd k1 ++ r :: map snd k2)
        with (map snd (k1 ++ (unixOf r, r) :: k2))
        by (now rewrite map_app).
      destruct k1; reflexivity.
    + cbn [len]. unfold wrap_int.
      change (2 ^ 63) with 9223372036854775808 in *.
      change (2 ^ 64) with 18446744073709551616.
      rewrite Z.mod_small; lia.
Qed.

Lemma Put_inserts_by_time_witness :
  exists l1 l2,
    map snd (inorder (root (putAll [Sample.march; Sample.january]))) = l1 ++ l2
    /\ Forall (fun a => unixOf a <= unixOf Sample.february) l1
    /\ Forall (fun a => unixOf Sample.february < unixOf a) l2
    /\ Put (putAll [Sample.march; Sample.january]) Sample.february
       = (fst (Put (putAll [Sample.march; Sample.january]) Sample.february), None)
    /\ Slice (fst (Put (putAll [Sample.march; Sample.january]) Sample.february))
       = Returns (l1 ++ Sample.february :: l2).
Proof.
  apply (Put_inserts_by_time (putAll [Sample.march; Sample.january])
                             Sample.february).
  - reflexivity.
  - cbv [wellFormed]. repeat split; cbn; repeat constructor; cbn; lia.
  - reflexivity.
Defined.

(** ** The batch and the order of its arguments *)

Lemma NoDup_map_inj {A B : Type} (f : A -> B) (l : list A) x y :
  NoDup (map f l) -> In x l -> In y l -> f x = f y -> x = y.
Proof.
  induction l as [|a l IH]; cbn [map]; intros Hnd Hx Hy Hf; [contradiction|].
  inversion Hnd as [|? ? Hna Hnd']; subst.
  destruct Hx as [<-|Hx], Hy as [<-|Hy].
  - reflexivity.
  - exfalso. apply Hna. rewrite Hf. now apply in_map.
  - exfalso. apply Hna. rewrite <- Hf. now apply in_map.
  - now apply IH.
Qed.

(** Two sorted sequences of the same entries, no two of the same value,
    are the same sequence. *)
Lemma sorted_perm_unique (l1 : list keyed) :
  forall l2,
  StronglySorted keyLe l1 -> StronglySorted keyLe l2 ->
  Permutation l1 l2 -> NoDup (map fst l1) -> l1 = l2.
Proof.
  induction l1 as [|a l1 IH]; intros l2 H1 H2 Hp Hnd.
  - apply Permutation_nil in Hp. now subst.
  - destruct l2 as [|b l2].
    { symmetry in Hp. apply Permutation_nil in Hp. discriminate. }
    inversion H1 as [|? ? Hs1 Ha]; subst.
    inversion H2 as [|? ? Hs2 Hb]; subst.
    assert (Hab : a = b).
    { assert (Hina : In a (b :: l2))
        by (eapply Permutation_in; [exact Hp|now left]).
      assert (Hinb : In b (a :: l1))
        by (eapply Permutation_in; [symmetry; exact Hp|now left]).
      apply (NoDup_map_inj fst (a :: l1)); [exact Hnd|now left|exact Hinb|].
      rewrite Forall_forall in Ha, Hb. unfold keyLe in Ha, Hb.
      assert (fst a <= fst b)
        by (destruct Hinb as [<-|Hinb]; [lia|now apply Ha]).
      assert (fst b <= fst a)
        by (destruct Hina as [<-|Hina]; [lia|now apply Hb]).
      lia. }
    subst b. f_equal. apply IH; try assumption.
    + now apply Permutation_cons_inv in Hp.
    + cbn [map] in Hnd. now inversion Hnd.
Qed.

Lemma Permutation_filter {A : Type} (p : A -> bool) (l l' : list A) :
  Permutation l l' -> Permutation (filter p l) (filter p l').
Proof.
  induction 1 as [|x l l' _ IH|x y l|l l' l'' _ IH1 _ IH2]; cbn [filter].
  - constructor.
  - destruct (p x); [now constructor|exact IH].
  - destruct (p x), (p y); try reflexivity. apply perm_swap.
  - now transitivity (filter p l').
Qed.

Lemma sortRevisions_perm_keyed revs :
  Permutation (sortRevisions revs)
              (map (fun r => (unixOf r, r)) (filter validRevision revs)).
Proof.
  unfold sortRevisions.
  exact (fold_insertSorted_perm (filter validRevision revs) []).
Qed.

Lemma sortRevisions_Permutation revs revs' :
  Permutation revs revs' ->
  NoDup (map unixOf (filter validRevision revs)) ->
  sortRevisions revs = sortRevisions revs'.
Proof.
  intros Hp Hnd.
  apply sorted_perm_unique; try apply sortRevisions_sorted.
  - rewrite !sortRevisions_perm_keyed.
    apply Permutation_map. now apply Permutation_filter.
  - eapply Permutation_NoDup; [|exact Hnd].
    rewrite sortRevisions_perm_keyed, map_map. cbn [fst]. reflexivity.
Qed.

Section BatchOrder.

Context {W : Type} `{World W}.
Variable Quote : string -> string.

(** X10. The order in which the revisions are given to [PerformRevisions]
    does not matter when no two valid IDs stand for the same Unix time:
    the outcome (result, world, or panic) is the one of any rearrangement
    of the arguments. *)
Theorem PerformRevisions_any_order (db : W) (revs revs' : list Revision) :
  Z.of_nat (List.length revs) < 2 ^ 63 ->
  Permutation revs revs' ->
  NoDup (map unixOf (filter validRevision revs)) ->
  PerformRevisions Quote db revs = PerformRevisions Quote db revs'.
Proof.
  intros Hb Hp Hnd. unfold PerformRevisions.
  rewrite (Slice_putAll revs Hb).
  rewrite (Slice_putAll revs')
    by (rewrite <- (Permutation_length Hp); exact Hb).
  rewrite (sortRevisions_Permutation revs revs' Hp Hnd).
  pose proof (Permutation_length (Permutation_filter validRevision _ _ Hp)) as Hl.
  destruct (filter validRevision revs), (filter validRevision revs');
    try reflexivity; discriminate.
Qed.

End BatchOrder.

Lemma PerformRevisions_any_order_witness :
  PerformRevisions MemDB.quote Sample.afterJanuary
                   [Sample.april; Sample.bogus; Sample.february; Sample.january]
  = PerformRevisions MemDB.quote Sample.afterJanuary
                   [Sample.january; Sample.february; Sample.bogus; Sample.april].
Proof.
  apply (PerformRevisions_any_order MemDB.quote).
  - reflexivity.
  - apply Permutation_rev.
  - cbn. repeat constructor; cbn; intuition discriminate.
Defined.

(** ** Revisions without SQL in a batch *)

Lemma insertSorted_front x l :
  Forall (fun a => fst x < fst a) l -> insertSorted x l = x :: l.
Proof.
  destruct 1 as [|a l Ha _]; cbn [insertSorted]; [reflexivity|].
  apply Z.ltb_lt in Ha. now rewrite Ha.
Qed.

Lemma filter_insertSorted (p : keyed -> bool) x l :
  StronglySorted keyLe l ->
  filter p (insertSorted x l)
  = if p x then insertSorted x (filter p l) else filter p l.
Proof.
  induction 1 as [|a l Hs IH Ha]; cbn [insertSorted filter].
  - destruct (p x); reflexivity.
  - destruct (fst x <? fst a) eqn:Hlt; cbn [filter].
    + destruct (p x) eqn:Hpx; [|reflexivity].
      destruct (p a); cbn [insertSorted]; [now rewrite Hlt|].
      rewrite insertSorted_front; [reflexivity|].
      apply Z.ltb_lt in Hlt.
      apply Forall_forall. intros b Hb. apply filter_In in Hb.
      rewrite Forall_forall in Ha. pose proof (Ha b (proj1 Hb)) as Hab.
      unfold keyLe in Hab. lia.
    + rewrite IH. destruct (p a), (p x); cbn [insertSorted];
        rewrite ?Hlt; reflexivity.
Qed.

Lemma filter_sorted (p : keyed -> bool) l :
  StronglySorted keyLe l -> StronglySorted keyLe (filter p l).
Proof.
  induction 1 as [|a l Hs IH Ha]; cbn [filter]; [constructor|].
  destruct (p a); [|exact IH]. constructor; [exact IH|].
  apply Forall_forall. intros b Hb. apply filter_In in Hb.
  rewrite Forall_forall in Ha. now apply Ha.
Qed.

Lemma fold_insertSorted_filter (q : Revision -> bool) (l : list Revision) :
  forall acc, StronglySorted keyLe acc ->
  fold_left (fun acc r => insertSorted (unixOf r, r) acc) (filter q l)
            (filter (fun x => q (snd x)) acc)
  = filter (fun x => q (snd x))
           (fold_left (fun acc r => insertSorted (unixOf r, r) acc) l acc).
Proof.
  induction l as [|r l IH]; intros acc Hs; cbn [filter fold_left];
    [reflexivity|].
  rewrite <- IH by now apply insertSorted_sorted.
  rewrite filter_insertSorted by exact Hs. cbn [snd].
  destruct (q r); reflexivity.
Qed.

Lemma filter_comm {A : Type} (p q : A -> bool) l :
  filter p (filter q l) = filter q (filter p l).
Proof.
  induction l as [|a l IH]; cbn [filter]; [reflexivity|].
  destruct (p a) eqn:Hp, (q a) eqn:Hq; cbn [filter];
    rewrite ?Hp, ?Hq, IH; reflexivity.
Qed.

Lemma sortRevisions_filter q revs :
  sortRevisions (filter q revs)
  = filter (fun x => q (snd x)) (sortRevisions revs).
Proof.
  unfold sortRevisions. rewrite filter_comm.
  now rewrite <- fold_insertSorted_filter by constructor.
Qed.

Lemma filter_map_snd (q : Revision -> bool) (l : list keyed) :
  map snd (filter (fun x => q (snd x)) l) = filter q (map snd l).
Proof.
  induction l as [|a l IH]; cbn [filter map]; [reflexivity|].
  destruct (q (snd a)); cbn [map]; now rewrite IH.
Qed.

Lemma Slice_Returns c l :
  Slice c = Returns l -> l = map snd (inorder (root c)).
Proof.
  unfold Slice. destruct (len c <? 0); [discriminate|].
  destruct (root c) eqn:Hroot; [discriminate|].
  rewrite walk_inorder by discriminate. now intros [= <-].
Qed.

Section BatchFacts.

Context {W : Type} `{World W}.
Variable Quote : string -> string.

Lemma Perform_without_SQL db r :
  hasSQL r = false -> Perform Quote db r = (db, None).
Proof.
  unfold hasSQL, Perform. intros Hs.
  destruct (String.eqb (SQL r) ""); [reflexivity|discriminate].
Qed.

Lemma performLoop_filter_hasSQL revs :
  forall db errs,
  performLoop Quote db (filter hasSQL revs) errs
  = performLoop Quote db revs errs.
Proof.
  induction revs as [|r revs IH]; intros db errs; cbn [filter];
    [reflexivity|].
  destruct (hasSQL r) eqn:Hs; cbn [performLoop].
  - destruct (Perform Quote db r) as [db1 [e|]]; [|apply IH].
    destruct (errors_Is_ErrPerformed e); [apply IH|reflexivity].
  - rewrite (Perform_without_SQL db r Hs). apply IH.
Qed.

(** The errors [Perform] returns. *)
Lemma Perform_error db r db1 e :
  Perform Quote db r = (db1, Some e) ->
  SQL r <> ""
  /\ (e = ErrInvalid /\ validID (ID r) = false
      \/ e = RevisionError (ID r) ErrPerformed
      \/ (exists msg, e = RevisionError (ID r) (DriverError msg))
      \/ (exists msg, e = DriverError msg)).
Proof.
  unfold Perform, RevisionPerformed, validID.
  destruct (String.eqb (SQL r) "") eqn:Hs; [discriminate|].
  apply String.eqb_neq in Hs. intros Hp. split; [exact Hs|].
  destruct (time.ParseUnix (ID r)).
  - destruct (QueryRowScan db (countQuery (ID r))) as [d1 [msg|n]].
    + injection Hp as _ <-. right. right. left. now exists msg.
    + destruct (0 <? n).
      * injection Hp as _ <-. right. now left.
      * destruct (Exec d1 (SQL r)) as [d2 [msg|]].
        { injection Hp as _ <-. right. right. right. now exists msg. }
        destruct (NowUnix d2) as [d3 now].
        destruct (Exec d3 (insertQuery Quote r now)) as [d4 [msg|]];
          [|discriminate].
        injection Hp as _ <-. right. right. right. now exists msg.
  - injection Hp as _ <-. left. now split.
Qed.

Lemma Perform_error_performed db r db1 e :
  Perform Quote db r = (db1, Some e) ->
  errors_Is_ErrPerformed e = true ->
  e = RevisionError (ID r) ErrPerformed.
Proof.
  intros Hp He. destruct (Perform_error _ _ _ _ Hp) as [_ Hc].
  destruct Hc as [[-> _]|[->|[[msg ->]|[msg ->]]]];
    try discriminate; reflexivity.
Qed.

Lemma Perform_error_not_aggregate db r db1 es :
  Perform Quote db r <> (db1, Some (Errors es)).
Proof.
  intros Hp. destruct (Perform_error _ _ _ _ Hp) as [_ Hc].
  destruct Hc as [[Hc _]|[Hc|[[msg Hc]|[msg Hc]]]]; discriminate.
Qed.

(** The aggregate of the loop: the errors it began with, then one error
    for each of some of the revisions. *)
Lemma performLoop_aggregate revs :
  forall db errs db' es,
  performLoop Quote db revs errs = (db', Some (Errors es)) ->
  exists rs,
    incl rs (filter hasSQL revs)
    /\ es = errs ++ map (fun r => RevisionError (ID r) ErrPerformed) rs
    /\ es <> [].
Proof.
  induction revs as [|r revs IH]; intros db errs db' es; cbn [performLoop].
  - destruct errs as [|e errs]; cbn [Errors_err]; [discriminate|].
    intros [= <- <-]. exists []. cbn [map]. rewrite app_nil_r.
    repeat split; [apply incl_nil_l|discriminate].
  - destruct (Perform Quote db r) as [db1 [e|]] eqn:Hp.
    + destruct (errors_Is_ErrPerformed e) eqn:He.
      * intros Hl. destruct (IH _ _ _ _ Hl) as (rs & Hin & Hes & Hne).
        pose proof (Perform_error_performed _ _ _ _ Hp He) as ->.
        destruct (Perform_error _ _ _ _ Hp) as [Hs _].
        exists (r :: rs). cbn [map filter]. unfold hasSQL at 1.
        apply String.eqb_neq in Hs. rewrite Hs. cbn [negb].
        repeat split.
        -- apply incl_cons; [now left|]. now apply incl_tl.
        -- rewrite Hes, <- app_assoc. reflexivity.
        -- exact Hne.
      * intros [= <- ->]. exfalso. exact (Perform_error_not_aggregate _ _ _ _ Hp).
    + intros Hl. destruct (IH _ _ _ _ Hl) as (rs & Hin & -> & Hne).
      exists rs. repeat split; [|exact Hne].
      cbn [filter]. destruct (hasSQL r); [now apply incl_tl|exact Hin].
Qed.

Lemma performLoop_not_Is revs :
  forall db errs db' e,
  performLoop Quote db revs errs = (db', Some e) ->
  errors_Is_ErrPerformed e = false.
Proof.
  induction revs as [|r revs IH]; intros db errs db' e; cbn [performLoop].
  - destruct errs; cbn [Errors_err]; [discriminate|]. now intros [= _ <-].
  - destruct (Perform Quote db r) as [db1 [e1|]] eqn:Hp; [|apply IH].
    destruct (errors_Is_ErrPerformed e1) eqn:He; [apply IH|].
    now intros [= _ <-].
Qed.

Lemma Error_performed (rs : list Revision) :
  Error (Errors (map (fun r => RevisionError (ID r) ErrPerformed) rs))
  = fold_right
      (fun r text =>
         ("revision error " ++ ID r ++ ": revision performed" ++ LF ++ text)%string)
      "" rs.
Proof.
  induction rs as [|r rs IH]; [reflexivity|].
  cbn [map fold_right]. rewrite <- IH.
  change (Error (Errors (RevisionError (ID r) ErrPerformed
                         :: map (fun r1 => RevisionError (ID r1) ErrPerformed) rs)))
    with (((("revision error " ++ ID r ++ ": " ++ "revision performed") ++ LF)
           ++ Error (Errors (map (fun r1 => RevisionError (ID r1) ErrPerformed) rs)))%string).
  rewrite !append_assoc. reflexivity.
Qed.

(** X11. When [PerformRevisions] returns an aggregate, it holds one error
    for each of some of the revisions given, each of them valid and with
    SQL: the [RevisionError] of its ID that wraps [ErrPerformed]. The
    aggregate is not empty, and its text has one line for each of these
    revisions. *)
Theorem PerformRevisions_aggregate
  (db db' : W) (revs0 : list Revision) (es : list error) :
  PerformRevisions Quote db revs0 = Returns (db', Some (Errors es)) ->
  exists rs,
    Forall (fun r => In r revs0 /\ validID (ID r) = true /\ SQL r <> "") rs
    /\ rs <> []
    /\ es = map (fun r => RevisionError (ID r) ErrPerformed) rs
    /\ Error (Errors es)
       = fold_right
           (fun r text =>
              ("revision error " ++ ID r ++ ": revision performed" ++ LF ++ text)%string)
           "" rs.
Proof.
  unfold PerformRevisions.
  destruct (Slice (putAll revs0)) as [revs|] eqn:Hs; [|discriminate].
  intros [= Hl].
  destruct (performLoop_aggregate _ _ _ _ _ Hl) as (rs & Hin & Hes & Hne).
  cbn [app] in Hes. exists rs. repeat split.
  - apply Forall_forall. intros r Hr. apply Hin in Hr.
    apply filter_In in Hr. destruct Hr as [Hr Hsql].
    assert (Hv : In r (filter validRevision revs0)).
    { apply Slice_Returns in Hs. rewrite inorder_putAll in Hs. subst revs.
      eapply Permutation_in; [apply sortRevisions_perm|exact Hr]. }
    apply filter_In in Hv. destruct Hv as [Hv1 Hv2].
    repeat split; [exact Hv1|exact Hv2|].
    unfold hasSQL in Hsql. intros Hempty. rewrite Hempty in Hsql. discriminate.
  - intros ->. subst es. now apply Hne.
  - exact Hes.
  - rewrite Hes. apply Error_performed.
Qed.

(** X12. An error that [PerformRevisions] returns never satisfies
    [errors.Is(err, ErrPerformed)]: an error of [Perform] that does is put in
    the aggregate, and the aggregate, which has no [Unwrap], does not. *)
Theorem PerformRevisions_error_is_not_ErrPerformed
  (db db' : W) (revs0 : list Revision) (e : error) :
  PerformRevisions Quote db revs0 = Returns (db', Some e) ->
  errors_Is_ErrPerformed e = false.
Proof.
  unfold PerformRevisions.
  destruct (Slice (putAll revs0)) as [revs|]; [|discriminate].
  intros [= Hl]. exact (performLoop_not_Is _ _ _ _ _ Hl).
Qed.

(** X13. [PerformRevisions] passes over the revisions without SQL: as long
    as a valid revision with SQL is left, the outcome is the one of the
    batch without them. *)
Theorem PerformRevisions_skips_empty_SQL (db : W) (revs0 : list Revision) :
  Z.of_nat (List.length revs0) < 2 ^ 63 ->
  (exists r, In r revs0 /\ validRevision r = true /\ SQL r <> "") ->
  PerformRevisions Quote db revs0
  = PerformRevisions Quote db (filter hasSQL revs0).
Proof.
  intros Hb (r & Hin & Hv & Hsql). unfold PerformRevisions.
  assert (Hr : hasSQL r = true).
  { unfold hasSQL. apply String.eqb_neq in Hsql. now rewrite Hsql. }
  rewrite (Slice_putAll revs0 Hb).
  rewrite (Slice_putAll (filter hasSQL revs0)).
  2:{ pose proof (filter_length_le hasSQL revs0). lia. }
  assert (H1 : In r (filter validRevision revs0)) by (apply filter_In; auto).
  assert (H2 : In r (filter validRevision (filter hasSQL revs0))).
  { apply filter_In. split; [|exact Hv]. apply filter_In. auto. }
  destruct (filter validRevision revs0); [contradiction|].
  destruct (filter validRevision (filter hasSQL revs0)); [contradiction|].
  rewrite sortRevisions_filter, filter_map_snd.
  now rewrite performLoop_filter_hasSQL.
Qed.

End BatchFacts.

Lemma PerformRevisions_aggregate_witness :
  exists rs,
    Forall (fun r => In r [Sample.february; Sample.january]
                     /\ validID (ID r) = true /\ SQL r <> "") rs
    /\ rs <> []
    /\ [RevisionError "20240101000000" ErrPerformed]
       = map (fun r => RevisionError (ID r) ErrPerformed) rs
    /\ Error (Errors [RevisionError "20240101000000" ErrPerformed])
       = fold_right
           (fun r text =>
              ("revision error " ++ ID r ++ ": revision performed" ++ LF ++ text)%string)
           "" rs.
Proof.
  apply (PerformRevisions_aggregate MemDB.quote Sample.afterJanuary
           (MemDB.mk ["20240202000000"; "20240101000000"]
                     ["CREATE TABLE a(id INT);"; "CREATE TABLE b(id INT);"]
                     1700000002)
           [Sample.february; Sample.january]).
  reflexivity.
Defined.

Lemma PerformRevisions_error_is_not_ErrPerformed_witness :
  errors_Is_ErrPerformed (Errors [RevisionError "20240101000000" ErrPerformed])
  = false.
Proof.
  apply (PerformRevisions_error_is_not_ErrPerformed MemDB.quote
           Sample.afterJanuary
           (MemDB.mk ["20240202000000"; "20240101000000"]
                     ["CREATE TABLE a(id INT);"; "CREATE TABLE b(id INT);"]
                     1700000002)
           [Sample.february; Sample.january]).
  reflexivity.
Defined.

Lemma PerformRevisions_skips_empty_SQL_witness :
  PerformRevisions MemDB.quote MemDB.empty
                   [Sample.february; Sample.noop; Sample.january]
  = PerformRevisions MemDB.quote MemDB.empty
                   (filter hasSQL [Sample.february; Sample.noop; Sample.january]).
Proof.
  apply (PerformRevisions_skips_empty_SQL MemDB.quote).
  - reflexivity.
  - exists Sample.january. repeat split; [right; right; left; reflexivity|].
    discriminate.
Defined.

(** ** The calls of the engine *)

Section CallFacts.

Context {W : Type} `{World W}.
Variable Quote : string -> string.

(** [Perform] against the world with a log is [Perform] against the world
    underneath, and the log grows by the calls of one [Perform]. *)
Lemma Perform_logged (db : W) (log : list call) (r : Revision) :
  exists cs,
    Perform Quote (db, log) r
    = ((fst (Perform Quote db r), log ++ cs), snd (Perform Quote db r))
    /\ PerformCalls Quote r cs (snd (Perform Quote db r)).
Proof.
  unfold Perform, RevisionPerformed.
  destruct (String.eqb (SQL r) "") eqn:Hs.
  { exists []. rewrite app_nil_r. split; [reflexivity|].
    apply calls_no_SQL. now apply String.eqb_eq. }
  apply String.eqb_neq in Hs.
  destruct (time.ParseUnix (ID r)) as [t|] eqn:Hp.
  2:{ exists []. rewrite app_nil_r. split; [reflexivity|].
      apply calls_invalid_ID; [exact Hs|]. unfold validID. now rewrite Hp. }
  assert (Hv : validID (ID r) = true) by (unfold validID; now rewrite Hp).
  cbn [QueryRowScan Exec NowUnix logged_world].
  unfold Logged.queryRowScan, Logged.exec, Logged.nowUnix. cbn [fst snd].
  destruct (QueryRowScan db (countQuery (ID r))) as [d1 [msg|n]].
  { eexists. split; [reflexivity|]. now apply calls_query_failed. }
  destruct (0 <? n) eqn:Hn.
  { eexists. split; [reflexivity|].
    apply calls_already_performed; auto. now apply Z.ltb_lt. }
  apply Z.ltb_ge in Hn. cbn [fst snd].
  destruct (Exec d1 (SQL r)) as [d2 [msg|]].
  { eexists. split; [cbn [fst snd]; rewrite <- app_assoc; reflexivity|].
    now apply calls_SQL_failed. }
  cbn [fst snd].
  destruct (NowUnix d2) as [d3 now]. cbn [fst snd].
  destruct (Exec d3 (insertQuery Quote r now)) as [d4 [msg|]]; cbn [fst snd].
  - eexists. split; [rewrite <- !app_assoc; reflexivity|].
    now apply calls_insert_failed.
  - eexists. split; [rewrite <- !app_assoc; reflexivity|].
    now apply calls_performed.
Qed.

(** X14. What [Perform] asks of the database, in this order and nothing
    else: nothing for a revision without SQL or with an invalid ID; the
    COUNT query; the SQL, only when the query counted no row; the clock and
    the INSERT, only when the SQL was accepted. The result is nil for a
    revision with SQL only when the INSERT was accepted. Keeping the log
    changes neither the result nor the world underneath. *)
Theorem Perform_calls (db : W) (r : Revision) :
  (fst (fst (Perform Quote (db, []) r)), snd (Perform Quote (db, []) r))
  = Perform Quote db r
  /\ PerformCalls Quote r (snd (fst (Perform Quote (db, []) r)))
                  (snd (Perform Quote (db, []) r)).
Proof.
  destruct (Perform_logged db [] r) as (cs & -> & Hc).
  cbn [fst snd app]. split; [now rewrite <- surjective_pairing|exact Hc].
Qed.

Lemma performLoop_None revs :
  forall (db : W) errs db',
  performLoop Quote db revs errs = (db', None) -> errs = [].
Proof.
  induction revs as [|r revs IH]; intros db errs db'; cbn [performLoop].
  - destruct errs; [reflexivity|discriminate].
  - destruct (Perform Quote db r) as [db1 [e|]]; [|apply IH].
    destruct (errors_Is_ErrPerformed e); [|discriminate].
    intros Hl. apply IH in Hl. now destruct errs.
Qed.

(** The log of the loop: the calls of one [Perform] for each revision the
    loop comes to. *)
Lemma performLoop_logged revs :
  forall (db : W) log errs,
  exists chunks,
    performLoop Quote (db, log) revs errs
    = ((fst (performLoop Quote db revs errs), log ++ List.concat chunks),
       snd (performLoop Quote db revs errs))
    /\ Forall2 (fun r cs => exists e, PerformCalls Quote r cs e)
               (firstn (List.length chunks) revs) chunks
    /\ (snd (performLoop Quote db revs errs) = None ->
        Forall2 (fun r cs => PerformCalls Quote r cs None) revs chunks).
Proof.
  induction revs as [|r revs IH]; intros db log errs; cbn [performLoop].
  - exists []. cbn [List.concat]. rewrite app_nil_r.
    repeat split; constructor.
  - destruct (Perform_logged db log r) as (cs & -> & Hc).
    destruct (Perform Quote db r) as [db1 [e|]] eqn:Hp; cbn [fst snd] in *.
    + destruct (errors_Is_ErrPerformed e) eqn:He.
      * destruct (IH db1 (log ++ cs) (errs ++ [e])) as (chunks & -> & Hf & Hn).
        exists (cs :: chunks). cbn [List.concat List.length firstn].
        rewrite <- app_assoc. repeat split.
        -- constructor; [now exists (Some e)|exact Hf].
        -- intros Hnone. exfalso.
           destruct (performLoop Quote db1 revs (errs ++ [e])) as [d o] eqn:Hl.
           cbn [snd] in Hnone. subst o.
           apply performLoop_None in Hl. now destruct errs.
      * exists [cs]. cbn [List.concat List.length firstn fst snd].
        rewrite app_nil_r. repeat split; [|discriminate].
        constructor; [now exists (Some e)|constructor].
    + destruct (IH db1 (log ++ cs) errs) as (chunks & -> & Hf & Hn).
      exists (cs :: chunks). cbn [List.concat List.length firstn].
      rewrite <- app_assoc. repeat split.
      * constructor; [now exists None|exact Hf].
      * intros Hnone. constructor; [exact Hc|now apply Hn].
Qed.

Lemma performed_chunks revs chunks :
  Forall2 (fun r cs => PerformCalls Quote r cs None) revs chunks ->
  exists chunks',
    List.concat chunks = List.concat chunks'
    /\ Forall2 (fun r cs => exists n now,
                   n <= 0 /\ cs = performedCalls Quote r n now)
               (filter hasSQL revs) chunks'.
Proof.
  induction 1 as [|r cs revs chunks Hc _ IH]; cbn [filter].
  - exists []. split; [reflexivity|constructor].
  - destruct IH as (chunks' & Heq & Hf).
    inversion Hc as [Hs Hcs| | | | | |n now Hs Hv Hn Hcs]; subst.
    + assert (Hh : hasSQL r = false) by (unfold hasSQL; now rewrite Hs).
      rewrite Hh. exists chunks'. cbn [List.concat app]. now split.
    + assert (Hh : hasSQL r = true).
      { unfold hasSQL. apply String.eqb_neq in Hs. now rewrite Hs. }
      rewrite Hh. exists (performedCalls Quote r n now :: chunks').
      cbn [List.concat]. rewrite Heq. split; [reflexivity|].
      constructor; [|exact Hf]. now exists n, now.
Qed.

(** X15. When [PerformRevisions] returns nil, the calls it made are, for
    each revision with SQL of the slice of the collection in turn (the valid
    revisions in ascending order of time): the COUNT query, which counted no
    row, the SQL, the clock and the INSERT, each statement accepted. Each
    such revision was executed once and recorded, and nothing else was
    asked of the database. *)
Theorem PerformRevisions_success_calls
  (db db' : W) (revs0 : list Revision) (log : list call) :
  PerformRevisions Quote (db, []) revs0 = Returns ((db', log), None) ->
  exists revs chunks,
    Slice (putAll revs0) = Returns revs
    /\ log = List.concat chunks
    /\ Forall2 (fun r cs => exists n now,
                   n <= 0 /\ cs = performedCalls Quote r n now)
               (filter hasSQL revs) chunks.
Proof.
  unfold PerformRevisions.
  destruct (Slice (putAll revs0)) as [revs|]; [|discriminate].
  destruct (performLoop_logged revs db [] []) as (chunks & -> & _ & Hn).
  intros [= Hdb Hlog Hres]. cbn [app] in Hlog.
  destruct (performed_chunks _ _ (Hn Hres)) as (chunks' & Heq & Hf).
  exists revs, chunks'. repeat split; [congruence|exact Hf].
Qed.

Lemma PerformCalls_of_valid r cs e c :
  PerformCalls Quote r cs e -> In c cs ->
  SQL r <> "" /\ validID (ID r) = true
  /\ match c with
     | QueryRowScanCall q _ => q = countQuery (ID r)
     | ExecCall s _ => s = SQL r \/ exists now, s = insertQuery Quote r now
     | NowUnixCall _ => True
     end.
Proof.
  intros Hc Hin.
  inversion Hc; subst; cbn [In performedCalls] in Hin;
    repeat (destruct Hin as [<-|Hin]; [repeat split; eauto|]);
    contradiction.
Qed.

(** X16. Whatever its outcome, [PerformRevisions] asks the database only on
    behalf of revisions it was given that have a valid ID and SQL: each
    query is the COUNT query of such a revision, into which the ID goes as
    it is, all of its characters being digits, periods or commas; each
    statement executed is the SQL of such a revision or the INSERT that
    records it. *)
Theorem PerformRevisions_calls_of_valid_revisions
  (db db' : W) (revs0 : list Revision) (log : list call)
  (res : option error) (c : call) :
  PerformRevisions Quote (db, []) revs0 = Returns ((db', log), res) ->
  In c log ->
  exists r,
    In r revs0 /\ SQL r <> "" /\ validID (ID r) = true
    /\ Forall (fun a => idChar a = true) (list_ascii_of_string (ID r))
    /\ match c with
       | QueryRowScanCall q _ =>
           q = ("SELECT COUNT(id) FROM mgrt_revisions WHERE id = " ++ ID r)%string
       | ExecCall s _ => s = SQL r \/ exists now, s = insertQuery Quote r now
       | NowUnixCall _ => True
       end.
Proof.
  unfold PerformRevisions.
  destruct (Slice (putAll revs0)) as [revs|] eqn:Hs; [|discriminate].
  destruct (performLoop_logged revs db [] []) as (chunks & -> & Hf & _).
  intros [= _ <- _] Hin. cbn [app] in Hin.
  apply List.in_concat in Hin. destruct Hin as (cs & Hcs & Hc).
  assert (Hr : exists r, In r revs /\ exists e, PerformCalls Quote r cs e).
  { clear -Hf Hcs. remember (firstn (List.length chunks) revs) as rs eqn:Hrs.
    assert (Hincl : incl rs revs)
      by (subst rs; intros x Hx;
          rewrite <- (firstn_skipn (List.length chunks) revs);
          apply in_or_app; now left).
    clear Hrs. induction Hf as [|r0 cs0 rs chunks Hp _ IH].
    - contradiction.
    - destruct Hcs as [<-|Hcs].
      + exists r0. split; [apply Hincl; now left|exact Hp].
      + apply IH; [exact Hcs|]. intros x Hx. apply Hincl. now right. }
  destruct Hr as (r & Hr & e & Hp).
  destruct (PerformCalls_of_valid _ _ _ _ Hp Hc) as (Hsql & Hv & Hshape).
  exists r. repeat split; try assumption.
  - apply Slice_Returns in Hs. rewrite inorder_putAll in Hs. subst revs.
    assert (Hin : In r (filter validRevision revs0))
      by (eapply Permutation_in; [apply sortRevisions_perm|exact Hr]).
    apply filter_In in Hin. tauto.
  - unfold validID in Hv.
    destruct (time.ParseUnix (ID r)) as [t|] eqn:Hparse; [|discriminate].
    destruct (ParseUnix_shape _ _ Hparse) as (a & l & Hid & Hall & _).
    now rewrite Hid.
Qed.

End CallFacts.

Lemma PerformRevisions_success_calls_witness :
  exists revs chunks,
    Slice (putAll [Sample.february; Sample.noop; Sample.january]) = Returns revs
    /\ snd (fst (performLoop MemDB.quote (MemDB.empty, [])
                   [Sample.january; Sample.noop; Sample.february] []))
       = List.concat chunks
    /\ Forall2 (fun r cs => exists n now,
                   n <= 0 /\ cs = performedCalls MemDB.quote r n now)
               (filter hasSQL revs) chunks.
Proof.
  apply (PerformRevisions_success_calls MemDB.quote MemDB.empty
           (MemDB.mk ["20240202000000"; "20240101000000"]
                     ["CREATE TABLE a(id INT);"; "CREATE TABLE b(id INT);"]
                     1700000002)
           [Sample.february; Sample.noop; Sample.january]).
  reflexivity.
Defined.

Lemma PerformRevisions_calls_of_valid_revisions_witness :
  exists r,
    In r [Sample.bogus; Sample.january]
    /\ SQL r <> "" /\ validID (ID r) = true
    /\ Forall (fun a => idChar a = true) (list_ascii_of_string (ID r))
    /\ "SELECT COUNT(id) FROM mgrt_revisions WHERE id = 20240101000000"
       = ("SELECT COUNT(id) FROM mgrt_revisions WHERE id = " ++ ID r)%string.
Proof.
  apply (PerformRevisions_calls_of_valid_revisions MemDB.quote
           Sample.afterJanuary Sample.afterJanuary
           [Sample.bogus; Sample.january]
           [QueryRowScanCall
              "SELECT COUNT(id) FROM mgrt_revisions WHERE id = 20240101000000"
              (inr 1)]
           (Some (Errors [RevisionError "20240101000000" ErrPerformed]))
           (QueryRowScanCall
              "SELECT COUNT(id) FROM mgrt_revisions WHERE id = 20240101000000"
              (inr 1))).
  - reflexivity.
  - left. reflexivity.
Defined.

(** ** More of the title *)

Lemma substring_all n s : (String.length s <= n)%nat -> substring 0 n s = s.
Proof.
  revert s. induction n as [|n IH]; intros s Hle.
  - destruct s; [reflexivity|cbn [String.length] in Hle; lia].
  - destruct s as [|a s]; [reflexivity|]. cbn [String.length] in Hle.
    cbn [substring]. rewrite IH by lia. reflexivity.
Qed.

Lemma IndexByte_substring_none s c n :
  IndexByte s c < 0 \/ Z.of_nat n <= IndexByte s c ->
  IndexByte (substring 0 n s) c = -1.
Proof.
  revert n. induction s as [|a s IH]; intros n.
  - destruct n; reflexivity.
  - destruct n as [|n]; [reflexivity|].
    cbn [IndexByte substring].
    destruct (Ascii.eqb a c); [lia|].
    pose proof (IndexByte_range s c) as Hr.
    destruct (IndexByte s c <? 0) eqn:Hlt.
    + intros _. rewrite IH by lia. reflexivity.
    + intros Hn. rewrite IH by lia. reflexivity.
Qed.

Lemma IndexByte_append_none s t c :
  IndexByte s c < 0 -> IndexByte t c < 0 -> IndexByte (s ++ t) c = -1.
Proof.
  induction s as [|a s IH]; cbn [IndexByte append]; intros Hs Ht.
  - pose proof (IndexByte_range t c). lia.
  - destruct (Ascii.eqb a c); [lia|].
    destruct (IndexByte s c <? 0) eqn:Hlt; [|lia].
    rewrite IH by lia. reflexivity.
Qed.

(** The title when there is nothing to cut at. *)
Lemma Title_uncut (r : Revision) :
  IndexByte (substring 0 72 (Comment r)) (ascii_of_nat 10) <= 0 ->
  Title r
  = if (String.length (Comment r) <=? 72)%nat then Comment r
    else (substring 0 72 (Comment r) ++ "...")%string.
Proof.
  intros Hi. unfold Title.
  destruct (72 <=? String.length (Comment r))%nat eqn:H72.
  - apply Nat.leb_le in H72.
    destruct (72 <? String.length (Comment r))%nat eqn:Hgt.
    + apply Nat.ltb_lt in Hgt.
      assert (Hle : (String.length (Comment r) <=? 72)%nat = false)
        by (apply Nat.leb_gt; lia).
      rewrite Hle.
      assert (Ht : IndexByte (substring 0 72 (Comment r) ++ "...")
                             (ascii_of_nat 10) <= 0).
      { pose proof (IndexByte_range (substring 0 72 (Comment r))
                                    (ascii_of_nat 10)) as Hr.
        destruct (Z.eq_dec (IndexByte (substring 0 72 (Comment r))
                                      (ascii_of_nat 10)) 0) as [H0|H0].
        - rewrite IndexByte_append by lia. lia.
        - rewrite IndexByte_append_none; [lia|lia|cbn; lia]. }
      assert (Hpos : (0 <? IndexByte (substring 0 72 (Comment r) ++ "...")
                                     (ascii_of_nat 10)) = false)
        by (apply Z.ltb_ge; exact Ht).
      now rewrite Hpos.
    + apply Nat.ltb_ge in Hgt.
      assert (Hle : (String.length (Comment r) <=? 72)%nat = true)
        by (apply Nat.leb_le; lia).
      rewrite Hle.
      assert (Hpos : (0 <? IndexByte (substring 0 72 (Comment r))
                                     (ascii_of_nat 10)) = false)
        by (apply Z.ltb_ge; exact Hi).
      rewrite Hpos. apply substring_all. lia.
  - apply Nat.leb_gt in H72.
    assert (Hle : (String.length (Comment r) <=? 72)%nat = true)
      by (apply Nat.leb_le; lia).
    now rewrite Hle.
Qed.

(** X17. The title when there is nothing to cut at: a comment whose first
    72 bytes hold no line feed, or none but the very first byte. Up to 72
    bytes the title is the comment; beyond, it is the first 72 bytes and
    the ellipsis. *)
Theorem Title_of_one_line (r : Revision) :
  IndexByte (substring 0 72 (Comment r)) (ascii_of_nat 10) <= 0 ->
  Title r
  = if (String.length (Comment r) <=? 72)%nat then Comment r
    else (substring 0 72 (Comment r) ++ "...")%string.
Proof. intros Hi. now apply Title_uncut. Qed.

(** X18. The title of a comment of 72 bytes or more that does not begin
    with a line feed is one line: it holds no line feed. *)
Theorem Title_of_long_comment_is_one_line (r : Revision) :
  (72 <= String.length (Comment r))%nat ->
  IndexByte (Comment r) (ascii_of_nat 10) <> 0 ->
  IndexByte (Title r) (ascii_of_nat 10) = -1.
Proof.
  intros Hlen Hfirst. unfold Title.
  apply Nat.leb_le in Hlen. rewrite Hlen. apply Nat.leb_le in Hlen.
  pose proof (IndexByte_range (Comment r) (ascii_of_nat 10)) as Hr.
  set (sub := substring 0 72 (Comment r)).
  set (t := if (72 <? String.length (Comment r))%nat
            then (sub ++ "...")%string else sub).
  destruct (Z_lt_le_dec (IndexByte (Comment r) (ascii_of_nat 10)) 72)
    as [Hlt|Hge].
  - destruct (Z_lt_le_dec (IndexByte (Comment r) (ascii_of_nat 10)) 0)
      as [Hneg|Hpos].
    + assert (Hsub : IndexByte sub (ascii_of_nat 10) = -1)
        by (apply IndexByte_substring_none; lia).
      assert (Ht : IndexByte t (ascii_of_nat 10) = -1).
      { unfold t. destruct (72 <? String.length (Comment r))%nat;
          [|exact Hsub].
        apply IndexByte_append_none; [lia|cbn; lia]. }
      rewrite Ht. cbn. exact Ht.
    + assert (Hsub : IndexByte sub (ascii_of_nat 10)
                     = IndexByte (Comment r) (ascii_of_nat 10))
        by (apply IndexByte_substring; lia).
      assert (Ht : IndexByte t (ascii_of_nat 10)
                   = IndexByte (Comment r) (ascii_of_nat 10)).
      { unfold t. destruct (72 <? String.length (Comment r))%nat;
          [|exact Hsub].
        rewrite IndexByte_append by lia. exact Hsub. }
      rewrite Ht.
      assert (Hp : (0 <? IndexByte (Comment r) (ascii_of_nat 10)) = true)
        by (apply Z.ltb_lt; lia).
      rewrite Hp. apply IndexByte_substring_none. right. rewrite Ht.
      rewrite Z2Nat.id by lia. lia.
  - assert (Hsub : IndexByte sub (ascii_of_nat 10) = -1)
      by (apply IndexByte_substring_none; lia).
    assert (Ht : IndexByte t (ascii_of_nat 10) = -1).
    { unfold t. destruct (72 <? String.length (Comment r))%nat;
        [|exact Hsub].
      apply IndexByte_append_none; [lia|cbn; lia]. }
    rewrite Ht. cbn. exact Ht.
Qed.

Lemma Title_of_one_line_witness :
  Title (mkRevision "20240115093000" "bob"
           "12345678901234567890123456789012345678901234567890123456789012345678901234567890"
           "SELECT 1" None)
  = "123456789012345678901234567890123456789012345678901234567890123456789012...".
Proof.
  apply (Title_of_one_line
           (mkRevision "20240115093000" "bob"
              "12345678901234567890123456789012345678901234567890123456789012345678901234567890"
              "SELECT 1" None)).
  cbn. lia.
Defined.

Lemma Title_of_long_comment_is_one_line_witness :
  IndexByte (Title Sample.longComment) (ascii_of_nat 10) = -1.
Proof.
  apply (Title_of_long_comment_is_one_line Sample.longComment).
  - cbn. lia.
  - cbn. lia.
Defined.

(** ** [strings.TrimSpace] twice *)

Lemma DecodeRune_prefix q t :
  q <> [] ->
  utf8.DecodeRune (q ++ t) = utf8.DecodeRune q
  \/ utf8.DecodeRune q = (utf8.RuneError, 1%nat).
Proof.
  destruct q as [|c0 q]; [congruence|]. intros _.
  unfold utf8.DecodeRune. cbn [app].
  destruct (byteVal c0 <? utf8.RuneSelf); [now left|].
  destruct (utf8.lead (byteVal c0)) as [[[sz lo] hi]|] eqn:Hl; [|now left].
  apply lead_cases in Hl.
  destruct Hl as [(-> & _)|[(-> & _)|(-> & _)]].
  - destruct q as [|c1 q]; [now right|]. cbn. now left.
  - destruct q as [|c1 [|c2 q]]; try (now right). cbn. now left.
  - destruct q as [|c1 [|c2 [|c3 q]]]; try (now right). cbn. now left.
Qed.

Lemma trimLeft_head p :
  forall skip,
  strings.trimLeft p skip = []
  \/ strings.IsSpace (fst (utf8.DecodeRune (strings.trimLeft p skip))) = false.
Proof.
  induction p as [|c p IH]; intros skip; [now left|].
  cbn [strings.trimLeft]. destruct skip as [|k]; [|apply IH].
  destruct (utf8.DecodeRune (c :: p)) as [r size] eqn:Hd.
  destruct (strings.IsSpace r) eqn:Hs; [apply IH|].
  right. now rewrite Hd.
Qed.

Lemma trimLeft_fixed p :
  p = [] \/ strings.IsSpace (fst (utf8.DecodeRune p)) = false ->
  strings.trimLeft p 0 = p.
Proof.
  destruct p as [|c p]; [reflexivity|].
  intros [Hp|Hp]; [discriminate|]. cbn [strings.trimLeft].
  destruct (utf8.DecodeRune (c :: p)) as [r size]. cbn [fst] in Hp.
  now rewrite Hp.
Qed.

Lemma trimRightRev_suffix q :
  forall skip, exists pre, q = pre ++ strings.trimRightRev q skip.
Proof.
  induction q as [|c q IH]; intros skip; [now exists []|].
  cbn [strings.trimRightRev]. destruct skip as [|k].
  - destruct (utf8.DecodeLastRuneRev (c :: q)) as [r size].
    destruct (strings.IsSpace r); [|now exists []].
    destruct (IH (size - 1)%nat) as (pre & Hpre).
    exists (c :: pre). cbn [app]. now rewrite <- Hpre.
  - destruct (IH k) as (pre & Hpre).
    exists (c :: pre). cbn [app]. now rewrite <- Hpre.
Qed.

Lemma trimRightRev_head q :
  forall skip,
  strings.trimRightRev q skip = []
  \/ strings.IsSpace
       (fst (utf8.DecodeLastRuneRev (strings.trimRightRev q skip))) = false.
Proof.
  induction q as [|c q IH]; intros skip; [now left|].
  cbn [strings.trimRightRev]. destruct skip as [|k]; [|apply IH].
  destruct (utf8.DecodeLastRuneRev (c :: q)) as [r size] eqn:Hd.
  destruct (strings.IsSpace r) eqn:Hs; [apply IH|].
  right. now rewrite Hd.
Qed.

Lemma trimRightRev_fixed q :
  q = [] \/ strings.IsSpace (fst (utf8.DecodeLastRuneRev q)) = false ->
  strings.trimRightRev q 0 = q.
Proof.
  destruct q as [|c q]; [reflexivity|].
  intros [Hq|Hq]; [discriminate|]. cbn [strings.trimRightRev].
  destruct (utf8.DecodeLastRuneRev (c :: q)) as [r size]. cbn [fst] in Hq.
  now rewrite Hq.
Qed.

(** What [strings.TrimSpace] returns has no white space left to trim. *)
Lemma TrimSpace_idempotent s :
  strings.TrimSpace (strings.TrimSpace s) = strings.TrimSpace s.
Proof.
  unfold strings.TrimSpace. rewrite list_ascii_of_string_of_list_ascii.
  set (p := strings.trimLeft (list_ascii_of_string s) 0).
  assert (Hp : p = [] \/ strings.IsSpace (fst (utf8.DecodeRune p)) = false)
    by apply trimLeft_head.
  unfold strings.trimRight at 2 3.
  set (x := strings.trimRightRev (rev p) 0).
  assert (Hx : x = [] \/ strings.IsSpace (fst (utf8.DecodeLastRuneRev x)) = false)
    by apply trimRightRev_head.
  destruct (trimRightRev_suffix (rev p) 0) as (pre & Hpre). fold x in Hpre.
  assert (Hpx : p = rev x ++ rev pre).
  { rewrite <- (rev_involutive p), Hpre, rev_app_distr. reflexivity. }
  assert (Hl : strings.trimLeft (rev x) 0 = rev x).
  { apply trimLeft_fixed.
    destruct (rev x) as [|a l] eqn:Hr; [now left|]. right.
    assert (Hne : a :: l <> []) by discriminate.
    destruct (DecodeRune_prefix (a :: l) (rev pre) Hne) as [Hd|Hd].
    - rewrite <- Hd, <- Hpx.
      destruct Hp as [Hp|Hp]; [|exact Hp].
      rewrite Hp in Hpx. discriminate.
    - now rewrite Hd. }
  rewrite Hl. unfold strings.trimRight. rewrite rev_involutive.
  now rewrite (trimRightRev_fixed x Hx).
Qed.

(** ** What the loop of the decoder keeps *)

Section ReadRunesInvariant.

Variable fail : option string.
Variable I : decoder -> Prop.
Variable A : rune -> Prop.

Hypothesis I_open :
  forall d, I d -> I (mkDecoder (drev d) (buf d) (r0 d) true).
Hypothesis I_close : forall d, I d -> I (closeBlock d).
Hypothesis I_line :
  forall d d', I d -> blockLine d = Continue d' -> I d'.
Hypothesis I_append : forall d r, I d -> A r -> I (appendRune d r).
Hypothesis I_unread :
  forall d, I d -> I (mkDecoder (drev d) (buf d) star (inBlock d)).

(** An invariant of the body of the loop holds of the variables the loop
    is left with; the loop returns the error of the reader and no other;
    it panics at the test of a line and nowhere else. *)
Lemma readRunes_invariant n :
  forall rs d, (List.length rs <= n)%nat -> Forall A rs -> I d ->
  match readRunes fail d rs with
  | Panics => exists d0, I d0 /\ blockLine d0 = LinePanics
  | Returns (inr e) => exists msg, fail = Some msg /\ e = DriverError msg
  | Returns (inl d') =>
      fail = None
      /\ exists d0,
           I d0
           /\ d' = mkDecoder
                     (setSQL (drev d0)
                             (strings.TrimSpace (string_of_runes (buf d0))))
                     (buf d0) (r0 d0) (inBlock d0)
  end.
Proof.
  assert (Hend : forall d, I d ->
    match endOfStream fail d with
    | Panics => exists d0, I d0 /\ blockLine d0 = LinePanics
    | Returns (inr e) => exists msg, fail = Some msg /\ e = DriverError msg
    | Returns (inl d') =>
        fail = None
        /\ exists d0,
             I d0
             /\ d' = mkDecoder
                       (setSQL (drev d0)
                               (strings.TrimSpace (string_of_runes (buf d0))))
                       (buf d0) (r0 d0) (inBlock d0)
    end).
  { intros d Hd. unfold endOfStream. destruct fail as [msg|].
    - now exists msg.
    - split; [reflexivity|]. now exists d. }
  induction n as [|n IH]; intros rs d Hlen HA Hd.
  - destruct rs; [|cbn [List.length] in Hlen; lia]. now apply Hend.
  - destruct rs as [|r rest]; [now apply Hend|].
    cbn [List.length] in Hlen.
    inversion HA as [|? ? Hr Hrest]; subst.
    cbn [readRunes].
    destruct ((r =? star) && (r0 d =? slash)).
    { apply IH; [lia|exact Hrest|now apply I_open]. }
    destruct ((r =? slash) && (r0 d =? star)).
    { apply IH; [lia|exact Hrest|now apply I_close]. }
    destruct (if inBlock d && (r =? newline) then blockLine d else FallThrough)
      as [d'| | |] eqn:Hline.
    + apply IH; [lia|exact Hrest|].
      destruct (inBlock d && (r =? newline)); [|discriminate].
      now apply (I_line d).
    + apply IH; [lia|exact Hrest|now apply I_append].
    + destruct (r =? star) eqn:Hstar.
      * destruct rest as [|peek rest'].
        -- destruct fail as [msg|]; [now exists msg|]. now apply Hend.
        -- inversion Hrest; subst.
           destruct (peek =? slash).
           ++ apply IH; [lia|exact Hrest|].
              apply Z.eqb_eq in Hstar. subst r. now apply I_unread.
           ++ apply IH; [cbn [List.length] in Hlen; lia|assumption|].
              now apply I_append.
      * apply IH; [lia|exact Hrest|now apply I_append].
    + exists d. split; [exact Hd|].
      destruct (inBlock d && (r =? newline)); [exact Hline|discriminate].
Qed.

End ReadRunesInvariant.

(** X19. An error of the reader is not lost and not replaced: when the
    stream ends with an error that is not [io.EOF], [UnmarshalRevision]
    returns that error and no revision, whatever it has read (unless the
    look-back at a colon has panicked before). *)
Theorem UnmarshalRevision_returns_the_error_of_the_reader
  (s msg : string) :
  UnmarshalRevision (mkReader s (Some msg)) = Returns (inr (DriverError msg))
  \/ UnmarshalRevision (mkReader s (Some msg)) = Panics.
Proof.
  unfold UnmarshalRevision. cbn [failure content].
  pose proof (readRunes_invariant (Some msg) (fun _ => True) (fun _ => True)
                (fun _ _ => I) (fun _ _ => I) (fun _ _ _ _ => I)
                (fun _ _ _ _ => I) (fun _ _ => I)
                (List.length (utf8.runes s)) (utf8.runes s) initialDecoder
                (le_n _)) as Hinv.
  assert (HA : Forall (fun _ : rune => True) (utf8.runes s))
    by (apply Forall_forall; auto).
  specialize (Hinv HA Logic.I).
  destruct (readRunes (Some msg) initialDecoder (utf8.runes s)) as [[d|e]|].
  - destruct Hinv as [Hf _]. discriminate.
  - destruct Hinv as (m & [= <-] & ->). now left.
  - now right.
Qed.

Lemma blockLine_Continue d d' :
  blockLine d = Continue d' ->
  buf d' = []
  /\ (drev d' = drev d
      \/ (exists b, drev d' = setAuthor (drev d)
                                (strings.TrimSpace (string_of_runes b)))
      \/ (exists b, drev d' = setID (drev d)
                            (strings.TrimSpace (string_of_runes b))))
  /\ (~ In colon (buf d) -> drev d' = drev d).
Proof.
  unfold blockLine.
  destruct (r0 d =? newline).
  { intros [= <-]. cbn [buf drev]. repeat split; auto. }
  destruct (indexColon (buf d) <? 0) eqn:Hpos; [discriminate|].
  assert (Hc : ~ In colon (buf d) -> False).
  { intros Hn. rewrite (indexColon_none _ Hn) in Hpos. discriminate. }
  destruct (slice (buf d) (indexColon (buf d) - 6) (indexColon (buf d)))
    as [s6|]; [|discriminate].
  destruct (String.eqb (string_of_runes s6) "Author").
  { intros [= <-]. cbn [buf drev]. repeat split; [|tauto].
    right. left. eexists. reflexivity. }
  destruct (slice (buf d) (indexColon (buf d) - 8) (indexColon (buf d)))
    as [s8|]; [|discriminate].
  destruct (String.eqb (string_of_runes s8) "Revision"); [|discriminate].
  intros [= <-]. cbn [buf drev]. repeat split; [|tauto].
  right. right. eexists. reflexivity.
Qed.

(** X20. Every field of a revision that [UnmarshalRevision] returns is
    without white space around it: trimming it again changes nothing. The
    revision is not marked as performed. *)
Theorem UnmarshalRevision_trims_every_field (rd : Reader) (rev : Revision) :
  UnmarshalRevision rd = Returns (inl rev) ->
  strings.TrimSpace (ID rev) = ID rev
  /\ strings.TrimSpace (Author rev) = Author rev
  /\ strings.TrimSpace (Comment rev) = Comment rev
  /\ strings.TrimSpace (SQL rev) = SQL rev
  /\ PerformedAt rev = None.
Proof.
  unfold UnmarshalRevision.
  pose proof (readRunes_invariant (failure rd)
                (fun d => trimmedRevision (drev d)) (fun _ => True)) as Hinv.
  specialize (Hinv (fun d Hd => Hd)).
  assert (Hclose : forall d, trimmedRevision (drev d) ->
                             trimmedRevision (drev (closeBlock d))).
  { intros d (H1 & H2 & H3 & H4). unfold closeBlock, trimmedRevision.
    cbn [drev setComment ID Author Comment PerformedAt].
    repeat split; auto. apply TrimSpace_idempotent. }
  specialize (Hinv Hclose).
  assert (Hline : forall d d', trimmedRevision (drev d) ->
                               blockLine d = Continue d' ->
                               trimmedRevision (drev d')).
  { intros d d' (H1 & H2 & H3 & H4) Hb.
    destruct (blockLine_Continue _ _ Hb) as (_ & [->|[[s ->]|[s ->]]] & _);
      unfold trimmedRevision;
      cbn [setAuthor setID ID Author Comment PerformedAt];
      repeat split; auto; apply TrimSpace_idempotent. }
  specialize (Hinv Hline (fun d r Hd _ => Hd) (fun d Hd => Hd)
                   (List.length (utf8.runes (content rd)))
                   (utf8.runes (content rd)) initialDecoder (le_n _)).
  assert (HA : Forall (fun _ : rune => True) (utf8.runes (content rd)))
    by (apply Forall_forall; auto).
  assert (H0 : trimmedRevision (drev initialDecoder))
    by (repeat split; reflexivity).
  specialize (Hinv HA H0).
  destruct (readRunes (failure rd) initialDecoder (utf8.runes (content rd)))
    as [[d|e]|]; try discriminate.
  destruct Hinv as (_ & d0 & (H1 & H2 & H3 & H4) & ->).
  cbn [drev setSQL ID].
  destruct (time.ParseUnix (ID (drev d0))); [|discriminate].
  intros [= <-]. cbn [ID Author Comment SQL PerformedAt].
  repeat split; auto. apply TrimSpace_idempotent.
Qed.

Lemma UnmarshalRevision_trims_every_field_witness :
  strings.TrimSpace (ID Sample.documented) = ID Sample.documented
  /\ strings.TrimSpace (Author Sample.documented) = Author Sample.documented
  /\ strings.TrimSpace (Comment Sample.documented) = Comment Sample.documented
  /\ strings.TrimSpace (SQL Sample.documented) = SQL Sample.documented
  /\ PerformedAt Sample.documented = None.
Proof.
  apply (UnmarshalRevision_trims_every_field
           (readerOf (Revision_String Sample.documented))).
  reflexivity.
Defined.

(** X21. A stream without a header is rejected: when it holds no star (no
    comment block is opened) or no colon (no line names a field), the ID is
    never set, and [UnmarshalRevision] returns [ErrInvalid]. It does not
    panic on such a stream. *)
Theorem UnmarshalRevision_without_header (s : string) :
  ~ In star (utf8.runes s) \/ ~ In colon (utf8.runes s) ->
  UnmarshalRevision (readerOf s) = Returns (inr ErrInvalid).
Proof.
  unfold UnmarshalRevision, readerOf. cbn [failure content].
  intros [Hstar|Hcolon].
  - rewrite <- (app_nil_r (utf8.runes s)).
    rewrite readRunes_feed by exact Hstar.
    rewrite feed_append; [|cbn; discriminate|exact Hstar|now left].
    reflexivity.
  - pose proof (readRunes_invariant None
                  (fun d => ~ In colon (buf d) /\ ID (drev d) = "")
                  (fun r => r <> colon)) as Hinv.
    specialize (Hinv (fun d Hd => Hd)).
    assert (Hclose : forall d, ~ In colon (buf d) /\ ID (drev d) = "" ->
               ~ In colon (buf (closeBlock d)) /\ ID (drev (closeBlock d)) = "").
    { intros d [H1 H2]. unfold closeBlock. cbn [buf drev setComment ID].
      split; [intros []|exact H2]. }
    specialize (Hinv Hclose).
    assert (Hline : forall d d',
               ~ In colon (buf d) /\ ID (drev d) = "" ->
               blockLine d = Continue d' ->
               ~ In colon (buf d') /\ ID (drev d') = "").
    { intros d d' [H1 H2] Hb.
      destruct (blockLine_Continue _ _ Hb) as (Hbuf & _ & Hrev).
      rewrite Hbuf, (Hrev H1). split; [intros []|exact H2]. }
    specialize (Hinv Hline).
    assert (Happ : forall d r,
               ~ In colon (buf d) /\ ID (drev d) = "" -> r <> colon ->
               ~ In colon (buf (appendRune d r))
               /\ ID (drev (appendRune d r)) = "").
    { intros d r [H1 H2] Hr. unfold appendRune. cbn [buf drev].
      split; [|exact H2]. intros Hin. apply in_app_or in Hin.
      destruct Hin as [Hin|[Hin|[]]]; [now apply H1|now apply Hr]. }
    specialize (Hinv Happ (fun d Hd => Hd)
                     (List.length (utf8.runes s)) (utf8.runes s)
                     initialDecoder (le_n _)).
    assert (HA : Forall (fun r => r <> colon) (utf8.runes s)).
    { apply Forall_forall. intros r Hr ->. now apply Hcolon. }
    assert (H0 : ~ In colon (buf initialDecoder)
                 /\ ID (drev initialDecoder) = "")
      by (split; [intros []|reflexivity]).
    specialize (Hinv HA H0).
    destruct (readRunes None initialDecoder (utf8.runes s)) as [[d|e]|].
    + destruct Hinv as (_ & d0 & [_ Hid] & ->).
      cbn [drev setSQL ID]. now rewrite Hid.
    + destruct Hinv as (msg & Hf & _). discriminate.
    + destruct Hinv as (d0 & [Hc _] & Hp). exfalso.
      unfold blockLine in Hp.
      destruct (r0 d0 =? newline); [discriminate|].
      rewrite (indexColon_none _ Hc) in Hp. discriminate.
Qed.

Lemma UnmarshalRevision_without_header_witness :
  UnmarshalRevision (readerOf "CREATE TABLE t(id INT); -- Revision: 20060102150405")
  = Returns (inr ErrInvalid).
Proof.
  apply (UnmarshalRevision_without_header
           "CREATE TABLE t(id INT); -- Revision: 20060102150405").
  left. cbv. intuition discriminate.
Defined.

(** ** The ID of a new revision *)

Lemma digitChar_isDigit d :
  0 <= d <= 9 -> time.isDigit (time.digitChar d) = true
                 /\ time.digit (time.digitChar d) = d.
Proof.
  intros Hd. unfold time.isDigit, time.digit, time.digitChar.
  rewrite N_ascii_embedding by lia. rewrite Z2N.id by lia. lia.
Qed.

Lemma digits_step k u :
  time.digits (S k) u
  = if u <? 10 then [time.digitChar u]
    else time.digits k (u / 10) ++ [time.digitChar (u mod 10)].
Proof. reflexivity. Qed.

Lemma appendInt_2 x :
  0 <= x < 100 ->
  time.appendInt x 2 = [time.digitChar (x / 10); time.digitChar (x mod 10)].
Proof.
  intros Hx. unfold time.appendInt.
  assert (Hneg : (x <? 0) = false) by lia. rewrite Hneg.
  rewrite Z.abs_eq by lia. rewrite digits_step.
  destruct (x <? 10) eqn:H10.
  - cbn [List.length Nat.sub repeat app].
    replace (x / 10) with 0 by (Z.div_mod_to_equations; lia).
    replace (x mod 10) with x by (Z.div_mod_to_equations; lia).
    reflexivity.
  - rewrite digits_step.
    assert (H1 : (x / 10 <? 10) = true)
      by (apply Z.ltb_lt; Z.div_mod_to_equations; lia).
    rewrite H1. reflexivity.
Qed.

Lemma appendInt_4 x :
  0 <= x < 10000 ->
  time.appendInt x 4
  = [time.digitChar (x / 1000); time.digitChar (x / 100 mod 10);
     time.digitChar (x / 10 mod 10); time.digitChar (x mod 10)].
Proof.
  intros Hx. unfold time.appendInt.
  assert (Hneg : (x <? 0) = false) by lia. rewrite Hneg.
  rewrite Z.abs_eq by lia. rewrite digits_step.
  destruct (x <? 10) eqn:H10.
  { cbn [List.length Nat.sub repeat app].
    replace (x / 1000) with 0 by (Z.div_mod_to_equations; lia).
    replace (x / 100) with 0 by (Z.div_mod_to_equations; lia).
    replace (x / 10) with 0 by (Z.div_mod_to_equations; lia).
    replace (x mod 10) with x by (Z.div_mod_to_equations; lia).
    reflexivity. }
  rewrite digits_step.
  destruct (x / 10 <? 10) eqn:H100.
  { cbn [List.length Nat.sub repeat app].
    replace (x / 1000) with 0 by (Z.div_mod_to_equations; lia).
    replace (x / 100) with 0 by (Z.div_mod_to_equations; lia).
    replace (x / 10 mod 10) with (x / 10) by (Z.div_mod_to_equations; lia).
    reflexivity. }
  rewrite digits_step.
  replace (x / 10 / 10) with (x / 100) by (Z.div_mod_to_equations; lia).
  destruct (x / 100 <? 10) eqn:H1000.
  { cbn [List.length Nat.sub repeat app].
    replace (x / 1000) with 0 by (Z.div_mod_to_equations; lia).
    replace (x / 100 mod 10) with (x / 100) by (Z.div_mod_to_equations; lia).
    reflexivity. }
  rewrite digits_step.
  replace (x / 100 / 10) with (x / 1000) by (Z.div_mod_to_equations; lia).
  assert (H1 : (x / 1000 <? 10) = true)
    by (apply Z.ltb_lt; Z.div_mod_to_equations; lia).
  rewrite H1. reflexivity.
Qed.

Lemma getnum_digits x fixed rest :
  0 <= x < 100 ->
  time.getnum (time.appendInt x 2 ++ rest) fixed = Some (x, rest).
Proof.
  intros Hx. rewrite appendInt_2 by exact Hx. cbn [app time.getnum].
  destruct (digitChar_isDigit (x / 10)) as [H1 H2];
    [Z.div_mod_to_equations; lia|].
  destruct (digitChar_isDigit (x mod 10)) as [H3 H4];
    [Z.div_mod_to_equations; lia|].
  rewrite H1, H3, H2, H4. do 2 f_equal. Z.div_mod_to_equations; lia.
Qed.

Lemma getyear_digits x rest :
  0 <= x < 10000 ->
  time.getyear (time.appendInt x 4 ++ rest) = Some (x, rest).
Proof.
  intros Hx. rewrite appendInt_4 by exact Hx. cbn [app time.getyear].
  destruct (digitChar_isDigit (x / 1000)) as [H1 H2];
    [Z.div_mod_to_equations; lia|].
  destruct (digitChar_isDigit (x / 100 mod 10)) as [H3 H4];
    [Z.div_mod_to_equations; lia|].
  destruct (digitChar_isDigit (x / 10 mod 10)) as [H5 H6];
    [Z.div_mod_to_equations; lia|].
  destruct (digitChar_isDigit (x mod 10)) as [H7 H8];
    [Z.div_mod_to_equations; lia|].
  rewrite H1, H3, H5, H7, H2, H4, H6, H8. cbn [andb].
  do 2 f_equal. Z.div_mod_to_equations; lia.
Qed.

(** What [Format] writes, [Parse] reads back: the Unix time of the date
    and clock, taken as UTC. *)
Lemma ParseUnix_Format t :
  time.IsDate t -> 0 <= time.Year t <= 9999 ->
  time.ParseUnix (time.Format t)
  = Some (time.unixOfDate (time.Year t) (time.Month t) (time.Day t)
                          (time.Hour t) (time.Minute t) (time.Second t)).
Proof.
  intros (Hm & Hd & Hh & Hmi & Hs) Hy.
  assert (Hdays : time.daysIn (time.Month t) (time.Year t) <= 31).
  { unfold time.daysIn.
    destruct (time.Month t =? 2); [destruct (time.isLeap _); lia|].
    destruct ((time.Month t =? 4) || (time.Month t =? 6)
              || (time.Month t =? 9) || (time.Month t =? 11)); lia. }
  unfold time.ParseUnix, time.Format.
  rewrite list_ascii_of_string_of_list_ascii.
  rewrite getyear_digits by lia.
  rewrite getnum_digits by lia.
  assert (C1 : (time.Month t <=? 0) || (12 <? time.Month t) = false) by lia.
  rewrite C1.
  rewrite getnum_digits by lia.
  rewrite getnum_digits by lia.
  assert (C2 : (time.Hour t <? 0) || (24 <=? time.Hour t) = false) by lia.
  rewrite C2.
  rewrite getnum_digits by lia.
  assert (C3 : (time.Minute t <? 0) || (60 <=? time.Minute t) = false) by lia.
  rewrite C3.
  rewrite <- (app_nil_r (time.appendInt (time.Second t) 2)).
  rewrite getnum_digits by lia.
  assert (C4 : (time.Second t <? 0) || (60 <=? time.Second t) = false) by lia.
  rewrite C4. cbn [time.skipFraction].
  assert (C5 : (time.Day t <? 1)
               || (time.daysIn (time.Month t) (time.Year t) <? time.Day t)
               = false) by lia.
  now rewrite C5.
Qed.

(** X22. The ID of a new revision is valid: as long as the clock shows a
    year of four digits, the ID [NewRevision] writes parses under the
    layout, to the Unix time of the date and clock shown; [Put] accepts the
    revision, which has the author and the comment given and no SQL. *)
Theorem NewRevision_has_valid_ID
  {W : Type} `{Clock W} (w : W) (author comment : string) :
  time.IsDate (snd (Now w)) ->
  0 <= time.Year (snd (Now w)) <= 9999 ->
  time.ParseUnix (ID (snd (NewRevision w author comment)))
  = Some (time.unixOfDate
            (time.Year (snd (Now w))) (time.Month (snd (Now w)))
            (time.Day (snd (Now w))) (time.Hour (snd (Now w)))
            (time.Minute (snd (Now w))) (time.Second (snd (Now w))))
  /\ (forall c, snd (Put c (snd (NewRevision w author comment))) = None)
  /\ Author (snd (NewRevision w author comment)) = author
  /\ Comment (snd (NewRevision w author comment)) = comment
  /\ SQL (snd (NewRevision w author comment)) = "".
Proof.
  intros Hd Hy. unfold NewRevision.
  destruct (Now w) as [w1 t]. cbn [snd ID Author Comment SQL] in *.
  pose proof (ParseUnix_Format t Hd Hy) as Hp.
  repeat split; [exact Hp|].
  intros c. rewrite Put_valid; [reflexivity|].
  unfold validRevision, validID. cbn [ID]. now rewrite Hp.
Qed.

Lemma NewRevision_has_valid_ID_witness :
  time.ParseUnix
    (ID (snd (NewRevision (time.mkTime 2024 1 15 9 30 0) "bob" "Add tables")))
  = Some (time.unixOfDate 2024 1 15 9 30 0)
  /\ (forall c,
        snd (Put c (snd (NewRevision (time.mkTime 2024 1 15 9 30 0)
                                     "bob" "Add tables"))) = None)
  /\ Author (snd (NewRevision (time.mkTime 2024 1 15 9 30 0) "bob" "Add tables"))
     = "bob"
  /\ Comment (snd (NewRevision (time.mkTime 2024 1 15 9 30 0) "bob" "Add tables"))
     = "Add tables"
  /\ SQL (snd (NewRevision (time.mkTime 2024 1 15 9 30 0) "bob" "Add tables"))
     = "".
Proof.
  refine (NewRevision_has_valid_ID (time.mkTime 2024 1 15 9 30 0)
                                   "bob" "Add tables" _ _).
  - cbv [time.IsDate]. cbn. lia.
  - cbn. lia.
Defined.

(** A year of five digits gives an ID that does not parse. *)
Example NewRevision_in_the_year_10000 :
  validID (ID (snd (NewRevision (time.mkTime 10000 1 1 0 0 0) "bob" ""))) = false.
Proof. reflexivity. Qed.

(** ** The revisions performed *)

Lemma scanRows_inl l final :
  forall revs revs',
  scanRows l final revs = inl revs' ->
  final = None
  /\ exists rs, l = map inr rs /\ revs' = revs ++ map revisionOfRow rs.
Proof.
  induction l as [|[err|x] l IH]; intros revs revs'; cbn [scanRows].
  - destruct final; [discriminate|]. intros [= <-].
    split; [reflexivity|]. exists []. now rewrite app_nil_r.
  - discriminate.
  - intros Hs. destruct (IH _ _ Hs) as (Hf & rs & -> & ->).
    split; [exact Hf|]. exists (x :: rs). cbn [map].
    now rewrite <- app_assoc.
Qed.

Lemma scanRows_map rs :
  forall revs,
  scanRows (map inr rs) None revs = inl (revs ++ map revisionOfRow rs).
Proof.
  induction rs as [|x rs IH]; intros revs; cbn [map scanRows].
  - now rewrite app_nil_r.
  - rewrite IH, <- app_assoc. reflexivity.
Qed.

Section PerformedFacts.

Context {W : Type} `{World W} `{Querier W}.

(** X23. [GetRevisions] returns all the rows or none: it returns
    revisions exactly when the count is read and is not negative, the query
    is accepted, every row is scanned and the iteration ends without an
    error; they are then the rows in the order of the query, one revision
    for each, whatever the count was, with [PerformedAt] the seconds of the
    row. After an error, nothing of what was read is returned. *)
Theorem GetRevisions_all_rows_or_none
  (db db' : W) (revs : list Revision) :
  GetRevisions db = Returns (db', inl revs)
  <-> exists db1 count rs,
        QueryRowScan db "SELECT COUNT(id) FROM mgrt_revisions"
        = (db1, inr count)
        /\ 0 <= count
        /\ Query db1 "SELECT id, author, comment, sql, performed_at FROM mgrt_revisions ORDER BY performed_at DESC"
           = (db', inr (mkRows (map inr rs) None))
        /\ revs = map revisionOfRow rs.
Proof.
  unfold GetRevisions. split.
  - destruct (QueryRowScan db "SELECT COUNT(id) FROM mgrt_revisions")
      as [db1 [err|count]]; [discriminate|].
    destruct (count <? 0) eqn:Hc; [discriminate|].
    destruct (Query db1 _) as [db2 [err|rows]] eqn:Hq; [discriminate|].
    intros [= <- Hs].
    destruct (scanRows_inl _ _ _ _ Hs) as (Hf & rs & Hl & ->).
    exists db1, count, rs.
    split; [reflexivity|]. split; [lia|]. split; [|reflexivity].
    destruct rows as [l final]. cbn [scans rowsErr] in *. now subst.
  - intros (db1 & count & rs & -> & Hc & -> & ->).
    assert (Hn : (count <? 0) = false) by lia. rewrite Hn.
    cbn [scans rowsErr]. now rewrite scanRows_map.
Qed.

End PerformedFacts.

(** ** A star in the SQL *)




(** ** A batch performed twice *)

Section BatchTwice.

Context {W : Type} `{World W}.
Variable Quote : string -> string.

(** What is assumed of the database: a property [Recorded] of its states
    and IDs that an accepted INSERT of [Perform] establishes, that no
    operation undoes, and that makes the COUNT query positive. *)
Variable Recorded : W -> string -> Prop.
Variable revs0 : list Revision.

Hypothesis insert_records :
  forall d r now d',
  In r revs0 ->
  Exec d (insertQuery Quote r now) = (d', None) -> Recorded d' (ID r).
Hypothesis recorded_stays :
  forall d id q,
  Recorded d id ->
  Recorded (fst (QueryRowScan d q)) id
  /\ Recorded (fst (Exec d q)) id
  /\ Recorded (fst (NowUnix d)) id.
Hypothesis recorded_counts :
  forall d id,
  Recorded d id ->
  exists n, snd (QueryRowScan d (countQuery id)) = inr n /\ 0 < n.

Lemma Perform_keeps_recorded d r id :
  Recorded d id -> Recorded (fst (Perform Quote d r)) id.
Proof.
  intros Hr. unfold Perform, RevisionPerformed.
  destruct (String.eqb (SQL r) ""); [exact Hr|].
  destruct (time.ParseUnix (ID r)); [|exact Hr].
  pose proof (proj1 (recorded_stays d id (countQuery (ID r)) Hr)) as H1.
  destruct (QueryRowScan d (countQuery (ID r))) as [d1 [msg|n]];
    cbn [fst] in *; [exact H1|].
  destruct (0 <? n); [exact H1|].
  pose proof (proj1 (proj2 (recorded_stays d1 id (SQL r) H1))) as H2.
  destruct (Exec d1 (SQL r)) as [d2 [msg|]]; cbn [fst] in *; [exact H2|].
  pose proof (proj2 (proj2 (recorded_stays d2 id "" H2))) as H3.
  destruct (NowUnix d2) as [d3 now]. cbn [fst] in *.
  pose proof (proj1 (proj2 (recorded_stays d3 id (insertQuery Quote r now) H3)))
    as H4.
  destruct (Exec d3 (insertQuery Quote r now)) as [d4 [msg|]]; exact H4.
Qed.

Lemma performLoop_keeps_recorded revs id :
  forall d errs,
  Recorded d id -> Recorded (fst (performLoop Quote d revs errs)) id.
Proof.
  induction revs as [|r revs IH]; intros d errs Hr; cbn [performLoop];
    [exact Hr|].
  pose proof (Perform_keeps_recorded d r id Hr) as H1.
  destruct (Perform Quote d r) as [d1 [e|]]; cbn [fst] in H1.
  - destruct (errors_Is_ErrPerformed e); [now apply IH|exact H1].
  - now apply IH.
Qed.

Lemma Perform_records d r d1 :
  In r revs0 -> hasSQL r = true ->
  Perform Quote d r = (d1, None) -> Recorded d1 (ID r).
Proof.
  intros Hin Hs. unfold Perform, RevisionPerformed.
  unfold hasSQL in Hs. destruct (String.eqb (SQL r) ""); [discriminate|].
  destruct (time.ParseUnix (ID r)); [|discriminate].
  destruct (QueryRowScan d (countQuery (ID r))) as [d2 [msg|n]];
    [discriminate|].
  destruct (0 <? n); [discriminate|].
  destruct (Exec d2 (SQL r)) as [d3 [msg|]]; [discriminate|].
  destruct (NowUnix d3) as [d4 now].
  destruct (Exec d4 (insertQuery Quote r now)) as [d5 [msg|]] eqn:He;
    [discriminate|].
  intros [= <-]. exact (insert_records _ _ _ _ Hin He).
Qed.

Lemma performLoop_records revs :
  forall d d1,
  incl revs revs0 ->
  performLoop Quote d revs [] = (d1, None) ->
  Forall (fun r => hasSQL r = true -> Recorded d1 (ID r)) revs.
Proof.
  induction revs as [|r revs IH]; intros d d1 Hincl; cbn [performLoop].
  - constructor.
  - destruct (Perform Quote d r) as [d2 [e|]] eqn:Hp.
    + destruct (errors_Is_ErrPerformed e); [|discriminate].
      intros Hl. apply performLoop_None in Hl. discriminate.
    + intros Hl. constructor.
      * intros Hs.
        assert (Hr : Recorded d2 (ID r))
          by (eapply Perform_records; eauto; apply Hincl; now left).
        pose proof (performLoop_keeps_recorded revs (ID r) d2 [] Hr) as Hk.
        now rewrite Hl in Hk.
      * eapply IH; [|exact Hl]. intros x Hx. apply Hincl. now right.
Qed.

Lemma Perform_recorded d r :
  validID (ID r) = true -> hasSQL r = true -> Recorded d (ID r) ->
  snd (Perform Quote d r) = Some (RevisionError (ID r) ErrPerformed)
  /\ fst (Perform Quote d r) = fst (QueryRowScan d (countQuery (ID r))).
Proof.
  intros Hv Hs Hr. unfold Perform, RevisionPerformed.
  unfold hasSQL in Hs. destruct (String.eqb (SQL r) ""); [discriminate|].
  unfold validID in Hv. destruct (time.ParseUnix (ID r)); [|discriminate].
  destruct (recorded_counts d (ID r) Hr) as (n & Hq & Hn).
  destruct (QueryRowScan d (countQuery (ID r))) as [d1 a]. cbn [snd] in Hq.
  subst a. apply Z.ltb_lt in Hn. rewrite Hn. now split.
Qed.

Lemma performLoop_recorded revs :
  forall d log errs,
  Forall (fun r => validID (ID r) = true) revs ->
  Forall (fun r => hasSQL r = true -> Recorded d (ID r)) revs ->
  exists d' calls,
    performLoop Quote (d, log) revs errs
    = ((d', log ++ calls),
       Errors_err (errs ++ map (fun r => RevisionError (ID r) ErrPerformed)
                               (filter hasSQL revs)))
    /\ Forall2 (fun r c => exists n,
                   0 < n /\ c = QueryRowScanCall (countQuery (ID r)) (inr n))
               (filter hasSQL revs) calls.
Proof.
  induction revs as [|r revs IH]; intros d log errs Hv Hr;
    cbn [performLoop filter map].
  - exists d, []. rewrite !app_nil_r. split; [reflexivity|constructor].
  - inversion Hv as [|? ? Hv1 Hv2]; subst.
    inversion Hr as [|? ? Hr1 Hr2]; subst.
    destruct (Perform_logged Quote d log r) as (cs & -> & Hc).
    destruct (hasSQL r) eqn:Hs.
    + destruct (Perform_recorded d r Hv1 Hs (Hr1 eq_refl)) as [He Hd].
      rewrite He in *. cbn [errors_Is_ErrPerformed].
      inversion Hc as [| | |n Hsql Hvalid Hn Hcs| | |]; subst.
      assert (Hr2' : Forall (fun r0 => hasSQL r0 = true ->
                       Recorded (fst (Perform Quote d r)) (ID r0)) revs).
      { eapply Forall_impl; [|exact Hr2]. intros x Hx Hsx.
        apply Perform_keeps_recorded. now apply Hx. }
      destruct (IH (fst (Perform Quote d r))
                   (log ++ [QueryRowScanCall (countQuery (ID r)) (inr n)])
                   (errs ++ [RevisionError (ID r) ErrPerformed]) Hv2 Hr2')
        as (d' & calls & -> & Hf).
      exists d', (QueryRowScanCall (countQuery (ID r)) (inr n) :: calls).
      cbn [map]. rewrite <- !app_assoc. split; [reflexivity|].
      constructor; [now exists n|exact Hf].
    + rewrite (Perform_without_SQL Quote d r Hs) in *. cbn [fst snd] in *.
      inversion Hc as [Hsql Hcs| | | | | |n now Hsql Hvalid Hn Hcs]; subst.
      * rewrite app_nil_r. now apply IH.
      * unfold hasSQL in Hs. apply String.eqb_neq in Hsql.
        rewrite Hsql in Hs. discriminate.
Qed.

(** X25. A batch performed twice. Against a database that records what
    [Perform] inserts (an accepted INSERT makes the COUNT query of its ID
    positive from then on), when [PerformRevisions] has returned nil, the
    same call against the resulting database asks for the COUNT of each
    revision with SQL, in the order of the slice, and nothing else: no SQL
    is executed again. It returns the aggregate of one [RevisionError]
    wrapping [ErrPerformed] for each of them (nil when none has SQL). *)
Theorem PerformRevisions_twice (db db1 : W) :
  PerformRevisions Quote db revs0 = Returns (db1, None) ->
  exists revs db2 log,
    Slice (putAll revs0) = Returns revs
    /\ PerformRevisions Quote (db1, []) revs0
       = Returns ((db2, log),
                  Errors_err (map (fun r => RevisionError (ID r) ErrPerformed)
                                  (filter hasSQL revs)))
    /\ Forall2 (fun r c => exists n,
                   0 < n /\ c = QueryRowScanCall (countQuery (ID r)) (inr n))
               (filter hasSQL revs) log.
Proof.
  unfold PerformRevisions.
  destruct (Slice (putAll revs0)) as [revs|] eqn:Hs; [|discriminate].
  intros [= Hl].
  assert (Hsorted : revs = map snd (sortRevisions revs0)).
  { apply Slice_Returns in Hs. now rewrite inorder_putAll in Hs. }
  assert (Hin : forall r, In r revs -> In r revs0 /\ validID (ID r) = true).
  { intros r Hr. rewrite Hsorted in Hr.
    assert (Hf : In r (filter validRevision revs0))
      by (eapply Permutation_in; [apply sortRevisions_perm|exact Hr]).
    apply filter_In in Hf. exact Hf. }
  assert (Hrec : Forall (fun r => hasSQL r = true -> Recorded db1 (ID r)) revs).
  { apply (performLoop_records revs db db1); [|exact Hl].
    intros r Hr. now apply Hin. }
  assert (Hval : Forall (fun r => validID (ID r) = true) revs).
  { apply Forall_forall. intros r Hr. now apply Hin. }
  destruct (performLoop_recorded revs db1 [] [] Hval Hrec)
    as (d' & calls & Hp & Hf).
  exists revs, d', calls. cbn [app] in Hp. now rewrite Hp.
Qed.

End BatchTwice.

Lemma PerformRevisions_twice_witness :
  exists revs db2 log,
    Slice (putAll [Sample.february; Sample.noop; Sample.january]) = Returns revs
    /\ PerformRevisions MemDB.quote
         (MemDB.mk ["20240202000000"; "20240101000000"]
                   ["CREATE TABLE a(id INT);"; "CREATE TABLE b(id INT);"]
                   1700000002, [])
         [Sample.february; Sample.noop; Sample.january]
       = Returns ((db2, log),
                  Errors_err (map (fun r => RevisionError (ID r) ErrPerformed)
                                  (filter hasSQL revs)))
    /\ Forall2 (fun r c => exists n,
                   0 < n /\ c = QueryRowScanCall (countQuery (ID r)) (inr n))
               (filter hasSQL revs) log.
Proof.
  apply (PerformRevisions_twice MemDB.quote
           (fun d id => 0 < MemDB.count id (MemDB.tracked d))
           [Sample.february; Sample.noop; Sample.january])
    with (db := MemDB.empty).
  - intros d r now d' Hin Hex.
    destruct Hin as [<-|[<-|[<-|[]]]]; cbn in Hex; injection Hex as <-;
      unfold MemDB.count; cbn; lia.
  - intros d id q Hr. repeat split; cbn [QueryRowScan Exec NowUnix MemDB.world].
    + unfold MemDB.queryRowScan.
      destruct (MemDB.stripPrefix _ q); exact Hr.
    + unfold MemDB.exec. destruct (String.eqb q "FAIL"); [exact Hr|].
      destruct (MemDB.stripPrefix _ q); cbn [fst MemDB.tracked]; [|exact Hr].
      unfold MemDB.count in *. cbn [filter].
      destruct (String.eqb id (MemDB.upTo MemDB.dquote s));
        cbn [List.length]; lia.
    + exact Hr.
  - intros d id Hr. exists (MemDB.count id (MemDB.tracked d)).
    split; [reflexivity|exact Hr].
  - reflexivity.
Defined.

(** ** The valid IDs *)

Lemma digitChar_digit c :
  time.isDigit c = true ->
  time.digitChar (time.digit c) = c /\ 0 <= time.digit c <= 9.
Proof.
  unfold time.isDigit, time.digit, time.digitChar. intros Hc.
  split; [|lia].
  replace (48 + (Z.of_N (N_of_ascii c) - 48)) with (Z.of_N (N_of_ascii c))
    by lia.
  rewrite N2Z.id. apply ascii_N_embedding.
Qed.

Lemma appendInt_2_digits c0 c1 :
  time.isDigit c0 = true -> time.isDigit c1 = true ->
  time.appendInt (time.digit c0 * 10 + time.digit c1) 2 = [c0; c1].
Proof.
  intros H0 H1.
  destruct (digitChar_digit c0 H0) as [E0 R0].
  destruct (digitChar_digit c1 H1) as [E1 R1].
  rewrite appendInt_2 by lia.
  replace ((time.digit c0 * 10 + time.digit c1) / 10) with (time.digit c0)
    by (Z.div_mod_to_equations; lia).
  replace ((time.digit c0 * 10 + time.digit c1) mod 10) with (time.digit c1)
    by (Z.div_mod_to_equations; lia).
  now rewrite E0, E1.
Qed.

Lemma getnum_fixed_inv s n rest :
  time.getnum s true = Some (n, rest) ->
  exists c0 c1,
    s = c0 :: c1 :: rest
    /\ time.isDigit c0 = true /\ time.isDigit c1 = true
    /\ n = time.digit c0 * 10 + time.digit c1.
Proof.
  unfold time.getnum. destruct s as [|c0 [|c1 s2]]; try discriminate.
  - destruct (time.isDigit c0); discriminate.
  - destruct (time.isDigit c0) eqn:H0; [|discriminate].
    destruct (time.isDigit c1) eqn:H1; [|discriminate].
    intros [= <- <-]. now exists c0, c1.
Qed.

(** The hour, of one or two digits in the layout, has two in an ID: the
    minutes that follow begin with a digit. *)
Lemma getnum_hour_inv s n rest m rest' :
  time.getnum s false = Some (n, rest) ->
  time.getnum rest true = Some (m, rest') ->
  exists c0 c1,
    s = c0 :: c1 :: rest
    /\ time.isDigit c0 = true /\ time.isDigit c1 = true
    /\ n = time.digit c0 * 10 + time.digit c1.
Proof.
  unfold time.getnum at 1. destruct s as [|c0 [|c1 s2]]; try discriminate.
  - destruct (time.isDigit c0); [|discriminate]. intros [= <- <-].
    discriminate.
  - destruct (time.isDigit c0) eqn:H0; [|discriminate].
    destruct (time.isDigit c1) eqn:H1.
    + intros [= <- <-] _. now exists c0, c1.
    + intros [= <- <-]. cbn [time.getnum]. rewrite H1. discriminate.
Qed.

Lemma getyear_inv s n rest :
  time.getyear s = Some (n, rest) ->
  0 <= n <= 9999 /\ s = time.appendInt n 4 ++ rest.
Proof.
  unfold time.getyear.
  destruct s as [|c0 [|c1 [|c2 [|c3 s4]]]]; try discriminate.
  destruct (time.isDigit c0) eqn:H0; [|discriminate].
  destruct (time.isDigit c1) eqn:H1; [|discriminate].
  destruct (time.isDigit c2) eqn:H2; [|discriminate].
  destruct (time.isDigit c3) eqn:H3; [|discriminate].
  cbn [andb]. intros [= <- <-].
  destruct (digitChar_digit c0 H0) as [E0 R0].
  destruct (digitChar_digit c1 H1) as [E1 R1].
  destruct (digitChar_digit c2 H2) as [E2 R2].
  destruct (digitChar_digit c3 H3) as [E3 R3].
  split; [lia|]. rewrite appendInt_4 by lia.
  set (n := ((time.digit c0 * 10 + time.digit c1) * 10 + time.digit c2) * 10
            + time.digit c3).
  replace (n / 1000) with (time.digit c0)
    by (unfold n; Z.div_mod_to_equations; lia).
  replace (n / 100 mod 10) with (time.digit c1)
    by (unfold n; Z.div_mod_to_equations; lia).
  replace (n / 10 mod 10) with (time.digit c2)
    by (unfold n; Z.div_mod_to_equations; lia).
  replace (n mod 10) with (time.digit c3)
    by (unfold n; Z.div_mod_to_equations; lia).
  now rewrite E0, E1, E2, E3.
Qed.

Lemma skipDigits_all v :
  Forall (fun c => time.isDigit c = true) v -> time.skipDigits v = [].
Proof.
  induction 1 as [|c v Hc _ IH]; cbn [time.skipDigits]; [reflexivity|].
  now rewrite Hc.
Qed.

Lemma skipFraction_IsFraction v :
  time.skipFraction v = [] <-> time.IsFraction v.
Proof.
  unfold time.skipFraction, time.IsFraction. split.
  - destruct v as [|c0 [|c1 rest]]; [now left|discriminate|].
    destruct (time.commaOrPeriod c0 && time.isDigit c1) eqn:Hc;
      [|discriminate].
    apply andb_prop in Hc. destruct Hc as [H0 H1].
    intros Hs. right. exists c0, c1, rest. repeat split; auto.
    now apply skipDigits_nil.
  - intros [->|(sep & d & ds & -> & H0 & H1 & Hall)]; [reflexivity|].
    rewrite H0, H1. cbn [andb]. now apply skipDigits_all.
Qed.

(** X26. The valid IDs are the dates in the layout. An ID parses exactly
    when it is what [Format] writes for a date and clock, with a year from 0
    to 9999, followed by nothing or by a fraction of a second (a period or
    a comma, then digits); the time it stands for is the Unix time of that
    date and clock, the fraction left out. *)
Theorem valid_ID_is_a_date (id : string) (u : Z) :
  time.ParseUnix id = Some u
  <-> exists t frac,
        time.IsDate t
        /\ 0 <= time.Year t <= 9999
        /\ id = (time.Format t ++ frac)%string
        /\ time.IsFraction (list_ascii_of_string frac)
        /\ u = time.unixOfDate (time.Year t) (time.Month t) (time.Day t)
                               (time.Hour t) (time.Minute t) (time.Second t).
Proof.
  split.
  - unfold time.ParseUnix.
    destruct (time.getyear (list_ascii_of_string id)) as [[year v1]|] eqn:Hy;
      [|discriminate].
    destruct (time.getnum v1 true) as [[month v2]|] eqn:H1; [|discriminate].
    destruct ((month <=? 0) || (12 <? month)) eqn:C1; [discriminate|].
    destruct (time.getnum v2 true) as [[day v3]|] eqn:H2; [|discriminate].
    destruct (time.getnum v3 false) as [[hour v4]|] eqn:H3; [|discriminate].
    destruct ((hour <? 0) || (24 <=? hour)) eqn:C2; [discriminate|].
    destruct (time.getnum v4 true) as [[min v5]|] eqn:H4; [|discriminate].
    destruct ((min <? 0) || (60 <=? min)) eqn:C3; [discriminate|].
    destruct (time.getnum v5 true) as [[sec v6]|] eqn:H5; [|discriminate].
    destruct ((sec <? 0) || (60 <=? sec)) eqn:C4; [discriminate|].
    destruct (time.skipFraction v6) eqn:H6; [|discriminate].
    destruct ((day <? 1) || (time.daysIn month year <? day)) eqn:C5;
      [discriminate|].
    intros [= <-].
    apply getyear_inv in Hy. destruct Hy as [Ry Ey].
    destruct (getnum_hour_inv _ _ _ _ _ H3 H4) as (h0 & h1 & -> & Hh0 & Hh1 & ->).
    apply getnum_fixed_inv in H1, H2, H4, H5.
    destruct H1 as (m0 & m1 & -> & Hm0 & Hm1 & ->).
    destruct H2 as (d0 & d1 & -> & Hd0 & Hd1 & ->).
    destruct H4 as (i0 & i1 & -> & Hi0 & Hi1 & ->).
    destruct H5 as (s0 & s1 & -> & Hs0 & Hs1 & ->).
    exists (time.mkTime year
              (time.digit m0 * 10 + time.digit m1)
              (time.digit d0 * 10 + time.digit d1)
              (time.digit h0 * 10 + time.digit h1)
              (time.digit i0 * 10 + time.digit i1)
              (time.digit s0 * 10 + time.digit s1)),
           (string_of_list_ascii v6).
    unfold time.IsDate.
    cbn [time.Year time.Month time.Day time.Hour time.Minute time.Second].
    repeat split; try lia.
    + rewrite <- (string_of_list_ascii_of_string id), Ey.
      unfold time.Format.
      cbn [time.Year time.Month time.Day time.Hour time.Minute time.Second].
      rewrite !appendInt_2_digits by assumption.
      rewrite <- string_of_list_ascii_app. f_equal.
      rewrite <- !app_assoc. reflexivity.
    + rewrite list_ascii_of_string_of_list_ascii.
      now apply skipFraction_IsFraction.
  - intros (t & frac & (Hm & Hd & Hh & Hmi & Hs) & Hy & -> & Hf & ->).
    assert (Hdays : time.daysIn (time.Month t) (time.Year t) <= 31).
    { unfold time.daysIn.
      destruct (time.Month t =? 2); [destruct (time.isLeap _); lia|].
      destruct ((time.Month t =? 4) || (time.Month t =? 6)
                || (time.Month t =? 9) || (time.Month t =? 11)); lia. }
    unfold time.ParseUnix, time.Format.
    rewrite list_ascii_of_string_app, list_ascii_of_string_of_list_ascii.
    rewrite <- !app_assoc.
    rewrite getyear_digits by lia.
    rewrite getnum_digits by lia.
    assert (C1 : (time.Month t <=? 0) || (12 <? time.Month t) = false) by lia.
    rewrite C1.
    rewrite getnum_digits by lia.
    rewrite getnum_digits by lia.
    assert (C2 : (time.Hour t <? 0) || (24 <=? time.Hour t) = false) by lia.
    rewrite C2.
    rewrite getnum_digits by lia.
    assert (C3 : (time.Minute t <? 0) || (60 <=? time.Minute t) = false) by lia.
    rewrite C3.
    rewrite getnum_digits by lia.
    assert (C4 : (time.Second t <? 0) || (60 <=? time.Second t) = false) by lia.
    rewrite C4.
    apply skipFraction_IsFraction in Hf. rewrite Hf.
    assert (C5 : (time.Day t <? 1)
                 || (time.daysIn (time.Month t) (time.Year t) <? time.Day t)
                 = false) by lia.
    now rewrite C5.
Qed.

(** ** What is written is valid UTF-8 *)

Lemma byteVal_byteOf z : 0 <= z < 256 -> byteVal (utf8.byteOf z) = z.
Proof.
  intros Hz. unfold byteVal, utf8.byteOf.
  rewrite Z.mod_small by lia.
  rewrite N_ascii_embedding by lia. lia.
Qed.

Lemma lead_2 p0 :
  194 <= p0 <= 223 -> utf8.lead p0 = Some (2%nat, 128, 191).
Proof.
  intros Hp. unfold utf8.lead.
  assert (C : (194 <=? p0) && (p0 <=? 223) = true) by lia. now rewrite C.
Qed.

Lemma lead_3 p0 :
  224 <= p0 <= 239 ->
  utf8.lead p0
  = Some (3%nat, (if p0 =? 224 then 160 else 128),
                 (if p0 =? 237 then 159 else 191)).
Proof.
  intros Hp. unfold utf8.lead.
  assert (C0 : (194 <=? p0) && (p0 <=? 223) = false) by lia. rewrite C0.
  destruct (p0 =? 224) eqn:E1.
  { assert (E2 : (p0 =? 237) = false) by lia. now rewrite E2. }
  destruct ((225 <=? p0) && (p0 <=? 236)) eqn:E2.
  { assert (E3 : (p0 =? 237) = false) by lia. now rewrite E3. }
  destruct (p0 =? 237) eqn:E3; [reflexivity|].
  assert (E4 : (238 <=? p0) && (p0 <=? 239) = true) by lia. now rewrite E4.
Qed.

Lemma lead_4 p0 :
  240 <= p0 <= 244 ->
  utf8.lead p0
  = Some (4%nat, (if p0 =? 240 then 144 else 128),
                 (if p0 =? 244 then 143 else 191)).
Proof.
  intros Hp. unfold utf8.lead.
  assert (C0 : (194 <=? p0) && (p0 <=? 223) = false) by lia. rewrite C0.
  assert (C1 : (p0 =? 224) = false) by lia. rewrite C1.
  assert (C2 : (225 <=? p0) && (p0 <=? 236) = false) by lia. rewrite C2.
  assert (C3 : (p0 =? 237) = false) by lia. rewrite C3.
  assert (C4 : (238 <=? p0) && (p0 <=? 239) = false) by lia. rewrite C4.
  destruct (p0 =? 240) eqn:E1.
  { assert (E2 : (p0 =? 244) = false) by lia. now rewrite E2. }
  destruct ((241 <=? p0) && (p0 <=? 243)) eqn:E2.
  { assert (E3 : (p0 =? 244) = false) by lia. now rewrite E3. }
  assert (E3 : (p0 =? 244) = true) by lia. now rewrite E3.
Qed.

Lemma writtenRune_range r :
  0 <= writtenRune r <= 1114111
  /\ ~ (55296 <= writtenRune r <= 57343).
Proof.
  unfold writtenRune, utf8.MaxRune, utf8.RuneError.
  destruct ((r <? 0) || (1114111 <? r) || ((55296 <=? r) && (r <=? 57343)))
    eqn:C; lia.
Qed.

(** The bytes of a rune. *)
Lemma EncodeRune_bytes r :
  let w := writtenRune r in
  (0 <= w <= 127 /\ utf8.EncodeRune r = [utf8.byteOf w])
  \/ (128 <= w <= 2047
      /\ utf8.EncodeRune r
         = [utf8.byteOf (192 + w / 64); utf8.byteOf (128 + w mod 64)])
  \/ (2048 <= w <= 65535
      /\ utf8.EncodeRune r
         = [utf8.byteOf (224 + w / 4096);
            utf8.byteOf (128 + (w / 64) mod 64);
            utf8.byteOf (128 + w mod 64)])
  \/ (65536 <= w <= 1114111
      /\ utf8.EncodeRune r
         = [utf8.byteOf (240 + w / 262144);
            utf8.byteOf (128 + (w / 4096) mod 64);
            utf8.byteOf (128 + (w / 64) mod 64);
            utf8.byteOf (128 + w mod 64)]).
Proof.
  cbv zeta. pose proof (writtenRune_range r) as [Hw Hs].
  unfold utf8.EncodeRune.
  destruct ((0 <=? r) && (r <=? 127)) eqn:C1.
  { left. assert (E : writtenRune r = r)
      by (unfold writtenRune, utf8.MaxRune;
          assert (C : (r <? 0) || (1114111 <? r)
                      || ((55296 <=? r) && (r <=? 57343)) = false) by lia;
          now rewrite C).
    rewrite E. split; [lia|reflexivity]. }
  destruct ((0 <=? r) && (r <=? 2047)) eqn:C2.
  { right. left.
    assert (E : writtenRune r = r)
      by (unfold writtenRune, utf8.MaxRune;
          assert (C : (r <? 0) || (1114111 <? r)
                      || ((55296 <=? r) && (r <=? 57343)) = false) by lia;
          now rewrite C).
    rewrite E. split; [lia|].
    rewrite cont_byte, Z.shiftr_div_pow2 by lia. change (2 ^ 6) with 64.
    rewrite (byte_tag 192 (r / 64) 6);
      [reflexivity|lia|change (2 ^ 6) with 64; zdm|reflexivity]. }
  fold (writtenRune r). set (w := writtenRune r) in *.
  assert (Hw2 : 2048 <= w).
  { unfold w, writtenRune, utf8.MaxRune, utf8.RuneError.
    destruct ((r <? 0) || (1114111 <? r) || ((55296 <=? r) && (r <=? 57343)))
      eqn:C; lia. }
  right. right.
  destruct (w <=? 65535) eqn:C3.
  - left. split; [lia|].
    rewrite !cont_byte, !Z.shiftr_div_pow2 by lia.
    change (2 ^ 6) with 64. change (2 ^ 12) with 4096.
    rewrite (byte_tag 224 (w / 4096) 5);
      [reflexivity|lia|change (2 ^ 5) with 32; zdm|reflexivity].
  - right. split; [lia|].
    rewrite !cont_byte, !Z.shiftr_div_pow2 by lia.
    change (2 ^ 6) with 64. change (2 ^ 12) with 4096.
    change (2 ^ 18) with 262144.
    rewrite (byte_tag 240 (w / 262144) 4);
      [reflexivity|lia|change (2 ^ 4) with 16; zdm|reflexivity].
Qed.

(** What is written for a rune is read back as the rune written, over
    all of its bytes. *)
Lemma DecodeRune_EncodeRune r rest :
  utf8.DecodeRune (utf8.EncodeRune r ++ rest)
  = (writtenRune r, List.length (utf8.EncodeRune r)).
Proof.
  pose proof (writtenRune_range r) as [Hw Hs].
  destruct (EncodeRune_bytes r) as [[H1 ->]|[[H1 ->]|[[H1 ->]|[H1 ->]]]];
    set (w := writtenRune r) in *; cbn [app List.length];
    unfold utf8.DecodeRune, utf8.RuneSelf.
  - rewrite byteVal_byteOf by lia.
    assert (C : (w <? 128) = true) by lia. now rewrite C.
  - rewrite !byteVal_byteOf by zdm.
    assert (C : (192 + w / 64 <? 128) = false) by zdm. rewrite C.
    rewrite lead_2 by zdm. cbn [List.length Nat.ltb Nat.leb].
    assert (C1 : (128 + w mod 64 <? 128) || (191 <? 128 + w mod 64) = false)
      by zdm.
    rewrite C1, decode2_arith. apply f_equal2; [zdm|reflexivity].
  - rewrite !byteVal_byteOf by zdm.
    assert (C : (224 + w / 4096 <? 128) = false) by zdm. rewrite C.
    rewrite lead_3 by zdm. cbn [List.length Nat.ltb Nat.leb].
    assert (C1 : (128 + (w / 64) mod 64
                  <? (if 224 + w / 4096 =? 224 then 160 else 128))
                 || ((if 224 + w / 4096 =? 237 then 159 else 191)
                     <? 128 + (w / 64) mod 64) = false).
    { destruct (224 + w / 4096 =? 224) eqn:E1;
        destruct (224 + w / 4096 =? 237) eqn:E2; zdm. }
    rewrite C1.
    assert (C2 : negb (utf8.continuation (128 + w mod 64)) = false)
      by (unfold utf8.continuation; zdm).
    rewrite C2, decode3_arith. apply f_equal2; [zdm|reflexivity].
  - rewrite !byteVal_byteOf by zdm.
    assert (C : (240 + w / 262144 <? 128) = false) by zdm. rewrite C.
    rewrite lead_4 by zdm. cbn [List.length Nat.ltb Nat.leb].
    assert (C1 : (128 + (w / 4096) mod 64
                  <? (if 240 + w / 262144 =? 240 then 144 else 128))
                 || ((if 240 + w / 262144 =? 244 then 143 else 191)
                     <? 128 + (w / 4096) mod 64) = false).
    { destruct (240 + w / 262144 =? 240) eqn:E1;
        destruct (240 + w / 262144 =? 244) eqn:E2; zdm. }
    rewrite C1.
    assert (C2 : negb (utf8.continuation (128 + (w / 64) mod 64)) = false)
      by (unfold utf8.continuation; zdm).
    assert (C3 : negb (utf8.continuation (128 + w mod 64)) = false)
      by (unfold utf8.continuation; zdm).
    rewrite C2, C3, decode4_arith. apply f_equal2; [zdm|reflexivity].
Qed.

Lemma validFrom_skip l rest :
  utf8.validFrom (l ++ rest) (List.length l) = utf8.validFrom rest 0.
Proof.
  induction l as [|a l IH]; [reflexivity|].
  cbn [app List.length utf8.validFrom]. exact IH.
Qed.

Lemma validFrom_encode_valid buf : utf8.validFrom (utf8.encode buf) 0 = true.
Proof.
  induction buf as [|r buf IH]; [reflexivity|].
  unfold utf8.encode in *. cbn [flat_map].
  pose proof (DecodeRune_EncodeRune r (flat_map utf8.EncodeRune buf)) as Hd.
  assert (Hone : List.length (utf8.EncodeRune r) = 1%nat ->
                 writtenRune r <= 127).
  { destruct (EncodeRune_bytes r) as [[H1 ->]|[[H1 ->]|[[H1 ->]|[H1 ->]]]];
      cbn [List.length]; intros; (lia || discriminate). }
  destruct (utf8.EncodeRune r) as [|c l] eqn:He.
  - exfalso.
    destruct (EncodeRune_bytes r) as [[_ H1]|[[_ H1]|[[_ H1]|[_ H1]]]];
      rewrite He in H1; discriminate.
  - cbn [app utf8.validFrom]. cbn [app] in Hd. rewrite Hd.
    cbn [List.length Nat.sub] in *. rewrite Nat.sub_0_r.
    assert (C : (writtenRune r =? utf8.RuneError)
                && (S (List.length l) =? 1)%nat = false).
    { destruct (S (List.length l) =? 1)%nat eqn:E; [|apply andb_false_r].
      apply Nat.eqb_eq in E. specialize (Hone E).
      unfold utf8.RuneError. rewrite andb_true_r. lia. }
    rewrite C, validFrom_skip. exact IH.
Qed.

(** The conversion [string(buf)] of runes gives valid UTF-8, whatever the
    runes are. *)
Lemma ValidString_string_of_runes buf :
  utf8.ValidString (string_of_runes buf) = true.
Proof.
  unfold utf8.ValidString, string_of_runes.
  rewrite list_ascii_of_string_of_list_ascii. apply validFrom_encode_valid.
Qed.

Lemma DecodeRune_start c x r n :
  utf8.DecodeRune (c :: x) = (r, n) -> r <> utf8.RuneError ->
  utf8.continuation (byteVal c) = false.
Proof.
  unfold utf8.DecodeRune, utf8.RuneSelf, utf8.continuation.
  destruct (byteVal c <? 128) eqn:Ha; [intros; lia|].
  destruct (utf8.lead (byteVal c)) as [[[sz lo] hi]|] eqn:Hl.
  - intros _ _. apply lead_cases in Hl. lia.
  - intros [= <- _] Hr. congruence.
Qed.

(** A rune is not read across the start of another. *)
Lemma DecodeRune_split x c s :
  x <> [] ->
  utf8.continuation (byteVal c) = false ->
  utf8.DecodeRune (x ++ c :: s) = (utf8.RuneError, 1%nat)
  \/ utf8.DecodeRune (x ++ c :: s) = utf8.DecodeRune x.
Proof.
  intros Hx Hc.
  assert (Hn : negb (utf8.continuation (byteVal c)) = true)
    by (rewrite Hc; reflexivity).
  unfold utf8.continuation in Hc.
  destruct x as [|c0 x]; [congruence|].
  unfold utf8.DecodeRune. cbn [app].
  destruct (byteVal c0 <? utf8.RuneSelf); [now right|].
  destruct (utf8.lead (byteVal c0)) as [[[sz lo] hi]|] eqn:Hl; [|now right].
  apply lead_cases in Hl.
  assert (C : (byteVal c <? lo) || (hi <? byteVal c) = true)
    by (destruct Hl as [(_ & _ & -> & ->)
                       |[(_ & _ & Hlo & Hhi & _)|(_ & _ & Hlo & Hhi & _)]];
        lia).
  destruct Hl as [(-> & _)|[(-> & _)|(-> & _)]].
  - destruct x as [|c1 x]; cbn [app List.length Nat.ltb Nat.leb];
      rewrite ?C, ?Hn;
      repeat match goal with
      | |- context [if ?b then _ else _] => destruct b
      end; first [now left|now right].
  - destruct x as [|c1 [|c2 x]]; cbn [app List.length Nat.ltb Nat.leb];
      rewrite ?C, ?Hn;
      repeat match goal with
      | |- context [if ?b then _ else _] => destruct b
      end; first [now left|now right].
  - destruct x as [|c1 [|c2 [|c3 x]]]; cbn [app List.length Nat.ltb Nat.leb];
      rewrite ?C, ?Hn;
      repeat match goal with
      | |- context [if ?b then _ else _] => destruct b
      end; first [now left|now right].
Qed.

(** A valid string cut before the start of a rune is valid. *)
Lemma validFrom_prefix c s p0 :
  utf8.continuation (byteVal c) = false ->
  forall k,
  (k <= List.length p0)%nat ->
  utf8.validFrom (p0 ++ c :: s) k = true ->
  utf8.validFrom p0 k = true.
Proof.
  intros Hc. induction p0 as [|a p0 IH]; intros k Hk.
  - cbn [List.length] in Hk. now replace k with 0%nat by lia.
  - destruct k as [|k]; cbn [app utf8.validFrom].
    + pose proof (DecodeRune_size a p0) as Hsz.
      destruct (DecodeRune_split (a :: p0) c s ltac:(discriminate) Hc)
        as [Hd|Hd]; cbn [app] in Hd; rewrite Hd.
      * discriminate.
      * destruct (utf8.DecodeRune (a :: p0)) as [r n]. cbn [snd] in Hsz.
        destruct ((r =? utf8.RuneError) && (n =? 1)%nat); [discriminate|].
        apply IH. lia.
    + apply IH. cbn [List.length] in Hk. lia.
Qed.

Lemma validFrom_trimLeft p :
  forall skip,
  utf8.validFrom p skip = true ->
  utf8.validFrom (strings.trimLeft p skip) 0 = true.
Proof.
  induction p as [|a p IH]; intros skip; [reflexivity|].
  cbn [strings.trimLeft]. destruct skip as [|k]; [|apply IH].
  intros Hv. pose proof Hv as Hv'. cbn [utf8.validFrom] in Hv'.
  destruct (utf8.DecodeRune (a :: p)) as [r n].
  destruct (strings.IsSpace r); [|exact Hv].
  destruct ((r =? utf8.RuneError) && (n =? 1)%nat); [discriminate|].
  now apply IH.
Qed.

(** The last rune, when it is not the error, is a rune that begins
    [size] bytes before the end. *)
Lemma DecodeLastRuneRev_start q r size :
  utf8.DecodeLastRuneRev q = (r, size) ->
  r <> utf8.RuneError ->
  (1 <= size <= List.length q)%nat
  /\ exists c x,
       rev (firstn size q) = c :: x
       /\ utf8.continuation (byteVal c) = false.
Proof.
  unfold utf8.DecodeLastRuneRev.
  destruct q as [|c0 q1]; [intros [= <- _] Hr; congruence|].
  destruct (byteVal c0 <? utf8.RuneSelf) eqn:Ha.
  { intros [= <- <-] _. cbn [List.length firstn rev app].
    split; [lia|]. exists c0, []. split; [reflexivity|].
    apply continuation_ascii. unfold utf8.RuneSelf in Ha. lia. }
  set (candidate := match q1 with [] => _ | _ => _ end).
  assert (Hcand : candidate = rev (firstn (List.length candidate) (c0 :: q1))
                  /\ (1 <= List.length candidate <= List.length (c0 :: q1))%nat).
  { unfold candidate.
    destruct q1 as [|c1 [|c2 [|c3 [|c4 q5]]]];
      repeat match goal with
      | |- context [if ?b then _ else _] => destruct b
      end; cbn; split; try reflexivity; lia. }
  destruct Hcand as [Hc1 Hc2].
  destruct (utf8.DecodeRune candidate) as [r' n] eqn:Hd.
  destruct (n =? List.length candidate)%nat eqn:Hn.
  - apply Nat.eqb_eq in Hn. intros [= <- <-] Hr. rewrite Hn.
    split; [exact Hc2|]. rewrite <- Hc1.
    destruct candidate as [|c x]; [cbn [List.length] in Hc2; lia|].
    exists c, x. split; [reflexivity|].
    exact (DecodeRune_start _ _ _ _ Hd Hr).
  - intros [= <- _] Hr. congruence.
Qed.

Lemma validFrom_trimRightRev q :
  forall skip,
  utf8.validFrom (rev (skipn skip q)) 0 = true ->
  utf8.validFrom (rev (strings.trimRightRev q skip)) 0 = true.
Proof.
  induction q as [|a q IH]; intros skip; [reflexivity|].
  cbn [strings.trimRightRev]. destruct skip as [|k].
  - cbn [skipn]. intros Hv.
    destruct (utf8.DecodeLastRuneRev (a :: q)) as [r size] eqn:Hd.
    destruct (strings.IsSpace r) eqn:Hs; [|exact Hv].
    assert (Hr : r <> utf8.RuneError) by (intros ->; discriminate).
    destruct (DecodeLastRuneRev_start _ _ _ Hd Hr)
      as (Hsize & c & x & Hrev & Hc).
    apply IH.
    rewrite <- (firstn_skipn size (a :: q)), rev_app_distr, Hrev in Hv.
    replace (skipn (size - 1) q) with (skipn size (a :: q))
      by (destruct size; [lia|cbn [skipn Nat.sub]; now rewrite Nat.sub_0_r]).
    exact (validFrom_prefix c x _ Hc 0%nat ltac:(lia) Hv).
  - cbn [skipn]. apply IH.
Qed.

(** [strings.TrimSpace] of valid UTF-8 is valid UTF-8. *)
Lemma ValidString_TrimSpace s :
  utf8.ValidString s = true -> utf8.ValidString (strings.TrimSpace s) = true.
Proof.
  unfold utf8.ValidString, strings.TrimSpace, strings.trimRight. intros Hv.
  rewrite list_ascii_of_string_of_list_ascii.
  apply validFrom_trimRightRev. cbn [skipn]. rewrite rev_involutive.
  now apply validFrom_trimLeft.
Qed.

(** X27. Whatever bytes the stream holds, each field of a revision that
    [UnmarshalRevision] returns is valid UTF-8: a byte that belongs to no
    valid encoding is read as U+FFFD and written as such. *)
Theorem UnmarshalRevision_returns_valid_UTF8 (rd : Reader) (rev : Revision) :
  UnmarshalRevision rd = Returns (inl rev) ->
  utf8.ValidString (ID rev) = true
  /\ utf8.ValidString (Author rev) = true
  /\ utf8.ValidString (Comment rev) = true
  /\ utf8.ValidString (SQL rev) = true.
Proof.
  unfold UnmarshalRevision.
  set (Valid := fun d : decoder =>
         utf8.ValidString (ID (drev d)) = true
         /\ utf8.ValidString (Author (drev d)) = true
         /\ utf8.ValidString (Comment (drev d)) = true).
  assert (Htrim : forall b,
            utf8.ValidString (strings.TrimSpace (string_of_runes b)) = true).
  { intros b. apply ValidString_TrimSpace, ValidString_string_of_runes. }
  pose proof (readRunes_invariant (failure rd) Valid (fun _ => True)) as Hinv.
  specialize (Hinv (fun d Hd => Hd)).
  assert (Hclose : forall d, Valid d -> Valid (closeBlock d)).
  { intros d (H1 & H2 & H3). unfold Valid, closeBlock.
    cbn [drev setComment ID Author Comment]. repeat split; auto. }
  specialize (Hinv Hclose).
  assert (Hline : forall d d', Valid d -> blockLine d = Continue d' -> Valid d').
  { intros d d' (H1 & H2 & H3) Hb. unfold Valid.
    destruct (blockLine_Continue _ _ Hb) as (_ & [->|[[b ->]|[b ->]]] & _);
      cbn [setAuthor setID ID Author Comment]; repeat split; auto. }
  specialize (Hinv Hline (fun d r Hd _ => Hd) (fun d Hd => Hd)
                   (List.length (utf8.runes (content rd)))
                   (utf8.runes (content rd)) initialDecoder (le_n _)).
  assert (HA : Forall (fun _ : rune => True) (utf8.runes (content rd)))
    by (apply Forall_forall; auto).
  assert (H0 : Valid initialDecoder) by (repeat split; reflexivity).
  specialize (Hinv HA H0).
  destruct (readRunes (failure rd) initialDecoder (utf8.runes (content rd)))
    as [[d|e]|]; try discriminate.
  destruct Hinv as (_ & d0 & (H1 & H2 & H3) & ->).
  cbn [drev setSQL ID].
  destruct (time.ParseUnix (ID (drev d0))); [|discriminate].
  intros [= <-]. cbn [setSQL ID Author Comment SQL]. repeat split; auto.
Qed.

Lemma UnmarshalRevision_returns_valid_UTF8_witness :
  utf8.ValidString "20060102150405" = true
  /\ utf8.ValidString "" = true
  /\ utf8.ValidString (string_of_runes [utf8.RuneError]) = true
  /\ utf8.ValidString "SELECT 1" = true.
Proof.
  apply (UnmarshalRevision_returns_valid_UTF8
           (readerOf ("/*" ++ LF ++ "Revision: 20060102150405" ++ LF
                      ++ String (ascii_of_nat 255) ("*/" ++ "SELECT 1"))%string)
           (mkRevision "20060102150405" ""
                       (string_of_runes [utf8.RuneError]) "SELECT 1" None)).
  reflexivity.
Defined.

(** ** The title of a title *)

Lemma Title_fixed (r : Revision) :
  (String.length (Comment r) < 72)%nat
  \/ ((String.length (Comment r) = 72)%nat
      /\ IndexByte (Comment r) (ascii_of_nat 10) <= 0)
  \/ (exists s,
        (String.length s = 72)%nat
        /\ IndexByte s (ascii_of_nat 10) <= 0
        /\ Comment r = (s ++ "...")%string) ->
  Title r = Comment r.
Proof.
  intros [Hlt|[[Heq Hi]|(s & Hs & Hi & Hc)]].
  - unfold Title. apply Nat.leb_gt in Hlt. now rewrite Hlt.
  - rewrite Title_uncut.
    + assert (C : (String.length (Comment r) <=? 72)%nat = true)
        by (apply Nat.leb_le; lia).
      now rewrite C.
    + rewrite substring_all by lia. exact Hi.
  - assert (Hsub : substring 0 72 (Comment r) = s).
    { rewrite Hc, substring_append by lia. apply substring_all. lia. }
    rewrite Title_uncut by (rewrite Hsub; exact Hi).
    assert (C : (String.length (Comment r) <=? 72)%nat = false).
    { apply Nat.leb_gt. rewrite Hc, length_append, Hs. cbn. lia. }
    now rewrite C, Hsub, Hc.
Qed.

(** X28. The title of a title is the title: [Title] of a revision whose
    comment is a title is that title again. *)
Theorem Title_of_Title (r : Revision) :
  Title (setComment r (Title r)) = Title r.
Proof.
  rewrite Title_fixed; [reflexivity|].
  cbn [setComment Comment].
  destruct (72 <=? String.length (Comment r))%nat eqn:H72.
  2:{ left. unfold Title. rewrite H72. apply Nat.leb_gt in H72. exact H72. }
  apply Nat.leb_le in H72.
  pose proof (substring_length 72 (Comment r) H72) as Hl72.
  set (sub := substring 0 72 (Comment r)) in *.
  pose proof (IndexByte_range sub (ascii_of_nat 10)) as Hr.
  destruct (Z_lt_le_dec 0 (IndexByte sub (ascii_of_nat 10))) as [Hpos|Hle].
  - (* cut at the first line feed *)
    left.
    assert (Ht : Title r
                 = substring 0 (Z.to_nat (IndexByte sub (ascii_of_nat 10))) sub).
    { unfold Title. apply Nat.leb_le in H72. rewrite H72. fold sub.
      destruct (72 <? String.length (Comment r))%nat.
      - rewrite IndexByte_append by lia.
        assert (C : (0 <? IndexByte sub (ascii_of_nat 10)) = true) by lia.
        rewrite C. apply substring_append. lia.
      - assert (C : (0 <? IndexByte sub (ascii_of_nat 10)) = true) by lia.
        now rewrite C. }
    rewrite Ht.
    pose proof (substring_length_le
                  (Z.to_nat (IndexByte sub (ascii_of_nat 10))) sub).
    lia.
  - assert (Ht : Title r
                 = if (String.length (Comment r) <=? 72)%nat then Comment r
                   else (sub ++ "...")%string)
      by (apply Title_uncut; exact Hle).
    rewrite Ht.
    destruct (String.length (Comment r) <=? 72)%nat eqn:C.
    + apply Nat.leb_le in C. right. left. split; [lia|].
      unfold sub in Hle. rewrite substring_all in Hle by lia. exact Hle.
    + right. right. exists sub. repeat split; assumption.
Qed.
